(** * Scheduling simulator (src/scheduling.py): shallow embedding and verification

    The Python classes [Process] and [SchedulerSimulator] are embedded as
    records over [Z] (Python integers are unbounded).  Object references into
    [self.processes] are list indices, so that the in-place mutation of a
    process that sits at the same time in [self.processes], in [remaining] or
    in the ready [queue] is one update of the store.  Exceptions are an
    explicit [outcome]; the three [while] loops run on fuel. *)

From Stdlib Require Import ZArith QArith Lia.
From stdpp Require Import base decidable option list list_numbers sorting sets
  gmap strings pretty.

Open Scope Z_scope.

(** ** Outcomes: normal return, Python exception, or fuel exhausted *)

Inductive exn := ZeroDivisionError | OverflowError | KeyError | ValueError.

Inductive outcome (A : Type) : Type :=
| Ok (a : A)
| Raise (e : exn)
| OutOfFuel.
Arguments Ok {A} a.
Arguments Raise {A} e.
Arguments OutOfFuel {A}.

Definition obind {A B} (m : outcome A) (k : A → outcome B) : outcome B :=
  match m with
  | Ok a => k a
  | Raise e => Raise e
  | OutOfFuel => OutOfFuel
  end.

Notation "'let*' x ':=' m 'in' k" := (obind m (fun x => k))
  (at level 10, x name, m at level 200, k at level 200, only parsing).

(** A Python [while cond: body] loop.  [fuel] bounds the number of
    iterations; the loop itself tests [cond] before each of them. *)
Fixpoint while {S : Type} (cond : S → bool) (body : S → outcome S)
    (fuel : nat) (st : S) {struct fuel} : outcome S :=
  match fuel with
  | O => if cond st then OutOfFuel else Ok st
  | Datatypes.S f =>
      if cond st then
        match body st with
        | Ok st' => while cond body f st'
        | Raise e => Raise e
        | OutOfFuel => OutOfFuel
        end
      else Ok st
  end.

(** ** class Process *)

Record Process := mkProcess {
  pid : Z;
  arrival_time : Z;
  burst_time : Z;
  remaining_time : Z;
  completion_time : Z;
  turnaround_time : Z;
  waiting_time : Z;
  response_time : Z;
  first_run : Z
}.

(** [Process.__init__] *)
Definition Process_init (pid arrival_time burst_time : Z) : Process :=
  mkProcess pid arrival_time burst_time burst_time 0 0 0 0 (-1).

(** [Process.reset] *)
Definition reset (p : Process) : Process :=
  mkProcess (pid p) (arrival_time p) (burst_time p) (burst_time p) 0 0 0 0 (-1).

Global Instance Process_inhabited : Inhabited Process :=
  populate (Process_init 0 0 0).

(** Attribute assignments [p.field = v]. *)
Definition set_remaining_time (v : Z) (p : Process) : Process :=
  mkProcess (pid p) (arrival_time p) (burst_time p) v (completion_time p)
    (turnaround_time p) (waiting_time p) (response_time p) (first_run p).
Definition set_completion_time (v : Z) (p : Process) : Process :=
  mkProcess (pid p) (arrival_time p) (burst_time p) (remaining_time p) v
    (turnaround_time p) (waiting_time p) (response_time p) (first_run p).
Definition set_turnaround_time (v : Z) (p : Process) : Process :=
  mkProcess (pid p) (arrival_time p) (burst_time p) (remaining_time p)
    (completion_time p) v (waiting_time p) (response_time p) (first_run p).
Definition set_waiting_time (v : Z) (p : Process) : Process :=
  mkProcess (pid p) (arrival_time p) (burst_time p) (remaining_time p)
    (completion_time p) (turnaround_time p) v (response_time p) (first_run p).
Definition set_response_time (v : Z) (p : Process) : Process :=
  mkProcess (pid p) (arrival_time p) (burst_time p) (remaining_time p)
    (completion_time p) (turnaround_time p) (waiting_time p) v (first_run p).
Definition set_first_run (v : Z) (p : Process) : Process :=
  mkProcess (pid p) (arrival_time p) (burst_time p) (remaining_time p)
    (completion_time p) (turnaround_time p) (waiting_time p) (response_time p) v.

(** ** Timeline entries [(label, start, end)] *)

Definition TimelineEntry : Type := string * Z * Z.

Definition IDLE : string := "IDLE".

(** The f-string [f'P{process.pid}']. *)
Definition plabel (p : Process) : string := "P" +:+ pretty (pid p).

Definition tl_label (e : TimelineEntry) : string := e.1.1.
Definition tl_start (e : TimelineEntry) : Z := e.1.2.
Definition tl_end (e : TimelineEntry) : Z := e.2.

(** ** Python built-ins used by the simulator *)

(** [min(iterable, key=key)]: the first minimal element; the running best
    is replaced only by a strictly smaller key.  [ValueError] on an empty
    iterable. *)
Fixpoint min_from {A : Type} (key : A → Z) (best : A) (l : list A) : A :=
  match l with
  | [] => best
  | x :: l' => if decide (key x < key best) then min_from key x l'
               else min_from key best l'
  end.

Definition py_min {A : Type} (key : A → Z) (l : list A) : outcome A :=
  match l with
  | [] => Raise ValueError
  | x :: l' => Ok (min_from key x l')
  end.

(** [list.remove(x)]: drops the first occurrence, [ValueError] if none. *)
Fixpoint py_remove (x : nat) (l : list nat) : outcome (list nat) :=
  match l with
  | [] => Raise ValueError
  | y :: l' => if decide (y = x) then Ok l'
               else (let* r := py_remove x l' in Ok (y :: r))
  end.

(** *** Floats

    A Python float is an IEEE 754 binary64 number.  Every finite one is a
    multiple of [2^-1074] of magnitude below [2^1024], with a mantissa of
    at most 53 bits; the model keeps the value of a float, a rational
    ([-0.0] is the value 0; no operation of the simulator gives an
    infinity or a NaN). *)

(** The integer nearest to [n / d], ties to even, for [0 ≤ n] and
    [0 < d]. *)
Definition round_half_even (n d : Z) : Z :=
  let q := n / d in
  let r := n mod d in
  if decide (2 * r < d) then q
  else if decide (d < 2 * r) then q + 1
  else if Z.even q then q else q + 1.

(** Rounding on the grid of the floats, in units of [2^-1074]: for a
    quotient [x / d] given in these units ([0 ≤ x], [0 < d]), the nearest
    float, ties to even, again in these units.  The floats around the
    quotient are the multiples of [2^u], where [u] is 0 while the quotient
    is below [2^53] (subnormal numbers and the lowest binade) and
    [floor(log2 (x / d)) - 52] from there on; the exponent is not bounded
    above here. *)
Definition nearest_on_grid (x d : Z) : Z :=
  let u := Z.max 0 (Z.log2 (x / d) - 52) in
  round_half_even x (d * 2 ^ u) * 2 ^ u.

(** The float nearest to [n / d], in units of [2^-1074]. *)
Definition double_units (n d : Z) : Z := nearest_on_grid (n * 2 ^ 1074) d.

(** [a / b] on integers (true division): the float nearest to the
    quotient, ties to even, as CPython computes it for integers of any
    size; [OverflowError] when that float would be [2^1024] or more
    ("integer division result too large for a float"),
    [ZeroDivisionError] when [b] is 0. *)
Definition true_div (a b : Z) : outcome Q :=
  if decide (b = 0) then Raise ZeroDivisionError
  else
    let k := double_units (Z.abs a) (Z.abs b) in
    if decide (2 ^ (1024 + 1074) ≤ k) then Raise OverflowError
    else Ok (Qred (Qmake (Z.sgn a * Z.sgn b * k) (2 ^ 1074))).

(** [list.sort(key=lambda x: x.arrival_time)]: a stable sort, here by
    insertion from the right.  Being sorted and stable determines the
    result ([sort_by_arrival_unique] below), so the choice of the algorithm
    does not show. *)
Fixpoint insert_by_arrival (p : Process) (l : list Process) : list Process :=
  match l with
  | [] => [p]
  | q :: l' => if decide (arrival_time p ≤ arrival_time q) then p :: q :: l'
               else q :: insert_by_arrival p l'
  end.

Definition sort_by_arrival (l : list Process) : list Process :=
  foldr insert_by_arrival [] l.

(** ** class SchedulerSimulator *)

Record SchedulerSimulator := mkSim {
  original_processes : list Process;
  processes : list Process;
  timeline : list TimelineEntry
}.

(** [SchedulerSimulator.__init__] *)
Definition SchedulerSimulator_init (ps : list Process) : SchedulerSimulator :=
  mkSim ps [] [].

(** [reset_processes]: fresh [Process] objects built from the three
    constructor arguments of the originals, and an empty timeline. *)
Definition reset_processes (s : SchedulerSimulator) : SchedulerSimulator :=
  mkSim (original_processes s)
        ((λ p, Process_init (pid p) (arrival_time p) (burst_time p))
           <$> original_processes s)
        [].

(** The body of the loop of [calculate_metrics]. *)
Definition metrics_of (p : Process) : Process :=
  let p := set_turnaround_time (completion_time p - arrival_time p) p in
  set_waiting_time (turnaround_time p - burst_time p) p.

Definition calculate_metrics (s : SchedulerSimulator) : SchedulerSimulator :=
  mkSim (original_processes s) (metrics_of <$> processes s) (timeline s).

Record Averages := mkAverages { avg_tat : Q; avg_wt : Q; avg_rt : Q }.

(** The accumulators [total_tat], [total_wt], [total_rt]. *)
Definition total (f : Process → Z) (ps : list Process) : Z :=
  foldl (λ acc p, acc + f p) 0 ps.

(** [print_results], without the console output.  The first division is
    already evaluated inside the first [print] of an average. *)
Definition print_results (s : SchedulerSimulator) : outcome Averages :=
  let total_tat := total turnaround_time (processes s) in
  let total_wt := total waiting_time (processes s) in
  let total_rt := total response_time (processes s) in
  let n := Z.of_nat (length (processes s)) in
  let* a_tat := true_div total_tat n in
  let* a_wt := true_div total_wt n in
  let* a_rt := true_div total_rt n in
  Ok (mkAverages a_tat a_wt a_rt).

(** The last two lines of every policy: [self.calculate_metrics()], then
    [return self.print_results(...)]. *)
Definition finish (s : SchedulerSimulator)
    : outcome (SchedulerSimulator * Averages) :=
  let s := calculate_metrics s in
  let* r := print_results s in
  Ok (s, r).

(** *** FIFO *)

(** The [for process in self.processes] loop: every element is mutated in
    place, in list order. *)
Fixpoint fifo_loop (todo : list Process) (current_time : Z)
    (tl : list TimelineEntry) : list Process * Z * list TimelineEntry :=
  match todo with
  | [] => ([], current_time, tl)
  | process :: rest =>
      let '(current_time, tl) :=
        if decide (current_time < arrival_time process)
        then (arrival_time process,
              tl ++ [(IDLE, current_time, arrival_time process)])
        else (current_time, tl) in
      let process :=
        set_response_time (current_time - arrival_time process) process in
      let process := set_first_run current_time process in
      let start_time := current_time in
      let current_time := current_time + burst_time process in
      let process := set_completion_time current_time process in
      let tl := tl ++ [(plabel process, start_time, current_time)] in
      let '(rest', t', tl') := fifo_loop rest current_time tl in
      (process :: rest', t', tl')
  end.

Definition fifo_schedule (s : SchedulerSimulator)
    : outcome (SchedulerSimulator * Averages) :=
  let s := reset_processes s in
  let sorted := sort_by_arrival (processes s) in
  let '(ps, _, tl) := fifo_loop sorted 0 (timeline s) in
  finish (mkSim (original_processes s) ps tl).

(** *** SJF *)

(** The variables of [sjf_schedule]; [completed] and [remaining] hold
    references into [self.processes]. *)
Record SJFState := mkSJF {
  sjf_procs : list Process;
  sjf_time : Z;
  sjf_completed : list nat;
  sjf_remaining : list nat;
  sjf_timeline : list TimelineEntry
}.

Definition sjf_cond (st : SJFState) : bool :=
  bool_decide (sjf_remaining st ≠ []).

Definition sjf_body (st : SJFState) : outcome SJFState :=
  let ps := sjf_procs st in
  let current_time := sjf_time st in
  let available :=
    filter (λ i, arrival_time (ps !!! i) ≤ current_time) (sjf_remaining st) in
  match available with
  | [] =>
      let* next_arrival :=
        py_min id ((λ i, arrival_time (ps !!! i)) <$> sjf_remaining st) in
      Ok (mkSJF ps next_arrival (sjf_completed st) (sjf_remaining st)
            (sjf_timeline st ++ [(IDLE, current_time, next_arrival)]))
  | _ :: _ =>
      let* shortest := py_min (λ i, burst_time (ps !!! i)) available in
      let* remaining := py_remove shortest (sjf_remaining st) in
      let p := ps !!! shortest in
      let p := set_response_time (current_time - arrival_time p) p in
      let p := set_first_run current_time p in
      let start_time := current_time in
      let current_time := current_time + burst_time p in
      let p := set_completion_time current_time p in
      Ok (mkSJF (<[shortest := p]> ps) current_time
            (sjf_completed st ++ [shortest]) remaining
            (sjf_timeline st ++ [(plabel p, start_time, current_time)]))
  end.

Definition sjf_schedule (fuel : nat) (s : SchedulerSimulator)
    : outcome (SchedulerSimulator * Averages) :=
  let s := reset_processes s in
  let st0 := mkSJF (processes s) 0 [] (seq 0 (length (processes s)))
               (timeline s) in
  let* st := while sjf_cond sjf_body fuel st0 in
  finish (mkSim (original_processes s) (sjf_procs st) (sjf_timeline st)).

(** *** STCF *)

(** The variables of [stcf_schedule]. *)
Record STCFState := mkSTCF {
  stcf_procs : list Process;
  stcf_time : Z;
  stcf_completed : list nat;
  stcf_timeline : list TimelineEntry
}.

Definition stcf_cond (st : STCFState) : bool :=
  bool_decide (length (stcf_completed st) < length (stcf_procs st))%nat.

(** The timeline update of STCF: extend the last entry when it has the same
    label and ends where this unit starts, append otherwise. *)
Definition timeline_merge (tl : list TimelineEntry) (lbl : string)
    (start_time current_time : Z) : list TimelineEntry :=
  match last tl with
  | Some (l, s, e) =>
      if decide (l = lbl ∧ e = start_time)
      then <[pred (length tl) := (l, s, current_time)]> tl
      else tl ++ [(lbl, start_time, current_time)]
  | None => tl ++ [(lbl, start_time, current_time)]
  end.

Definition stcf_body (st : STCFState) : outcome STCFState :=
  let ps := stcf_procs st in
  let current_time := stcf_time st in
  let available :=
    filter (λ i, arrival_time (ps !!! i) ≤ current_time
                 ∧ remaining_time (ps !!! i) > 0)
           (seq 0 (length ps)) in
  match available with
  | [] => Ok (mkSTCF ps (current_time + 1) (stcf_completed st)
                (stcf_timeline st))
  | _ :: _ =>
      let* cur := py_min (λ i, remaining_time (ps !!! i)) available in
      let p := ps !!! cur in
      let p :=
        if decide (first_run p = -1)
        then set_response_time (current_time - arrival_time p)
               (set_first_run current_time p)
        else p in
      let start_time := current_time in
      let p := set_remaining_time (remaining_time p - 1) p in
      let current_time := current_time + 1 in
      let '(p, completed) :=
        if decide (remaining_time p = 0)
        then (set_completion_time current_time p, stcf_completed st ++ [cur])
        else (p, stcf_completed st) in
      Ok (mkSTCF (<[cur := p]> ps) current_time completed
            (timeline_merge (stcf_timeline st) (plabel p) start_time
               current_time))
  end.

Definition stcf_schedule (fuel : nat) (s : SchedulerSimulator)
    : outcome (SchedulerSimulator * Averages) :=
  let s := reset_processes s in
  let st0 := mkSTCF (processes s) 0 [] (timeline s) in
  let* st := while stcf_cond stcf_body fuel st0 in
  finish (mkSim (original_processes s) (stcf_procs st) (stcf_timeline st)).

(** *** Round Robin *)

(** The variables of [rr_schedule]: the deque [queue] and the list
    [completed] hold references into [self.processes], the set [in_queue]
    holds pids. *)
Record RRState := mkRR {
  rr_procs : list Process;
  rr_time : Z;
  rr_queue : list nat;
  rr_completed : list nat;
  rr_in_queue : gset Z;
  rr_timeline : list TimelineEntry
}.

Definition rr_cond (st : RRState) : bool :=
  bool_decide (rr_queue st ≠ [])
  || bool_decide (length (rr_completed st) < length (rr_procs st))%nat.

(** The two arrival scans inside the loop.  [skip] is the process that has
    just run ([p != current_process], an identity test), absent in the scan
    at the top of the loop. *)
Definition rr_scan_one (ps : list Process) (current_time : Z)
    (skip : option nat) (acc : list nat * gset Z) (i : nat)
    : list nat * gset Z :=
  let p := ps !!! i in
  if decide (arrival_time p ≤ current_time ∧ (pid p ∉ acc.2)
             ∧ remaining_time p > 0 ∧ skip ≠ Some i)
  then (acc.1 ++ [i], {[pid p]} ∪ acc.2)
  else acc.

Definition rr_scan (ps : list Process) (current_time : Z) (skip : option nat)
    (queue : list nat) (in_queue : gset Z) : list nat * gset Z :=
  foldl (rr_scan_one ps current_time skip) (queue, in_queue)
        (seq 0 (length ps)).

Definition rr_body (quantum : Z) (st : RRState) : outcome RRState :=
  let ps := rr_procs st in
  let current_time := rr_time st in
  let '(queue, in_queue) :=
    rr_scan ps current_time None (rr_queue st) (rr_in_queue st) in
  match queue with
  | [] => Ok (mkRR ps (current_time + 1) queue (rr_completed st) in_queue
                (rr_timeline st))
  | cur :: queue =>
      let p := ps !!! cur in
      let* in_queue := (if decide (pid p ∈ in_queue)
                   then Ok (in_queue ∖ {[pid p]}) else Raise KeyError) in
      let p :=
        if decide (first_run p = -1)
        then set_response_time (current_time - arrival_time p)
               (set_first_run current_time p)
        else p in
      let execution_time := Z.min quantum (remaining_time p) in
      let start_time := current_time in
      let p := set_remaining_time (remaining_time p - execution_time) p in
      let current_time := current_time + execution_time in
      let tl := rr_timeline st ++ [(plabel p, start_time, current_time)] in
      let ps := <[cur := p]> ps in
      let '(queue, in_queue) :=
        rr_scan ps current_time (Some cur) queue in_queue in
      if decide (remaining_time p = 0) then
        let ps := <[cur := set_completion_time current_time p]> ps in
        Ok (mkRR ps current_time queue (rr_completed st ++ [cur]) in_queue tl)
      else
        Ok (mkRR ps current_time (queue ++ [cur]) (rr_completed st)
              ({[pid p]} ∪ in_queue) tl)
  end.

(** The initial scan: no membership test, no [remaining_time] test. *)
Definition rr_initial (ps : list Process) : list nat * gset Z :=
  foldl (λ acc i,
           let p := ps !!! i in
           if decide (arrival_time p ≤ 0)
           then (acc.1 ++ [i], {[pid p]} ∪ acc.2) else acc)
        ([], ∅) (seq 0 (length ps)).

Definition rr_schedule (quantum : Z) (fuel : nat) (s : SchedulerSimulator)
    : outcome (SchedulerSimulator * Averages) :=
  let s := reset_processes s in
  let '(queue, in_queue) := rr_initial (processes s) in
  let st0 := mkRR (processes s) 0 queue [] in_queue (timeline s) in
  let* st := while rr_cond (rr_body quantum) fuel st0 in
  finish (mkSim (original_processes s) (rr_procs st) (rr_timeline st)).

(** The default [quantum=3] of [rr_schedule]. *)
Definition rr_default_quantum : Z := 3.

(** *** The four policies behind one entry point *)

Inductive Policy := FIFO | SJF | STCF | RR (quantum : Z).

Definition run (pol : Policy) (fuel : nat) (s : SchedulerSimulator)
    : outcome (SchedulerSimulator * Averages) :=
  match pol with
  | FIFO => fifo_schedule s
  | SJF => sjf_schedule fuel s
  | STCF => stcf_schedule fuel s
  | RR quantum => rr_schedule quantum fuel s
  end.

(** A policy between its first line, [self.reset_processes()], and its
    last, [return self.print_results(...)]: the simulation proper and
    [calculate_metrics].  The result is the simulator as [print_results]
    finds it, and as the call leaves it whether [print_results] returns or
    raises; [run] is [reset_processes], then this, then [print_results]
    ([run_simulate] below). *)
Definition simulate (pol : Policy) (fuel : nat) (s : SchedulerSimulator)
    : outcome SchedulerSimulator :=
  match pol with
  | FIFO =>
      let sorted := sort_by_arrival (processes s) in
      let '(ps, _, tl) := fifo_loop sorted 0 (timeline s) in
      Ok (calculate_metrics (mkSim (original_processes s) ps tl))
  | SJF =>
      let st0 := mkSJF (processes s) 0 [] (seq 0 (length (processes s)))
                   (timeline s) in
      let* st := while sjf_cond sjf_body fuel st0 in
      Ok (calculate_metrics
            (mkSim (original_processes s) (sjf_procs st) (sjf_timeline st)))
  | STCF =>
      let st0 := mkSTCF (processes s) 0 [] (timeline s) in
      let* st := while stcf_cond stcf_body fuel st0 in
      Ok (calculate_metrics
            (mkSim (original_processes s) (stcf_procs st) (stcf_timeline st)))
  | RR quantum =>
      let '(queue, in_queue) := rr_initial (processes s) in
      let st0 := mkRR (processes s) 0 queue [] in_queue (timeline s) in
      let* st := while rr_cond (rr_body quantum) fuel st0 in
      Ok (calculate_metrics
            (mkSim (original_processes s) (rr_procs st) (rr_timeline st)))
  end.

(** The example of [main]. *)
Definition main_processes : list Process :=
  [Process_init 1 0 5; Process_init 2 1 3; Process_init 3 2 8;
   Process_init 4 3 6].

(** ** The Gantt chart: [visualize_timeline] *)

(** A colour of the chart: a row of the array [colors] (the colormap
    sampled at [len(self.processes) + 1] points), or the fallback
    ['gray'] of [color_map.get]. *)
Inductive Color := Palette (row : nat) | Gray.

(** The calls on the axes, in the order the loop makes them:
    [ax.barh(y_pos, width, left=left, color=color, ...)] and
    [ax.text(x, y_pos, label, ...)]. *)
Inductive Draw :=
| Barh (left width : Z) (color : Color)
| TextAt (x : Q) (label : string).

(** What the method leaves on the figure. *)
Record Figure := mkFigure {
  fig_title : string;
  fig_draws : list Draw;
  fig_xticks : list Z
}.

(** The dict [color_map]: ['IDLE'] first, then one assignment per process
    in the order of [enumerate(self.processes)]; a later assignment of the
    same key replaces the earlier one. *)
Definition color_map (ps : list Process) : gmap string Color :=
  foldl (λ m ip, <[plabel ip.2 := Palette (S ip.1)]> m)
        {[IDLE := Palette 0]} (zip (seq 0 (length ps)) ps).

(** The body of [for task, start, end in self.timeline]. *)
Definition draw_entry (cm : gmap string Color) (e : TimelineEntry)
    : list Draw :=
  let '(task, start, end_) := e in
  Barh start (end_ - start) (default Gray (cm !! task))
  :: (if decide (end_ - start > 1)
      then [TextAt (inject_Z start + inject_Z (end_ - start) / 2) task]
      else []).

(** [range(0, stop, step)] for a positive [step]. *)
Definition py_range0 (stop step : Z) : list Z :=
  (λ k : nat, Z.of_nat k * step) <$> seq 0 (Z.to_nat ((stop + step - 1) / step)).

(** [visualize_timeline]: [None] when the early [return] is taken (the
    message is printed and nothing is drawn). *)
Definition visualize_timeline (s : SchedulerSimulator) (title : string)
    : option Figure :=
  match timeline s with
  | [] => None
  | e0 :: rest =>
      let color_map := color_map (processes s) in
      let draws := timeline s ≫= draw_entry color_map in
      let max_time := foldl Z.max (tl_end e0) (tl_end <$> rest) in
      Some (mkFigure title draws
              (py_range0 (max_time + 1) (Z.max 1 (max_time / 20))))
  end.

(** ** The driver: [main] *)



(** ** What is observed of a run *)

(** The immutable part of a process: [(pid, arrival_time, burst_time)]. *)
Definition spec_of (p : Process) : Z * Z * Z :=
  (pid p, arrival_time p, burst_time p).

(** Valid input (spec, section 4.2): unique pids, positive bursts,
    non-negative arrivals; a positive quantum for Round Robin. *)
Definition valid_process (p : Process) : Prop :=
  0 ≤ arrival_time p ∧ 0 < burst_time p.

Definition valid_input (ps : list Process) : Prop :=
  NoDup (pid <$> ps) ∧ Forall valid_process ps.

Definition valid_policy (pol : Policy) : Prop :=
  match pol with RR quantum => 0 < quantum | _ => True end.

(** [returns pol s r]: the call of policy [pol] on simulator [s] returns,
    leaving the simulator and the averages [r]. *)
Definition returns (pol : Policy) (s : SchedulerSimulator)
    (r : SchedulerSimulator * Averages) : Prop :=
  ∃ fuel, run pol fuel s = Ok r.

(** [completes pol s s']: the call of policy [pol] on simulator [s] gets
    through its simulation and reaches [print_results] with the simulator
    in state [s'].  The call then returns [s'] and the averages, unless an
    average is too large for a float and [print_results] raises
    [OverflowError], which leaves [s'] behind all the same
    ([completes_run] below). *)
Definition completes (pol : Policy) (s s' : SchedulerSimulator) : Prop :=
  ∃ fuel, simulate pol fuel (reset_processes s) = Ok s'.

(** Timeline shapes.  [tl_chain R lo tl]: every entry has [start < end], the
    first start is [R]-related to [lo] and every later start to the end of
    the entry before it. *)
Fixpoint tl_chain (R : Z → Z → Prop) (lo : Z) (tl : list TimelineEntry)
    : Prop :=
  match tl with
  | [] => True
  | e :: r => R lo (tl_start e) ∧ tl_start e < tl_end e ∧ tl_chain R (tl_end e) r
  end.

(** Ordered and overlap-free. *)
Definition tl_ordered : Z → list TimelineEntry → Prop := tl_chain Z.le.
(** Ordered, overlap-free and gap-free. *)
Definition tl_gap_free : Z → list TimelineEntry → Prop := tl_chain eq.

(** The end of the last entry ([lo] for an empty timeline). *)
Definition tl_end_of (lo : Z) (tl : list TimelineEntry) : Z :=
  default lo (tl_end <$> last tl).

(** No two consecutive entries share a label. *)
Fixpoint tl_merged (tl : list TimelineEntry) : Prop :=
  match tl with
  | e :: (e' :: _) as r => tl_label e ≠ tl_label e' ∧ tl_merged r
  | _ => True
  end.

(** The gaps of a timeline from [lo] on: from the end of an entry (from
    [lo] for the first) to the start of the next one, where the two
    differ. *)
Fixpoint tl_gaps (lo : Z) (tl : list TimelineEntry) : list (Z * Z) :=
  match tl with
  | [] => []
  | e :: r =>
      (if decide (lo < tl_start e) then [(lo, tl_start e)] else [])
      ++ tl_gaps (tl_end e) r
  end.

(** The gap [g] is idle time, all of it: no process waits or runs in it
    (each one has completed when the gap opens, or arrives when it closes
    or later), and it closes as a process arrives. *)
Definition idle_gap (ps : list Process) (g : Z * Z) : Prop :=
  Forall (λ p, completion_time p ≤ g.1 ∨ g.2 ≤ arrival_time p) ps
  ∧ Exists (λ p, arrival_time p = g.2) ps.

(** Slices left unmerged: where two consecutive entries share a label,
    the first is a full quantum and the second starts where it ends. *)
Fixpoint tl_slices (quantum : Z) (tl : list TimelineEntry) : Prop :=
  match tl with
  | e :: (e' :: _) as r =>
      (tl_label e = tl_label e' →
       tl_end e - tl_start e = quantum ∧ tl_start e' = tl_end e)
      ∧ tl_slices quantum r
  | _ => True
  end.

(** Sum of the lengths of the entries that are not [IDLE]. *)
Definition busy (tl : list TimelineEntry) : Z :=
  foldr (λ e acc, (if decide (tl_label e = IDLE) then 0
                   else tl_end e - tl_start e) + acc) 0 tl.

(** The largest completion time. *)
Definition makespan (ps : list Process) : Z :=
  foldr Z.max 0 (completion_time <$> ps).

Global Instance valid_process_dec p : Decision (valid_process p).
Proof. unfold valid_process. apply _. Defined.

Global Instance valid_input_dec ps : Decision (valid_input ps).
Proof. unfold valid_input. apply _. Defined.

(** The order of the FIFO sort key. *)
Definition by_arrival (p q : Process) : Prop :=
  arrival_time p ≤ arrival_time q.

(** What holds of a process once it has run to completion. *)
Definition done_ok (p : Process) : Prop :=
  arrival_time p ≤ first_run p
  ∧ response_time p = first_run p - arrival_time p
  ∧ first_run p + burst_time p ≤ completion_time p.

(** ... and once [calculate_metrics] has derived its metrics. *)
Definition final_ok (p : Process) : Prop :=
  turnaround_time p = completion_time p - arrival_time p
  ∧ waiting_time p = turnaround_time p - burst_time p
  ∧ done_ok p.

(** The order in which the final process states are listed. *)
Definition policy_order (pol : Policy) (ps : list Process) : list Process :=
  match pol with FIFO => sort_by_arrival ps | _ => ps end.

(** Guaranteed by all four policies. *)
Definition run_common (pol : Policy) (s s' : SchedulerSimulator) : Prop :=
  original_processes s' = original_processes s
  ∧ spec_of <$> processes s'
    = spec_of <$> policy_order pol (original_processes s)
  ∧ Forall final_ok (processes s')
  ∧ tl_ordered 0 (timeline s')
  ∧ busy (timeline s') = total burst_time (original_processes s).

(** The timeline ends with the last completion. *)
Definition run_end (s' : SchedulerSimulator) : Prop :=
  tl_end_of 0 (timeline s') = makespan (processes s').

(** Guaranteed on top of that, policy by policy. *)
Definition run_shape (pol : Policy) (s' : SchedulerSimulator) : Prop :=
  match pol with
  | FIFO | SJF => tl_gap_free 0 (timeline s') ∧ tl_merged (timeline s')
  | STCF => tl_merged (timeline s')
  | RR _ => True
  end.


(** [x] is the first minimum of [key] among the candidates [l], in the
    order of the process list: no candidate has a smaller key, and every
    candidate in front of [x] has a strictly larger one. *)
Definition first_min (key : nat → Z) (l : list nat) (x : nat) : Prop :=
  x ∈ l
  ∧ (∀ j, j ∈ l → key x ≤ key j)
  ∧ (∀ j, j ∈ l → (j < x)%nat → key x < key j).

(** Two processes tie on burst time 3 once the first one is done at 4.
    The earlier one in the input has the larger pid and the later arrival;
    it is the one that runs. *)
Definition tie_processes : list Process :=
  [Process_init 9 0 4; Process_init 5 2 3; Process_init 1 1 3].

(** The SJF state after the first process has run. *)
Definition tie_state : SJFState :=
  mkSJF [mkProcess 9 0 4 4 4 0 0 0 0; Process_init 5 2 3; Process_init 1 1 3]
        4 [0%nat] [1%nat; 2%nat] [("P9", 0, 4)].

(** ** Vocabulary of the proofs: index sums, queue contents, loop invariants *)

(** Sums over index lists. *)
Definition sum_over (f : nat → Z) (l : list nat) : Z :=
  foldr (λ i acc, f i + acc) 0 l.

(** A process in the middle of a preemptive run, at clock value [t]. *)
Definition proc_inv (t : Z) (p : Process) : Prop :=
  0 ≤ remaining_time p ≤ burst_time p
  ∧ ((first_run p = -1 ∧ remaining_time p = burst_time p)
     ∨ (arrival_time p ≤ first_run p
        ∧ response_time p = first_run p - arrival_time p
        ∧ first_run p + (burst_time p - remaining_time p) ≤ t))
  ∧ (remaining_time p = 0 →
     first_run p + burst_time p ≤ completion_time p ∧ completion_time p ≤ t).

(** Number of completed processes. *)
Definition ndone (ps : list Process) : nat :=
  length (filter (λ p, remaining_time p = 0) ps).

(** The latest arrival. *)
Definition max_arrival (ps : list Process) : Z :=
  foldr Z.max 0 (arrival_time <$> ps).


(** Bound on the iterations left: idle units until the last arrival, plus
    the work left. *)
Definition work_left (ps0 ps : list Process) (t : Z) : nat :=
  (Z.to_nat (max_arrival ps0 - t) + Z.to_nat (total remaining_time ps))%nat.

(** The pids of the processes referenced by a queue: the set [in_queue]
    that the code keeps next to [queue]. *)
Definition pidset (ps : list Process) (q : list nat) : gset Z :=
  list_to_set ((λ i, pid (ps !!! i)) <$> q).

(** A process that an arrival scan appends to the queue. *)
Definition rr_eligible (ps : list Process) (current_time : Z)
    (skip : option nat) (q : list nat) (i : nat) : Prop :=
  arrival_time (ps !!! i) ≤ current_time ∧ (i ∉ q)
  ∧ remaining_time (ps !!! i) > 0 ∧ skip ≠ Some i.

Global Instance rr_eligible_dec ps t skip q i :
  Decision (rr_eligible ps t skip q i).
Proof. unfold rr_eligible. apply _. Defined.

(** The processes appended by one scan, in process-list order. *)
Definition rr_arrivals (ps : list Process) (current_time : Z)
    (skip : option nat) (q : list nat) : list nat :=
  filter (rr_eligible ps current_time skip q) (seq 0 (length ps)).

(** The process [p] after a dispatch at [current_time]: first-run
    bookkeeping, then [min(quantum, remaining_time)] units of execution. *)
Definition rr_dispatched (quantum current_time : Z) (p : Process) : Process :=
  let p :=
    if decide (first_run p = -1)
    then set_response_time (current_time - arrival_time p)
           (set_first_run current_time p)
    else p in
  set_remaining_time (remaining_time p - Z.min quantum (remaining_time p)) p.

(** State conditions under which the body of the loop is described below:
    unique pids, and [in_queue] in step with [queue]. *)
Definition rr_wf (st : RRState) : Prop :=
  NoDup (pid <$> rr_procs st)
  ∧ NoDup (rr_queue st)
  ∧ (∀ j, j ∈ rr_queue st → (j < length (rr_procs st))%nat)
  ∧ rr_in_queue st = pidset (rr_procs st) (rr_queue st).

(** The invariant of the SJF loop, for the input [ps0]. *)
Record sjf_inv (ps0 : list Process) (st : SJFState) : Prop := {
  sjf_spec : spec_of <$> sjf_procs st = spec_of <$> ps0;
  sjf_sorted : StronglySorted lt (sjf_remaining st);
  sjf_bound : ∀ i, i ∈ sjf_remaining st → (i < length ps0)%nat;
  sjf_time0 : 0 ≤ sjf_time st;
  sjf_done : ∀ i, (i < length ps0)%nat → i ∉ sjf_remaining st →
    done_ok (sjf_procs st !!! i)
    ∧ completion_time (sjf_procs st !!! i) ≤ sjf_time st;
  sjf_gap_free : tl_gap_free 0 (sjf_timeline st);
  sjf_end : tl_end_of 0 (sjf_timeline st) = sjf_time st;
  sjf_merged : tl_merged (sjf_timeline st);
  sjf_busy :
    busy (sjf_timeline st)
    + sum_over (λ i, burst_time (ps0 !!! i)) (sjf_remaining st)
    = total burst_time ps0;
  sjf_fresh : ∀ e i, e ∈ sjf_timeline st → i ∈ sjf_remaining st →
    tl_label e ≠ plabel (ps0 !!! i);
  sjf_after_idle : ∀ e, last (sjf_timeline st) = Some e →
    tl_label e = IDLE →
    ∃ i, i ∈ sjf_remaining st ∧ arrival_time (ps0 !!! i) ≤ sjf_time st;
  sjf_last : sjf_remaining st = [] → ps0 ≠ [] →
    ∃ i, (i < length ps0)%nat
         ∧ completion_time (sjf_procs st !!! i) = sjf_time st
}.

(** Two iterations at most per process: an idle one, then its run. *)
Definition sjf_measure (st : SJFState) : nat :=
  2 * length (sjf_remaining st)
  - match filter (λ i, arrival_time (sjf_procs st !!! i) ≤ sjf_time st)
            (sjf_remaining st) with
    | [] => 0
    | _ :: _ => 1
    end.

(** The invariant of the STCF loop, for the input [ps0].  The field
    [stcf_lastrun] is what makes merging complete:
    the process of the last entry is either still running up to now, or
    finished. *)
Record stcf_inv (ps0 : list Process) (st : STCFState) : Prop := {
  stcf_spec : spec_of <$> stcf_procs st = spec_of <$> ps0;
  stcf_time0 : 0 ≤ stcf_time st;
  stcf_proc : Forall (proc_inv (stcf_time st)) (stcf_procs st);
  stcf_ndone : length (stcf_completed st) = ndone (stcf_procs st);
  stcf_ordered : tl_ordered 0 (stcf_timeline st);
  stcf_end : tl_end_of 0 (stcf_timeline st) ≤ stcf_time st;
  stcf_busy :
    busy (stcf_timeline st)
    = total (λ p, burst_time p - remaining_time p) (stcf_procs st);
  stcf_merged : tl_merged (stcf_timeline st);
  stcf_lastrun : ∀ e, last (stcf_timeline st) = Some e →
    (tl_end e = stcf_time st
     ∧ ∀ i, (i < length ps0)%nat → plabel (ps0 !!! i) = tl_label e →
            arrival_time (ps0 !!! i) ≤ stcf_time st)
    ∨ (∀ i, (i < length ps0)%nat → plabel (ps0 !!! i) = tl_label e →
            remaining_time (stcf_procs st !!! i) = 0);
  stcf_fin :
    (length (stcf_completed st) < length (stcf_procs st))%nat
    ∨ (tl_end_of 0 (stcf_timeline st) = stcf_time st
       ∧ ∃ i, (i < length ps0)%nat
              ∧ completion_time (stcf_procs st !!! i) = stcf_time st)
}.

Definition stcf_measure (ps0 : list Process) (st : STCFState) : nat :=
  work_left ps0 (stcf_procs st) (stcf_time st).

(** The invariant of the Round-Robin loop, for the input [ps0]. *)
Record rr_inv (ps0 : list Process) (st : RRState) : Prop := {
  rr_spec : spec_of <$> rr_procs st = spec_of <$> ps0;
  rr_time0 : 0 ≤ rr_time st;
  rr_proc : Forall (proc_inv (rr_time st)) (rr_procs st);
  rr_ndone : length (rr_completed st) = ndone (rr_procs st);
  rr_ordered : tl_ordered 0 (rr_timeline st);
  rr_end : tl_end_of 0 (rr_timeline st) ≤ rr_time st;
  rr_busy :
    busy (rr_timeline st)
    = total (λ p, burst_time p - remaining_time p) (rr_procs st);
  rr_queue_NoDup : NoDup (rr_queue st);
  rr_queue_ok : ∀ i, i ∈ rr_queue st →
    (i < length ps0)%nat ∧ remaining_time (rr_procs st !!! i) > 0
    ∧ arrival_time (ps0 !!! i) ≤ rr_time st;
  rr_in_queue_ok : rr_in_queue st = pidset (rr_procs st) (rr_queue st);
  rr_fin :
    (length (rr_completed st) < length (rr_procs st))%nat
    ∨ (tl_end_of 0 (rr_timeline st) = rr_time st
       ∧ ∃ i, (i < length ps0)%nat
              ∧ completion_time (rr_procs st !!! i) = rr_time st)
}.

Definition rr_measure (ps0 : list Process) (st : RRState) : nat :=
  work_left ps0 (rr_procs st) (rr_time st).

(** ** Vocabulary of the further properties *)

(** Time that the timeline gives to the label [lbl]. *)
Definition time_of (lbl : string) (tl : list TimelineEntry) : Z :=
  foldr (λ e acc, (if decide (tl_label e = lbl) then tl_end e - tl_start e
                   else 0) + acc) 0 tl.

(** Number of entries with the label [lbl]. *)
Definition slices_of (lbl : string) (tl : list TimelineEntry) : nat :=
  length (filter (λ e, tl_label e = lbl) tl).


(** One unit or slice of execution recorded on the timeline: appended as a
    new entry, or merged into the last one (STCF). *)
Definition tl_extends (lbl : string) (t t' : Z)
    (tl tl' : list TimelineEntry) : Prop :=
  tl' = tl ++ [(lbl, t, t')]
  ∨ ∃ tl0 s0, tl = tl0 ++ [(lbl, s0, t)] ∧ tl' = tl0 ++ [(lbl, s0, t')].

(** Facts that tie the timeline [tl] to the process states [procs] at the
    clock value [t]; [owed i] is the execution time still owed to the
    process at index [i].  Every process has received its burst minus what
    is left; every entry of a process lies between its first run and now,
    and before its completion once nothing is left; the clock has not
    passed the last arrival by more than the time spent executing. *)
Record run_ext (ps0 procs : list Process) (owed : nat → Z) (t : Z)
    (tl : list TimelineEntry) : Prop := {
  ext_time : ∀ i, (i < length ps0)%nat →
    time_of (plabel (ps0 !!! i)) tl = burst_time (ps0 !!! i) - owed i;
  ext_life : ∀ e i, e ∈ tl → (i < length ps0)%nat →
    tl_label e = plabel (ps0 !!! i) →
    first_run (procs !!! i) ≠ -1
    ∧ first_run (procs !!! i) ≤ tl_start e
    ∧ tl_end e ≤ t
    ∧ (owed i = 0 → tl_end e ≤ completion_time (procs !!! i));
  ext_span : t ≤ max_arrival ps0 + busy tl
}.

(** The same facts at the end of a run, on the final states. *)
Definition run_detail (ps : list Process) (tl : list TimelineEntry) : Prop :=
  (∀ p, p ∈ ps → time_of (plabel p) tl = burst_time p)
  ∧ (∀ e p, e ∈ tl → p ∈ ps → tl_label e = plabel p →
       arrival_time p ≤ first_run p ∧ first_run p ≤ tl_start e
       ∧ tl_end e ≤ completion_time p)
  ∧ makespan ps ≤ max_arrival ps + total burst_time ps.


(** Round Robin: every slice is at most one quantum long, and a process
    has as many slices as the quanta that its executed time takes up (a
    process that is not finished has only had full quanta). *)
Record rr_slices (ps0 : list Process) (quantum : Z) (st : RRState)
    : Prop := {
  rr_slice_len :
    Forall (λ e, 0 < tl_end e - tl_start e ≤ quantum) (rr_timeline st);
  rr_slice_count : ∀ i, (i < length ps0)%nat →
    let executed :=
      burst_time (ps0 !!! i) - remaining_time (rr_procs st !!! i) in
    Z.of_nat (slices_of (plabel (ps0 !!! i)) (rr_timeline st))
    = (executed + quantum - 1) / quantum
    ∧ (remaining_time (rr_procs st !!! i) ≠ 0 → executed mod quantum = 0)
}.


(** The three assignments of FIFO and SJF to the process that runs at
    [current_time]. *)
Definition run_whole (current_time : Z) (p : Process) : Process :=
  set_completion_time (current_time + burst_time p)
    (set_first_run current_time
       (set_response_time (current_time - arrival_time p) p)).

(** A process executed in one piece, from its first run on. *)
Definition one_piece (p : Process) : Prop :=
  completion_time p = first_run p + burst_time p
  ∧ response_time p = first_run p - arrival_time p.

(** The execution time that SJF still owes to the process at index [i]. *)
Definition sjf_left (ps0 : list Process) (remaining : list nat) (i : nat)
    : Z :=
  if decide (i ∈ remaining) then burst_time (ps0 !!! i) else 0.

(** The execution time that FIFO still owes to the process at index [i] of
    the sorted list, after the first [k] processes have run. *)
Definition fifo_left (sorted : list Process) (k i : nat) : Z :=
  if decide (i < k)%nat then 0 else burst_time (sorted !!! i).

(** SJF, on the processes that have run: each one was a shortest job among
    those that had arrived and not yet run, and the first such in the
    process list. *)
Definition sjf_ordered (procs : list Process) (remaining : list nat)
    : Prop :=
  ∀ i j, (i < length procs)%nat → (j < length procs)%nat →
    i ∉ remaining → j ≠ i →
    arrival_time (procs !!! j) ≤ first_run (procs !!! i) →
    j ∈ remaining ∨ first_run (procs !!! i) < first_run (procs !!! j) →
    burst_time (procs !!! i) ≤ burst_time (procs !!! j)
    ∧ (burst_time (procs !!! i) = burst_time (procs !!! j) → (i < j)%nat).


(** The process [p] after one unit of STCF execution at [current_time]:
    first-run bookkeeping, one unit less to do, and the completion time
    when nothing is left. *)
Definition stcf_dispatched (current_time : Z) (p : Process) : Process :=
  let p :=
    if decide (first_run p = -1)
    then set_response_time (current_time - arrival_time p)
           (set_first_run current_time p)
    else p in
  let p := set_remaining_time (remaining_time p - 1) p in
  if decide (remaining_time p = 0)
  then set_completion_time (current_time + 1) p else p.

(** The end of a schedule that is idle just before [a] and busy from [a]
    on: [a] plus the work of the processes that arrive at [a] or later. *)
Definition span_from (a : Z) (ps : list Process) : Z :=
  a + total (λ p, if decide (a ≤ arrival_time p) then burst_time p else 0) ps.

(** The latest such end, over [a = 0] and the arrival times: where any
    schedule ends that never idles while a process is waiting. *)
Definition busy_span (ps : list Process) : Z :=
  foldr Z.max (span_from 0 ps) ((λ p, span_from (arrival_time p) ps) <$> ps).

(** Time executed so far by the processes that arrive at [a] or later. *)
Definition exec_from (a : Z) (ps0 : list Process) (owed : nat → Z) : Z :=
  sum_over (λ i, if decide (a ≤ arrival_time (ps0 !!! i))
                 then burst_time (ps0 !!! i) - owed i else 0)
           (seq 0 (length ps0)).

(** The clock [t] against the work done: the current busy period began at
    some [a], when everything that had arrived was finished, and the
    processor has been busy since; no process has run before it arrived. *)
Record run_period (ps0 : list Process) (owed : nat → Z) (t : Z) : Prop := {
  per_start : ∃ a, 0 ≤ a ≤ t
    ∧ (a = 0 ∨ ∃ i, (i < length ps0)%nat ∧ a ≤ arrival_time (ps0 !!! i))
    ∧ (∀ i, (i < length ps0)%nat → arrival_time (ps0 !!! i) < a →
            owed i = 0)
    ∧ t = a + exec_from a ps0 owed;
  per_lower : ∀ a, a + exec_from a ps0 owed ≤ Z.max a t;
  per_future : ∀ i, (i < length ps0)%nat → t < arrival_time (ps0 !!! i) →
    owed i = burst_time (ps0 !!! i)
}.

(** Between [lo] and [hi] nothing is there to run: each process has
    completed by [lo] or arrives at [hi] or later. *)
Definition idle_at (ps0 procs : list Process) (lo hi : Z) : Prop :=
  ∀ i, (i < length ps0)%nat →
    (remaining_time (procs !!! i) = 0 ∧ completion_time (procs !!! i) ≤ lo)
    ∨ hi ≤ arrival_time (ps0 !!! i).

(** The gaps of the two preemptive policies in the middle of a run, at the
    clock value [t]: a completed process completed within the timeline;
    every gap of the timeline is idle time and closes at an arrival; and
    so far so is the time since the end of the timeline. *)
Record run_gaps (ps0 procs : list Process) (t : Z)
    (tl : list TimelineEntry) : Prop := {
  gap_done : ∀ i, (i < length ps0)%nat → remaining_time (procs !!! i) = 0 →
    completion_time (procs !!! i) ≤ tl_end_of 0 tl;
  gap_closed :
    Forall (λ g, idle_at ps0 procs g.1 g.2
                 ∧ ∃ i, (i < length ps0)%nat ∧ arrival_time (ps0 !!! i) = g.2)
           (tl_gaps 0 tl);
  gap_open : tl_end_of 0 tl < t → idle_at ps0 procs (tl_end_of 0 tl) t
}.

(** Round Robin: the slices recorded so far, and the last one when its
    process is not finished: a full quantum that ends now. *)
Record rr_unmerged (ps0 : list Process) (quantum : Z) (st : RRState)
    : Prop := {
  rr_slices_ok : tl_slices quantum (rr_timeline st);
  rr_last_slice : ∀ e i, last (rr_timeline st) = Some e →
    (i < length ps0)%nat → tl_label e = plabel (ps0 !!! i) →
    remaining_time (rr_procs st !!! i) > 0 →
    tl_end e - tl_start e = quantum ∧ tl_end e = rr_time st
    ∧ arrival_time (ps0 !!! i) ≤ rr_time st
}.

(** ** Basic facts *)

Section while_rules.
Context {S : Type} (cond : S → bool) (body : S → outcome S).

Lemma while_fuel_mono fuel fuel' st r :
  while cond body fuel st = Ok r → (fuel ≤ fuel')%nat →
  while cond body fuel' st = Ok r.
Proof.
  revert fuel' st. induction fuel as [|f IH]; intros [|f'] st; simpl;
    destruct (cond st); try done; try lia.
  destruct (body st); try done. intros. apply IH; [done|lia].
Qed.

(** Total correctness: an invariant and a decreasing measure. *)
Lemma while_total (I : S → Prop) (m : S → nat) :
  (∀ st, I st → cond st = true →
     ∃ st', body st = Ok st' ∧ I st' ∧ (m st' < m st)%nat) →
  ∀ fuel st, I st → (m st ≤ fuel)%nat →
    ∃ st', while cond body fuel st = Ok st' ∧ I st' ∧ cond st' = false.
Proof.
  intros Hstep. induction fuel as [|f IH]; intros st HI Hm; simpl.
  - destruct (cond st) eqn:Hc; [|by eauto].
    destruct (Hstep st HI Hc) as (? & _ & _ & ?). lia.
  - destruct (cond st) eqn:Hc; [|by eauto].
    destruct (Hstep st HI Hc) as (st' & -> & HI' & Hlt).
    apply IH; [done|lia].
Qed.

(** Partial correctness: whatever the loop returns satisfies the
    invariant and falsifies the condition. *)
Lemma while_partial (I : S → Prop) :
  (∀ st st', I st → cond st = true → body st = Ok st' → I st') →
  ∀ fuel st st', I st → while cond body fuel st = Ok st' →
    I st' ∧ cond st' = false.
Proof.
  intros Hstep. induction fuel as [|f IH]; intros st st' HI; simpl.
  - destruct (cond st) eqn:Hc; [done|]. by intros [= <-].
  - destruct (cond st) eqn:Hc; [|by intros [= <-]].
    destruct (body st) as [st1| |] eqn:Hb; try done.
    intros. eapply IH; [|done]. eauto.
Qed.
End while_rules.

Lemma obind_Ok {A B} (m : outcome A) (k : A → outcome B) r :
  obind m k = Ok r ↔ ∃ a, m = Ok a ∧ k a = Ok r.
Proof.
  destruct m; simpl; split; try (by intros (? & ? & ?)); try done.
  - eauto.
  - by intros (? & [= <-] & ?).
Qed.

Lemma run_fuel_mono pol fuel fuel' s r :
  run pol fuel s = Ok r → (fuel ≤ fuel')%nat → run pol fuel' s = Ok r.
Proof.
  intros H Hle. destruct pol; simpl in *; [done|..];
    unfold sjf_schedule, stcf_schedule, rr_schedule in *; simpl in *;
    try destruct (rr_initial _);
    apply obind_Ok in H as (st & Hw & Hf);
    by rewrite (while_fuel_mono _ _ _ _ _ _ Hw Hle).
Qed.

Lemma returns_deterministic pol s r1 r2 :
  returns pol s r1 → returns pol s r2 → r1 = r2.
Proof.
  intros [f1 H1] [f2 H2].
  apply (run_fuel_mono _ _ (f1 `max` f2)%nat) in H1; [|lia].
  apply (run_fuel_mono _ _ (f1 `max` f2)%nat) in H2; [|lia].
  congruence.
Qed.

(** [run] is [reset_processes], the simulation, then [print_results]. *)
Lemma run_simulate pol fuel s :
  run pol fuel s
  = (let* s' := simulate pol fuel (reset_processes s) in
     let* avg := print_results s' in Ok (s', avg)).
Proof.
  destruct pol as [| | |quantum]; simpl.
  - unfold fifo_schedule. by destruct (fifo_loop _ _ _) as [[ps t] tl].
  - unfold sjf_schedule. by destruct (while _ _ _ _).
  - unfold stcf_schedule. by destruct (while _ _ _ _).
  - unfold rr_schedule. destruct (rr_initial _) as [queue in_queue].
    by destruct (while _ _ _ _).
Qed.

Lemma simulate_fuel_mono pol fuel fuel' s s' :
  (fuel ≤ fuel')%nat → simulate pol fuel s = Ok s' →
  simulate pol fuel' s = Ok s'.
Proof.
  intros Hle. destruct pol as [| | |quantum]; simpl; [done|..].
  - destruct (while _ _ fuel _) as [st| |] eqn:Hw; try done.
    by rewrite (while_fuel_mono _ _ _ _ _ _ Hw Hle).
  - destruct (while _ _ fuel _) as [st| |] eqn:Hw; try done.
    by rewrite (while_fuel_mono _ _ _ _ _ _ Hw Hle).
  - destruct (rr_initial _) as [queue in_queue].
    destruct (while _ _ fuel _) as [st| |] eqn:Hw; try done.
    by rewrite (while_fuel_mono _ _ _ _ _ _ Hw Hle).
Qed.

Lemma completes_deterministic pol s s1 s2 :
  completes pol s s1 → completes pol s s2 → s1 = s2.
Proof.
  intros [f1 H1] [f2 H2].
  apply (simulate_fuel_mono _ _ (f1 `max` f2)%nat) in H1; [|lia].
  apply (simulate_fuel_mono _ _ (f1 `max` f2)%nat) in H2; [|lia].
  congruence.
Qed.

(** A run that returns has completed, with the state it returns. *)
Lemma run_completes pol fuel s r :
  run pol fuel s = Ok r →
  simulate pol fuel (reset_processes s) = Ok r.1
  ∧ print_results r.1 = Ok r.2.
Proof.
  rewrite run_simulate.
  destruct (simulate _ _ _) as [s'| |]; simpl; try done.
  destruct (print_results s') as [avg| |] eqn:Havg; simpl; try done.
  by intros [= <-].
Qed.

Lemma returns_completes pol s r : returns pol s r → completes pol s r.1.
Proof. intros [fuel Hr]. exists fuel. by apply run_completes in Hr as [? _]. Qed.

Lemma fifo_completes s ps t tl :
  fifo_loop (sort_by_arrival (processes (reset_processes s))) 0
    (timeline (reset_processes s)) = (ps, t, tl) →
  completes FIFO s (calculate_metrics (mkSim (original_processes s) ps tl)).
Proof. intros H. exists 0%nat. unfold simulate. by rewrite H. Qed.

(** *** Totals *)

Lemma foldl_total_acc (f : Process → Z) ps a :
  foldl (λ acc p, acc + f p) a ps = a + total f ps.
Proof.
  unfold total. revert a. induction ps as [|p ps IH]; intros a; simpl; [lia|].
  rewrite (IH (a + f p)), (IH (0 + f p)). lia.
Qed.

Lemma total_cons f p ps : total f (p :: ps) = f p + total f ps.
Proof. unfold total at 1. simpl. by rewrite foldl_total_acc. Qed.

Lemma total_app f ps qs : total f (ps ++ qs) = total f ps + total f qs.
Proof.
  induction ps as [|p ps IH]; simpl; [done|]. rewrite !total_cons, IH. lia.
Qed.

Lemma total_insert f ps i q :
  (i < length ps)%nat →
  total f (<[i := q]> ps) = total f ps - f (ps !!! i) + f q.
Proof.
  revert i. induction ps as [|p ps IH]; intros [|i] Hi; simpl in *; try lia.
  - rewrite !total_cons. lia.
  - rewrite !total_cons, IH by lia. change ((p :: ps) !!! S i) with (ps !!! i). lia.
Qed.

Lemma total_ext f g ps :
  Forall (λ p, f p = g p) ps → total f ps = total g ps.
Proof.
  induction 1 as [|p ps Hp _ IH]; [done|]. rewrite !total_cons. lia.
Qed.

Lemma spec_of_eq p q :
  spec_of p = spec_of q ↔
  pid p = pid q ∧ arrival_time p = arrival_time q ∧ burst_time p = burst_time q.
Proof. unfold spec_of. split; [by intros [= -> -> ->]|by intros (-> & -> & ->)]. Qed.

Lemma spec_of_cons_inv p ps q qs :
  spec_of <$> p :: ps = spec_of <$> q :: qs →
  spec_of p = spec_of q ∧ spec_of <$> ps = spec_of <$> qs.
Proof. rewrite !fmap_cons. intros H. by apply (inj2 cons) in H. Qed.

Lemma total_spec_of f g ps qs :
  (∀ p q, spec_of p = spec_of q → f p = g q) →
  spec_of <$> ps = spec_of <$> qs → total f ps = total g qs.
Proof.
  intros Hfg. revert qs.
  induction ps as [|p ps IH]; intros [|q qs] H; try done.
  apply spec_of_cons_inv in H as [Hpq Hrest].
  rewrite !total_cons. by rewrite (IH qs), (Hfg p q).
Qed.

Lemma total_Permutation f ps qs : ps ≡ₚ qs → total f ps = total f qs.
Proof.
  induction 1; rewrite ?total_cons; lia.
Qed.

(** *** Labels *)

Lemma plabel_inj p q : plabel p = plabel q → pid p = pid q.
Proof.
  unfold plabel. intros H. apply (inj pretty). by apply (inj (String.app "P")).
Qed.

Lemma plabel_not_IDLE p : plabel p ≠ IDLE.
Proof. done. Qed.

Lemma plabel_spec_of p q : spec_of p = spec_of q → plabel p = plabel q.
Proof. unfold spec_of, plabel. by intros [= -> _ _]. Qed.

Lemma NoDup_plabel ps : NoDup (pid <$> ps) → NoDup (plabel <$> ps).
Proof.
  intros H.
  assert (Inj (=) (=) (λ z : Z, "P" +:+ pretty z)) as Hinj.
  { intros a b Hab. apply (inj pretty). by apply (inj (String.app "P")). }
  change plabel with ((λ z : Z, "P" +:+ pretty z) ∘ pid).
  rewrite list_fmap_compose. by apply (NoDup_fmap_2 _).
Qed.

(** Under unique pids an index is determined by its pid. *)
Lemma NoDup_pid_index (ps : list Process) i j :
  NoDup (pid <$> ps) → (i < length ps)%nat → (j < length ps)%nat →
  pid (ps !!! i) = pid (ps !!! j) → i = j.
Proof.
  intros Hnd Hi Hj Heq.
  eapply NoDup_lookup; [exact Hnd|..]; rewrite list_lookup_fmap.
  - rewrite (list_lookup_lookup_total_lt ps i Hi). done.
  - rewrite (list_lookup_lookup_total_lt ps j Hj). simpl. by rewrite Heq.
Qed.

(** *** Timeline shapes, seen from the end where entries are appended *)

Lemma tl_end_of_snoc lo tl e : tl_end_of lo (tl ++ [e]) = tl_end e.
Proof. unfold tl_end_of. by rewrite last_snoc. Qed.

Lemma tl_end_of_cons lo e tl : tl_end_of lo (e :: tl) = tl_end_of (tl_end e) tl.
Proof.
  unfold tl_end_of. destruct tl as [|e' tl]; [done|].
  rewrite last_cons_cons. by destruct (last (e' :: tl)) eqn:H; [|apply last_None in H].
Qed.

Lemma tl_chain_snoc R lo tl e :
  tl_chain R lo (tl ++ [e]) ↔
  tl_chain R lo tl ∧ R (tl_end_of lo tl) (tl_start e) ∧ tl_start e < tl_end e.
Proof.
  revert lo. induction tl as [|e' tl IH]; intros lo; simpl.
  - unfold tl_end_of; simpl. tauto.
  - rewrite IH, tl_end_of_cons. tauto.
Qed.

Lemma tl_chain_impl (R R' : Z → Z → Prop) lo tl :
  (∀ a b, R a b → R' a b) → tl_chain R lo tl → tl_chain R' lo tl.
Proof.
  intros HR. revert lo. induction tl as [|e tl IH]; simpl; [done|].
  intros lo (? & ? & ?). eauto.
Qed.

Lemma tl_gap_free_ordered lo tl : tl_gap_free lo tl → tl_ordered lo tl.
Proof. apply tl_chain_impl. intros a b ->. reflexivity. Qed.

Lemma tl_merged_snoc tl e :
  tl_merged (tl ++ [e]) ↔
  tl_merged tl ∧ (∀ e', last tl = Some e' → tl_label e' ≠ tl_label e).
Proof.
  induction tl as [|e1 tl IH]; simpl.
  - naive_solver.
  - destruct tl as [|e2 tl]; simpl in *.
    + split; [intros [? _]|intros [_ H]]; [|by eauto].
      split; [done|]. by intros ? [= <-].
    + rewrite IH. tauto.
Qed.

Lemma busy_snoc tl e :
  busy (tl ++ [e]) =
  busy tl + (if decide (tl_label e = IDLE) then 0 else tl_end e - tl_start e).
Proof.
  unfold busy. induction tl as [|e' tl IH]; simpl; [lia|]. rewrite IH. lia.
Qed.

Lemma busy_snoc_run tl p s e :
  busy (tl ++ [(plabel p, s, e)]) = busy tl + (e - s).
Proof.
  rewrite busy_snoc. case_decide as Hl; [by destruct (plabel_not_IDLE p)|done].
Qed.

Lemma busy_snoc_idle tl s e : busy (tl ++ [(IDLE, s, e)]) = busy tl.
Proof. rewrite busy_snoc. simpl. lia. Qed.

(** The in-place update of the last entry, [timeline[-1] = ...]. *)
Lemma insert_last {A} (l : list A) x y :
  <[pred (length (l ++ [x])) := y]> (l ++ [x]) = l ++ [y].
Proof.
  rewrite length_app; simpl.
  replace (pred (length l + 1)) with (length l + 0)%nat by lia.
  by rewrite insert_app_r.
Qed.

(** *** The stable sort *)

Lemma insert_by_arrival_perm p l : insert_by_arrival p l ≡ₚ p :: l.
Proof.
  induction l as [|q l IH]; simpl; [done|].
  case_decide; [done|]. rewrite IH. apply Permutation_swap.
Qed.

Lemma sort_by_arrival_perm l : sort_by_arrival l ≡ₚ l.
Proof.
  induction l as [|p l IH]; simpl; [done|].
  by rewrite insert_by_arrival_perm, IH.
Qed.

Lemma insert_by_arrival_sorted p l :
  StronglySorted by_arrival l → StronglySorted by_arrival (insert_by_arrival p l).
Proof.
  induction 1 as [|q l Hs IH Hq]; simpl.
  - repeat constructor.
  - case_decide as Hle.
    + constructor; [by constructor|]. constructor; [done|].
      eapply Forall_impl; [exact Hq|]. unfold by_arrival. intros; lia.
    + constructor; [done|]. rewrite insert_by_arrival_perm.
      constructor; [unfold by_arrival; lia|done].
Qed.

Lemma sort_by_arrival_sorted l : StronglySorted by_arrival (sort_by_arrival l).
Proof.
  induction l as [|p l IH]; simpl; [constructor|].
  by apply insert_by_arrival_sorted.
Qed.

(** Stability: the processes of any one arrival time keep their order. *)
Lemma insert_by_arrival_stable p l k :
  filter (λ q, arrival_time q = k) (insert_by_arrival p l) =
  filter (λ q, arrival_time q = k) (p :: l).
Proof.
  induction l as [|q l IH]; simpl; [done|].
  case_decide as Hle; [done|].
  rewrite (filter_cons _ q), IH, !(filter_cons _ p), !(filter_cons _ q).
  repeat case_decide; try done; lia.
Qed.

Lemma sort_by_arrival_stable l k :
  filter (λ q, arrival_time q = k) (sort_by_arrival l) =
  filter (λ q, arrival_time q = k) l.
Proof.
  induction l as [|p l IH]; simpl; [done|].
  by rewrite insert_by_arrival_stable, !filter_cons, IH.
Qed.

(** Sortedness and stability determine the result: whatever stable sort
    [list.sort] runs, it returns what [sort_by_arrival] returns. *)
Lemma sorted_stable_unique (l1 l2 : list Process) :
  StronglySorted by_arrival l1 → StronglySorted by_arrival l2 →
  (∀ k, filter (λ q, arrival_time q = k) l1
        = filter (λ q, arrival_time q = k) l2) →
  l1 = l2.
Proof.
  revert l2. induction l1 as [|x l1 IH]; intros [|y l2] Hs1 Hs2 Hf; [done|..].
  - specialize (Hf (arrival_time y)). by rewrite filter_cons_True in Hf.
  - specialize (Hf (arrival_time x)). by rewrite filter_cons_True in Hf.
  - apply StronglySorted_cons in Hs1 as [Hx Hs1].
    apply StronglySorted_cons in Hs2 as [Hy Hs2].
    rewrite Forall_forall in Hx, Hy.
    assert (arrival_time x = arrival_time y) as Hxy.
    { assert (x ∈ y :: l2) as Hx2.
      { pose proof (Hf (arrival_time x)) as H.
        rewrite filter_cons_True in H by done.
        assert (x ∈ filter (λ q, arrival_time q = arrival_time x) (y :: l2))
          as Hin by (rewrite <-H; left).
        by apply list_elem_of_filter in Hin as [_ ?]. }
      assert (y ∈ x :: l1) as Hy1.
      { pose proof (Hf (arrival_time y)) as H.
        rewrite (filter_cons_True _ y) in H by done.
        assert (y ∈ filter (λ q, arrival_time q = arrival_time y) (x :: l1))
          as Hin by (rewrite H; left).
        by apply list_elem_of_filter in Hin as [_ ?]. }
      apply elem_of_cons in Hx2 as [->|Hx2]; [done|].
      apply elem_of_cons in Hy1 as [->|Hy1]; [done|].
      specialize (Hx y Hy1). specialize (Hy x Hx2).
      unfold by_arrival in *. lia. }
    pose proof (Hf (arrival_time x)) as Hhead.
    rewrite filter_cons_True, (filter_cons_True _ y) in Hhead by done.
    injection Hhead as <- Htail. f_equal. apply IH; [done|done|].
    intros k. destruct (decide (arrival_time x = k)) as [<-|Hk]; [done|].
    specialize (Hf k). by rewrite !filter_cons_False in Hf.
Qed.

Lemma sort_by_arrival_unique (l l' : list Process) :
  StronglySorted by_arrival l' →
  (∀ k, filter (λ q, arrival_time q = k) l'
        = filter (λ q, arrival_time q = k) l) →
  l' = sort_by_arrival l.
Proof.
  intros Hs Hf. apply sorted_stable_unique;
    [done|apply sort_by_arrival_sorted|].
  intros k. by rewrite sort_by_arrival_stable.
Qed.

(** *** Metrics and averages *)

Lemma metrics_of_final_ok p : done_ok p → final_ok (metrics_of p).
Proof. unfold final_ok, done_ok, metrics_of; simpl. tauto. Qed.

(** ** Floats: rounding *)















(** *** True division *)

Lemma true_div_zero a : true_div a 0 = Raise ZeroDivisionError.
Proof. done. Qed.

(** A division raises nothing but the two errors, and the first one only
    on a zero divisor. *)
Lemma true_div_cases a b :
  b ≠ 0 →
  true_div a b = Raise OverflowError ∨ ∃ q, true_div a b = Ok q.
Proof.
  intros Hb. unfold true_div. rewrite decide_False by done.
  case_decide; eauto.
Qed.












(** On a non-empty list [print_results] returns, or raises
    [OverflowError]. *)
Lemma print_results_cases s :
  processes s ≠ [] →
  print_results s = Raise OverflowError ∨ ∃ avg, print_results s = Ok avg.
Proof.
  intros Hne. unfold print_results.
  assert (Z.of_nat (length (processes s)) ≠ 0) as Hn
    by (destruct (processes s); [done|simpl; lia]).
  destruct (true_div_cases (total turnaround_time (processes s)) _ Hn)
    as [->|[a1 ->]]; [by left|]. simpl.
  destruct (true_div_cases (total waiting_time (processes s)) _ Hn)
    as [->|[a2 ->]]; [by left|]. simpl.
  destruct (true_div_cases (total response_time (processes s)) _ Hn)
    as [->|[a3 ->]]; [by left|]. simpl. eauto.
Qed.


Lemma print_results_empty s :
  processes s = [] → print_results s = Raise ZeroDivisionError.
Proof. intros H. unfold print_results. by rewrite H. Qed.

(** What a call does once its simulation is complete. *)
Lemma completes_run pol s s' :
  completes pol s s' → processes s' ≠ [] →
  ∃ fuel, run pol fuel s = Raise OverflowError
          ∨ ∃ avg, run pol fuel s = Ok (s', avg).
Proof.
  intros [fuel Hs] Hne. exists fuel. rewrite run_simulate, Hs. simpl.
  destruct (print_results_cases s' Hne) as [->|[avg ->]]; simpl; eauto.
Qed.

Lemma makespan_fmap_metrics ps : makespan (metrics_of <$> ps) = makespan ps.
Proof.
  unfold makespan. rewrite <-list_fmap_compose. done.
Qed.

Lemma makespan_max ps t :
  0 ≤ t → Forall (λ p, completion_time p ≤ t) ps →
  (∃ p, p ∈ ps ∧ completion_time p = t) → makespan ps = t.
Proof.
  unfold makespan. intros Ht Hall (p & Hp & Hpt).
  induction Hall as [|q ps Hq Hall IH]; [by apply elem_of_nil in Hp|].
  csimpl. apply elem_of_cons in Hp as [->|Hp].
  - assert (foldr Z.max 0 (completion_time <$> ps) ≤ Z.max 0 t); [|lia].
    clear -Hall. induction Hall; csimpl; lia.
  - rewrite IH by done. lia.
Qed.

(** ** FIFO *)

Section fifo.

(** One pass of the loop over any suffix [todo] of the sorted list, from
    any clock value and timeline that the passes before it can leave. *)
Lemma fifo_loop_spec todo : ∀ t tl ps' t' tl',
  fifo_loop todo t tl = (ps', t', tl') →
  Forall valid_process todo → NoDup (plabel <$> todo) →
  0 ≤ t → tl_gap_free 0 tl → tl_end_of 0 tl = t → tl_merged tl →
  (∀ e, last tl = Some e → tl_label e ≠ IDLE) →
  Forall (λ e, tl_label e ∉ plabel <$> todo) tl →
  spec_of <$> ps' = spec_of <$> todo
  ∧ Forall done_ok ps'
  ∧ Forall (λ p, completion_time p ≤ t') ps'
  ∧ t ≤ t'
  ∧ (todo ≠ [] → ∃ p, p ∈ ps' ∧ completion_time p = t')
  ∧ tl_gap_free 0 tl' ∧ tl_end_of 0 tl' = t' ∧ tl_merged tl'
  ∧ busy tl' = busy tl + total burst_time todo.
Proof.
  induction todo as [|p rest IH]; intros t tl ps' t' tl' Hrun Hv Hnd Ht Hgf Hend Hm Hlast Hfresh.
  { simpl in Hrun. injection Hrun as <- <- <-.
    repeat split; try done; try lia. unfold total; simpl; lia. }
  simpl in Hrun.
  apply Forall_cons in Hv as [[Hpa Hpb] Hv].
  rewrite fmap_cons in Hnd. apply NoDup_cons in Hnd as [Hp_rest Hnd].
  (* the clock and timeline after the optional idle entry *)
  set (t1 := if decide (t < arrival_time p) then arrival_time p else t) in *.
  set (tl1 := if decide (t < arrival_time p)
              then tl ++ [(IDLE, t, arrival_time p)] else tl) in *.
  assert ((if decide (t < arrival_time p)
           then (arrival_time p, tl ++ [(IDLE, t, arrival_time p)])
           else (t, tl)) = (t1, tl1)) as Heq
    by (unfold t1, tl1; by case_decide).
  rewrite Heq in Hrun. clear Heq.
  set (p' := set_completion_time _ _) in *.
  destruct (fifo_loop rest _ _) as [[rest' t''] tl''] eqn:Hrest.
  injection Hrun as <- <- <-.
  assert (arrival_time p ≤ t1 ∧ t ≤ t1) as [Ht1 Ht1']
    by (unfold t1; case_decide; lia).
  assert (tl_gap_free 0 tl1 ∧ tl_end_of 0 tl1 = t1 ∧ tl_merged tl1
          ∧ busy tl1 = busy tl
          ∧ Forall (λ e, tl_label e ∉ plabel <$> p :: rest) tl1)
    as (Hgf1 & Hend1 & Hm1 & Hb1 & Hfresh1).
  { unfold tl1, t1. case_decide as Hidle; [|done].
    split_and!.
    - apply tl_chain_snoc. simpl. rewrite Hend. unfold tl_start, tl_end; simpl.
      split_and!; [done|done|lia].
    - by rewrite tl_end_of_snoc.
    - apply tl_merged_snoc. split; [done|]. intros e He. by apply Hlast.
    - by rewrite busy_snoc_idle.
    - apply Forall_app. split; [done|]. constructor; [|done].
      cbv beta. intros (q & Hq & _)%list_elem_of_fmap.
      by apply (plabel_not_IDLE q). }
  pose proof Hrest as Hrest0.
  apply IH in Hrest as (Hspec & Hdone & Hcomp & Htt & Hex & Hgf' & Hend' & Hm' & Hb'); clear IH; try done.
  - split_and!; try done.
    + rewrite !fmap_cons, Hspec. done.
    + constructor; [|done]. unfold done_ok, p'; simpl. lia.
    + constructor; [|done]. unfold p'; simpl. lia.
    + lia.
    + intros _. destruct rest as [|q rest].
      * exists p'. simpl in Hrest0. injection Hrest0 as <- <- <-.
        split; [left|done].
      * destruct Hex as (p0 & Hp0 & Hc0); [done|].
        exists p0. split; [by right|done].
    + rewrite Hb', busy_snoc_run, Hb1, total_cons. lia.
  - lia.
  - apply tl_chain_snoc. split; [done|]. rewrite Hend1.
    unfold tl_start, tl_end; simpl. lia.
  - by rewrite tl_end_of_snoc.
  - apply tl_merged_snoc. split; [done|]. intros e He. simpl.
    apply last_Some_elem_of in He.
    rewrite Forall_forall in Hfresh1. specialize (Hfresh1 e He).
    intros Heq. apply Hfresh1. rewrite Heq. left.
  - intros e. rewrite last_snoc. intros [= <-]. apply plabel_not_IDLE.
  - apply Forall_app. split.
    + eapply Forall_impl; [exact Hfresh1|]. simpl. intros e He He'. apply He. by right.
    + constructor; [|done]. simpl. exact Hp_rest.
Qed.

Lemma insert_by_arrival_spec_of p q l l' :
  spec_of p = spec_of q → spec_of <$> l = spec_of <$> l' →
  spec_of <$> insert_by_arrival p l = spec_of <$> insert_by_arrival q l'.
Proof.
  intros Hpq. revert l'.
  induction l as [|a l IH]; intros [|b l'] Hl; try done.
  - csimpl. by rewrite Hpq.
  - apply spec_of_cons_inv in Hl as [Hab Hl]. simpl.
    apply spec_of_eq in Hpq as Hpq'. apply spec_of_eq in Hab as Hab'.
    destruct Hpq' as (_ & -> & _), Hab' as (_ & -> & _).
    case_decide; rewrite !fmap_cons.
    + by rewrite Hpq, Hab, Hl.
    + by rewrite Hab, (IH l').
Qed.

Lemma sort_by_arrival_spec_of l l' :
  spec_of <$> l = spec_of <$> l' →
  spec_of <$> sort_by_arrival l = spec_of <$> sort_by_arrival l'.
Proof.
  revert l'. induction l as [|p l IH]; intros [|q l'] Hl; try done.
  apply spec_of_cons_inv in Hl as [Hpq Hl]. simpl.
  apply insert_by_arrival_spec_of; [done|by apply IH].
Qed.

End fifo.

(** ** What a run on valid input guarantees *)

Lemma reset_processes_spec_of s :
  spec_of <$> processes (reset_processes s) = spec_of <$> original_processes s.
Proof. simpl. rewrite <-list_fmap_compose. done. Qed.

Lemma valid_input_spec_of ps qs :
  spec_of <$> ps = spec_of <$> qs → valid_input qs → valid_input ps.
Proof.
  intros Heq [Hnd Hv]. split.
  - assert (pid <$> ps = pid <$> qs) as ->; [|done].
    change pid with ((λ x : Z * Z * Z, x.1.1) ∘ spec_of).
    by rewrite !(list_fmap_compose spec_of), Heq.
  - clear Hnd. revert ps Heq.
    induction Hv as [|q qs Hq Hv IH]; intros [|p ps] Heq; try done.
    apply spec_of_cons_inv in Heq as [(_ & Ha & Hb)%spec_of_eq Heq].
    constructor; [|by apply IH].
    unfold valid_process in *. by rewrite Ha, Hb.
Qed.

Lemma valid_input_Permutation ps qs :
  ps ≡ₚ qs → valid_input ps → valid_input qs.
Proof.
  intros Hp [Hnd Hv]. split; [by rewrite <-Hp|by rewrite <-Hp].
Qed.

(** The common tail of the four policies: metrics, then averages. *)
Lemma finish_run pol s ps tl :
  ps ≠ [] →
  spec_of <$> ps = spec_of <$> policy_order pol (original_processes s) →
  Forall done_ok ps → tl_ordered 0 tl →
  busy tl = total burst_time (original_processes s) →
  let s' := calculate_metrics (mkSim (original_processes s) ps tl) in
  run_common pol s s' ∧ timeline s' = tl
  ∧ makespan (processes s') = makespan ps.
Proof.
  intros Hne Hspec Hdone Hord Hbusy.
  unfold calculate_metrics, run_common; simpl.
  split_and!; try done.
  - by rewrite <-list_fmap_compose.
  - rewrite Forall_fmap. eapply Forall_impl; [exact Hdone|].
    apply metrics_of_final_ok.
  - apply makespan_fmap_metrics.
Qed.

Lemma spec_of_length ps qs :
  spec_of <$> ps = spec_of <$> qs → length ps = length qs.
Proof. intros H%(f_equal length). by rewrite !length_fmap in H. Qed.

Lemma fifo_run s :
  valid_input (original_processes s) → original_processes s ≠ [] →
  ∃ s', completes FIFO s s' ∧ run_common FIFO s s' ∧ run_end s'
        ∧ run_shape FIFO s'.
Proof.
  intros Hvalid Hne.
  set (s0 := reset_processes s).
  pose proof (reset_processes_spec_of s) as Hspec0. fold s0 in Hspec0.
  destruct (fifo_loop (sort_by_arrival (processes s0)) 0 (timeline s0))
    as [[ps t'] tl] eqn:Hloop.
  pose proof Hloop as Hsim.
  assert (valid_input (sort_by_arrival (processes s0))) as [Hnd Hv].
  { eapply valid_input_Permutation; [symmetry; apply sort_by_arrival_perm|].
    by eapply valid_input_spec_of. }
  apply fifo_loop_spec in Hloop
    as (Hspec & Hdone & Hcomp & Ht & Hex & Hgf & Hend & Hm & Hb);
    try done; [|by apply NoDup_plabel].
  assert (sort_by_arrival (processes s0) ≠ []) as Hsne.
  { intros Hnil. apply (f_equal length) in Hnil.
    rewrite sort_by_arrival_perm, (spec_of_length _ _ Hspec0) in Hnil.
    by destruct (original_processes s). }
  assert (ps ≠ []) as Hps.
  { intros ->. apply spec_of_length in Hspec.
    by destruct (sort_by_arrival (processes s0)). }
  destruct (finish_run FIFO s ps tl) as (Hcommon & Htl & Hmk);
    try done.
  - rewrite Hspec. by apply sort_by_arrival_spec_of.
  - by apply tl_gap_free_ordered.
  - rewrite Hb. unfold busy at 1; simpl.
    rewrite (total_Permutation _ _ _ (sort_by_arrival_perm _)).
    apply total_spec_of; [|done]. by intros ?? (_ & _ & ?)%spec_of_eq.
  - exists (calculate_metrics (mkSim (original_processes s) ps tl)).
    split; [exists 0%nat; unfold simulate; fold s0; by rewrite Hsim|].
    split; [done|]. unfold run_end.
    rewrite Htl, Hmk. split_and!; try done.
    rewrite Hend. symmetry. apply makespan_max; [lia|done|by apply Hex].
Qed.

(** ** Facts about the built-ins *)

Lemma elem_of_middle {A} (x : A) l1 l2 : x ∈ l1 ++ x :: l2.
Proof. apply elem_of_app. right. left. Qed.

Lemma elem_of_app_middle {A} (x y : A) l1 l2 :
  y ∈ l1 ++ l2 → y ∈ l1 ++ x :: l2.
Proof. rewrite !elem_of_app, elem_of_cons. tauto. Qed.

Lemma not_elem_of_app_middle {A} (x y : A) l1 l2 :
  y ∉ l1 ++ l2 → y ≠ x → y ∉ l1 ++ x :: l2.
Proof. rewrite !elem_of_app, elem_of_cons. tauto. Qed.

(** [min] returns the first minimum: an element whose key is at most every
    key, and strictly below the key of everything before it. *)
Lemma min_from_le {A} (key : A → Z) best l :
  key (min_from key best l) ≤ key best.
Proof.
  revert best. induction l as [|x l IH]; intros best; simpl; [lia|].
  case_decide; [|done]. specialize (IH x). lia.
Qed.

Lemma min_from_spec {A} (key : A → Z) best l :
  ∃ l1 l2, best :: l = l1 ++ min_from key best l :: l2
    ∧ (∀ y, y ∈ l1 → key (min_from key best l) < key y)
    ∧ (∀ y, y ∈ l2 → key (min_from key best l) ≤ key y).
Proof.
  revert best. induction l as [|x l IH]; intros best; simpl.
  - exists [], []. split; [done|]. split; intros y Hy; by apply elem_of_nil in Hy.
  - case_decide as Hlt.
    + destruct (IH x) as (l1 & l2 & Heq & H1 & H2).
      exists (best :: l1), l2. rewrite Heq. split; [done|]. split; [|done].
      intros y [->|Hy]%elem_of_cons; [|by apply H1].
      pose proof (min_from_le key x l). lia.
    + destruct (IH best) as (l1 & l2 & Heq & H1 & H2).
      destruct l1 as [|a l1]; simpl in Heq; injection Heq as Hb Hl.
      * exists [], (x :: l2). subst l2. split; [simpl; by rewrite <-Hb|].
        split; [intros y Hy; by apply elem_of_nil in Hy|].
        intros y [->|Hy]%elem_of_cons; [rewrite <-Hb; lia|]. by apply H2.
      * subst a. exists (best :: x :: l1), l2. split; [simpl; by rewrite <-Hl|].
        split; [|done].
        intros y [->|[->|Hy]%elem_of_cons]%elem_of_cons.
        -- apply H1. left.
        -- assert (key (min_from key best l) < key best); [|lia]. apply H1. left.
        -- apply H1. by right.
Qed.

Lemma py_min_spec {A} (key : A → Z) l :
  l ≠ [] →
  ∃ x l1 l2, py_min key l = Ok x ∧ l = l1 ++ x :: l2
    ∧ (∀ y, y ∈ l1 → key x < key y) ∧ (∀ y, y ∈ l2 → key x ≤ key y).
Proof.
  destruct l as [|a l]; [done|]. intros _. simpl.
  destruct (min_from_spec key a l) as (l1 & l2 & ? & ? & ?). eauto 10.
Qed.

Lemma py_min_elem {A} (key : A → Z) l x :
  py_min key l = Ok x → x ∈ l ∧ ∀ y, y ∈ l → key x ≤ key y.
Proof.
  intros H. destruct (py_min_spec key l) as (x' & l1 & l2 & H' & -> & H1 & H2).
  { by destruct l. }
  rewrite H in H'. injection H' as <-. split; [apply elem_of_middle|].
  intros y [Hy|[->|Hy]%elem_of_cons]%elem_of_app; [|lia|by apply H2].
  apply H1 in Hy. lia.
Qed.

Lemma py_remove_spec x l :
  x ∈ l →
  ∃ l1 l2, l = l1 ++ x :: l2 ∧ (x ∉ l1) ∧ py_remove x l = Ok (l1 ++ l2).
Proof.
  induction l as [|y l IH]; [by intros ?%elem_of_nil|].
  intros Hx. simpl. case_decide as Hy.
  - subst. exists [], l. split; [done|]. split; [apply not_elem_of_nil|done].
  - apply elem_of_cons in Hx as [->|Hx]; [done|].
    destruct (IH Hx) as (l1 & l2 & -> & Hnot & ->).
    exists (y :: l1), l2. split; [done|]. split; [|done].
    apply not_elem_of_cons. split; [congruence|done].
Qed.

Lemma sum_over_app f l k : sum_over f (l ++ k) = sum_over f l + sum_over f k.
Proof. induction l as [|i l IH]; simpl; [done|]. rewrite IH. lia. Qed.

Lemma sum_over_seq (f : Process → Z) ps :
  sum_over (λ i, f (ps !!! i)) (seq 0 (length ps)) = total f ps.
Proof.
  induction ps as [|p ps IH] using rev_ind; [done|].
  rewrite length_app. simpl length. rewrite Nat.add_1_r.
  rewrite seq_S, sum_over_app, total_app. simpl.
  rewrite lookup_total_app_r, Nat.sub_diag by done. simpl.
  unfold total at 2; simpl. rewrite <-IH.
  assert (∀ l, Forall (λ i, (i < length ps)%nat) l →
    sum_over (λ i, f ((ps ++ [p]) !!! i)) l = sum_over (λ i, f (ps !!! i)) l) as ->.
  { induction 1 as [|i l Hi _ IHl]; simpl; [done|].
    by rewrite IHl, lookup_total_app_l. }
  - lia.
  - apply Forall_forall. intros i Hi%elem_of_seq. lia.
Qed.

Lemma spec_of_lookup (ps qs : list Process) (i : nat) :
  spec_of <$> ps = spec_of <$> qs → spec_of (ps !!! i) = spec_of (qs !!! i).
Proof.
  intros H. apply (f_equal (.!! i)) in H. rewrite !list_lookup_fmap in H.
  rewrite !list_lookup_total_alt.
  destruct (ps !! i), (qs !! i); simpl in *; congruence.
Qed.

Lemma arrival_time_lookup (ps qs : list Process) (i : nat) :
  spec_of <$> ps = spec_of <$> qs →
  arrival_time (ps !!! i) = arrival_time (qs !!! i).
Proof. intros H%(spec_of_lookup _ _ i). by apply spec_of_eq in H as (_ & ? & _). Qed.

Lemma burst_time_lookup (ps qs : list Process) (i : nat) :
  spec_of <$> ps = spec_of <$> qs →
  burst_time (ps !!! i) = burst_time (qs !!! i).
Proof. intros H%(spec_of_lookup _ _ i). by apply spec_of_eq in H as (_ & _ & ?). Qed.

Lemma pid_lookup (ps qs : list Process) (i : nat) :
  spec_of <$> ps = spec_of <$> qs → pid (ps !!! i) = pid (qs !!! i).
Proof. intros H%(spec_of_lookup _ _ i). by apply spec_of_eq in H as (? & _ & _). Qed.

Lemma plabel_lookup (ps qs : list Process) (i : nat) :
  spec_of <$> ps = spec_of <$> qs → plabel (ps !!! i) = plabel (qs !!! i).
Proof. intros H%(spec_of_lookup _ _ i). by apply plabel_spec_of. Qed.

(** Updating a process without touching its immutable part. *)
Lemma spec_of_insert (ps : list Process) (i : nat) (p : Process) :
  spec_of p = spec_of (ps !!! i) →
  spec_of <$> <[i := p]> ps = spec_of <$> ps.
Proof.
  intros Hp. rewrite list_fmap_insert, Hp.
  destruct (decide (i < length ps)%nat) as [Hi|Hi].
  - apply list_insert_id. rewrite list_lookup_fmap.
    by rewrite (list_lookup_lookup_total_lt ps i Hi).
  - apply list_insert_ge. rewrite length_fmap. lia.
Qed.

Lemma valid_input_lookup (ps : list Process) (i : nat) :
  valid_input ps → (i < length ps)%nat → valid_process (ps !!! i).
Proof.
  intros [_ Hv] Hi. by apply Forall_lookup_total_1.
Qed.

Lemma valid_input_plabel (ps : list Process) (i j : nat) :
  valid_input ps → (i < length ps)%nat → (j < length ps)%nat →
  plabel (ps !!! i) = plabel (ps !!! j) → i = j.
Proof.
  intros [Hnd _] Hi Hj Heq%plabel_inj. by eapply NoDup_pid_index.
Qed.

Lemma StronglySorted_lt_remove (l1 l2 : list nat) (x : nat) :
  StronglySorted lt (l1 ++ x :: l2) →
  StronglySorted lt (l1 ++ l2) ∧ x ∉ l1 ++ l2.
Proof.
  rewrite !StronglySorted_app, StronglySorted_cons, Forall_forall.
  intros (H12 & H1 & Hx & H2). split_and!; try done.
  - intros a b Ha Hb. apply H12; [done|by right].
  - intros [Hin|Hin]%elem_of_app.
    + assert (x < x)%nat; [|lia]. apply H12; [done|left].
    + specialize (Hx x Hin). lia.
Qed.

Lemma StronglySorted_seq j n : StronglySorted lt (seq j n).
Proof.
  revert j. induction n as [|n IH]; intros j; simpl; constructor; [done|].
  apply Forall_forall. intros i Hi%elem_of_seq. lia.
Qed.

(** ** SJF *)

Section sjf.
Variable ps0 : list Process.
Hypothesis Hvalid : valid_input ps0.

Lemma sjf_body_step st :
  sjf_inv ps0 st → sjf_cond st = true →
  ∃ st', sjf_body st = Ok st' ∧ sjf_inv ps0 st'
         ∧ (sjf_measure st' < sjf_measure st)%nat.
Proof.
  intros [Hspec Hsorted Hbound Ht0 Hdone Hgf Hend Hm Hbusy Hfresh Hidle Hlast] Hcond.
  apply bool_decide_eq_true in Hcond.
  pose proof (spec_of_length _ _ Hspec) as Hlen.
  unfold sjf_body, sjf_measure.
  destruct st as [ps t completed remaining tl]; simpl in *.
  destruct (filter _ remaining) as [|a avail] eqn:Havail.
  - (* nothing has arrived: idle until the next arrival *)
    destruct (py_min_spec id ((λ i, arrival_time (ps !!! i)) <$> remaining))
      as (na & l1 & l2 & -> & Hna & _ & _); [by destruct remaining|].
    assert (na ∈ (λ i, arrival_time (ps !!! i)) <$> remaining) as Hin
      by (rewrite Hna; apply elem_of_middle).
    apply list_elem_of_fmap in Hin as (i0 & -> & Hi0).
    assert (∀ i, i ∈ remaining → t < arrival_time (ps !!! i)) as Hlate.
    { intros i Hi. destruct (decide (arrival_time (ps !!! i) ≤ t)) as [Hle|]; [|lia].
      assert (i ∈ filter (λ i, arrival_time (ps !!! i) ≤ t) remaining) as Hf
        by by apply list_elem_of_filter.
      rewrite Havail in Hf. by apply elem_of_nil in Hf. }
    pose proof (Hlate i0 Hi0) as Hi0t.
    simpl. eexists. split; [done|]. split.
    + constructor; simpl.
      * done.
      * done.
      * done.
      * lia.
      * intros i Hi Hni. destruct (Hdone i Hi Hni). split; [done|lia].
      * apply tl_chain_snoc. rewrite Hend. unfold tl_start, tl_end; simpl. done.
      * by rewrite tl_end_of_snoc.
      * apply tl_merged_snoc. split; [done|]. intros e He. simpl. intros Hl.
        destruct (Hidle e He Hl) as (i & Hi & Hia).
        rewrite <-(arrival_time_lookup _ _ i Hspec) in Hia.
        specialize (Hlate i Hi). lia.
      * by rewrite busy_snoc_idle.
      * intros e i [He| ->%list_elem_of_singleton]%elem_of_app Hi; [by apply Hfresh|].
        simpl. intros Heq. by destruct (plabel_not_IDLE (ps0 !!! i)).
      * intros e _ _. exists i0. split; [done|].
        by rewrite <-(arrival_time_lookup _ _ i0 Hspec).
      * done.
    + simpl. clear Havail.
      destruct (filter (λ i, arrival_time (ps !!! i) ≤ arrival_time (ps !!! i0))
                  remaining) as [|b avail'] eqn:Havail'.
      * assert (i0 ∈ filter (λ i, arrival_time (ps !!! i) ≤ arrival_time (ps !!! i0)) remaining) as Hf
          by (apply list_elem_of_filter; split; [lia|done]).
        rewrite Havail' in Hf. by apply elem_of_nil in Hf.
      * destruct remaining; [done|]. simpl. lia.
  - (* run the shortest available job to completion *)
    destruct (py_min_spec (λ i, burst_time (ps !!! i)) (a :: avail))
      as (x & l1 & l2 & -> & Hx & _ & _); [done|].
    assert (x ∈ filter (λ i, arrival_time (ps !!! i) ≤ t) remaining) as Hxin
      by (rewrite Havail, Hx; apply elem_of_middle).
    apply list_elem_of_filter in Hxin as [Hxa Hxr]. cbn [obind].
    destruct (py_remove_spec x remaining Hxr) as (r1 & r2 & Hrem & Hxr1 & ->).
    cbn [obind].
    assert (x < length ps0)%nat as Hxn by by apply Hbound.
    pose proof (valid_input_lookup ps0 x Hvalid Hxn) as [Hva Hvb].
    rewrite <-(burst_time_lookup _ _ x Hspec) in Hvb.
    rewrite Hrem in Hsorted.
    apply StronglySorted_lt_remove in Hsorted as [Hsorted' Hxnot].
    eexists. split; [done|]. split.
    + constructor; simpl.
      * by rewrite spec_of_insert.
      * done.
      * intros i Hi. apply Hbound. rewrite Hrem. by apply elem_of_app_middle.
      * lia.
      * intros i Hi Hni. destruct (decide (i = x)) as [->|Hne].
        -- rewrite list_lookup_total_insert_eq by lia.
           unfold done_ok; simpl. lia.
        -- rewrite list_lookup_total_insert_ne by done.
           destruct (Hdone i Hi) as [? ?];
             [rewrite Hrem; by apply not_elem_of_app_middle|].
           split; [done|lia].
      * apply tl_chain_snoc. rewrite Hend. unfold tl_start, tl_end; simpl.
        split_and!; [done|done|lia].
      * by rewrite tl_end_of_snoc.
      * apply tl_merged_snoc. split; [done|]. intros e He%last_Some_elem_of.
        change (tl_label e ≠ plabel (ps !!! x)).
        rewrite (plabel_lookup _ _ x Hspec). by apply Hfresh.
      * rewrite busy_snoc_run. rewrite Hrem in Hbusy.
        rewrite sum_over_app in Hbusy. simpl in Hbusy.
        rewrite sum_over_app.
        rewrite <-(burst_time_lookup _ _ x Hspec) in Hbusy. lia.
      * intros e i [He| ->%list_elem_of_singleton]%elem_of_app Hi.
        -- apply Hfresh; [done|]. rewrite Hrem. by apply elem_of_app_middle.
        -- simpl. intros Heq.
           change (plabel (ps !!! x) = plabel (ps0 !!! i)) in Heq.
           rewrite (plabel_lookup _ _ x Hspec) in Heq.
           apply valid_input_plabel in Heq; [|done|done|].
           ++ subst. done.
           ++ apply Hbound. rewrite Hrem. by apply elem_of_app_middle.
      * intros e. rewrite last_snoc. intros [= <-] Hl. simpl in Hl.
        by destruct (plabel_not_IDLE (ps !!! x)).
      * intros _ _. exists x. split; [done|].
        rewrite list_lookup_total_insert_eq by lia. done.
    + simpl. rewrite Hrem, !length_app. simpl.
      destruct (filter _ (r1 ++ r2)); lia.
Qed.

Lemma sjf_inv_init :
  ps0 ≠ [] →
  sjf_inv ps0 (mkSJF ((λ p, Process_init (pid p) (arrival_time p) (burst_time p))
                    <$> ps0) 0 []
                 (seq 0 (length ((λ p, Process_init (pid p) (arrival_time p)
                                         (burst_time p)) <$> ps0))) []).
Proof.
  intros Hne. rewrite length_fmap. constructor; simpl.
  - by rewrite <-list_fmap_compose.
  - apply StronglySorted_seq.
  - intros i Hi%elem_of_seq. lia.
  - done.
  - intros i Hi Hni. destruct Hni. apply elem_of_seq. lia.
  - done.
  - done.
  - done.
  - rewrite sum_over_seq. unfold busy; simpl. lia.
  - intros e i He. by apply elem_of_nil in He.
  - done.
  - intros Hnil. by destruct ps0.
Qed.

(** What the invariant gives once the loop has ended. *)
Lemma sjf_inv_exit st :
  ps0 ≠ [] → sjf_inv ps0 st → sjf_cond st = false →
  spec_of <$> sjf_procs st = spec_of <$> ps0
  ∧ Forall done_ok (sjf_procs st)
  ∧ tl_gap_free 0 (sjf_timeline st)
  ∧ tl_end_of 0 (sjf_timeline st) = makespan (sjf_procs st)
  ∧ tl_merged (sjf_timeline st)
  ∧ busy (sjf_timeline st) = total burst_time ps0.
Proof.
  intros Hne [Hspec Hsorted Hbound Ht0 Hdone Hgf Hend Hm Hbusy Hfresh Hidle Hlast] Hcond.
  apply bool_decide_eq_false in Hcond. apply dec_stable in Hcond.
  pose proof (spec_of_length _ _ Hspec) as Hlen.
  rewrite Hcond in *. simpl in Hbusy.
  assert (∀ i, (i < length (sjf_procs st))%nat →
            done_ok (sjf_procs st !!! i)
            ∧ completion_time (sjf_procs st !!! i) ≤ sjf_time st) as Hall.
  { intros i Hi. apply Hdone; [lia|apply not_elem_of_nil]. }
  split_and!; try done.
  - apply (Forall_lookup_total_2 _ _). intros i Hi. by apply Hall.
  - rewrite Hend. symmetry. apply makespan_max; [done| |].
    + apply (Forall_lookup_total_2 _ _). intros i Hi. by apply Hall.
    + destruct (Hlast eq_refl Hne) as (i & Hi & Hc).
      exists (sjf_procs st !!! i). split; [|done].
      apply list_elem_of_lookup_total_2. lia.
  - lia.
Qed.

End sjf.

Lemma sjf_run s :
  valid_input (original_processes s) → original_processes s ≠ [] →
  ∃ s', completes SJF s s' ∧ run_common SJF s s' ∧ run_end s'
        ∧ run_shape SJF s'.
Proof.
  intros Hvalid Hne.
  set (ps0 := original_processes s) in *.
  destruct (while_total sjf_cond sjf_body (sjf_inv ps0) sjf_measure
              (sjf_body_step ps0 Hvalid) _ _ (sjf_inv_init ps0 Hvalid Hne) (le_n _))
    as (st & Hwhile & Hinv & Hcond).
  destruct (sjf_inv_exit ps0 st Hne Hinv Hcond)
    as (Hspec & Hdone & Hgf & Hend & Hm & Hbusy).
  destruct (finish_run SJF s (sjf_procs st) (sjf_timeline st))
    as (Hcommon & Htl & Hmk); try done.
  - intros Hnil. apply spec_of_length in Hspec. rewrite Hnil in Hspec.
    by destruct ps0.
  - by apply tl_gap_free_ordered.
  - eexists. split; [|split; [done|]].
    + eexists. simpl. fold ps0. by rewrite Hwhile.
    + unfold run_end. by rewrite Htl, Hmk.
Qed.

(** ** Facts shared by the two preemptive policies *)

Lemma proc_inv_mono t t' p : t ≤ t' → proc_inv t p → proc_inv t' p.
Proof.
  unfold proc_inv. intros Ht (? & Hrun & Hc). split; [done|]. split.
  - destruct Hrun as [?|(? & ? & ?)]; [by left|right; lia].
  - intros Hz. specialize (Hc Hz). lia.
Qed.

Lemma proc_inv_done p t :
  0 < burst_time p → proc_inv t p → remaining_time p = 0 → done_ok p.
Proof.
  unfold proc_inv, done_ok. intros Hb (Hr & Hrun & Hc) Hz.
  specialize (Hc Hz). destruct Hrun as [?|(? & ? & ?)]; lia.
Qed.

Lemma ndone_le ps : (ndone ps ≤ length ps)%nat.
Proof. apply length_filter. Qed.

Lemma ndone_all ps :
  (length ps ≤ ndone ps)%nat → Forall (λ p, remaining_time p = 0) ps.
Proof.
  unfold ndone. induction ps as [|p ps IH]; [done|].
  rewrite filter_cons. case_decide; simpl; intros Hle.
  - constructor; [done|]. apply IH. lia.
  - pose proof (length_filter (λ p, remaining_time p = 0) ps). lia.
Qed.

Lemma ndone_none ps :
  Forall (λ p, remaining_time p ≠ 0) ps → ndone ps = 0%nat.
Proof.
  unfold ndone. induction 1 as [|p ps Hp _ IH]; [done|].
  rewrite filter_cons. by case_decide.
Qed.

Lemma total_work_init ps :
  total (λ p, burst_time p - remaining_time p)
    ((λ p, Process_init (pid p) (arrival_time p) (burst_time p)) <$> ps) = 0.
Proof.
  induction ps as [|p ps IH]; [done|].
  rewrite fmap_cons, total_cons, IH. simpl. lia.
Qed.

Lemma ndone_lt_exists (ps : list Process) :
  (ndone ps < length ps)%nat →
  ∃ i, (i < length ps)%nat ∧ remaining_time (ps !!! i) ≠ 0.
Proof.
  unfold ndone. induction ps as [|p ps IH]; simpl; [lia|].
  rewrite filter_cons. case_decide as Hp; simpl; intros Hlt.
  - destruct IH as (i & Hi & Hr); [lia|]. exists (S i). split; [lia|done].
  - exists 0%nat. split; [lia|done].
Qed.

Lemma ndone_lt (ps : list Process) (i : nat) :
  (i < length ps)%nat → remaining_time (ps !!! i) ≠ 0 →
  (ndone ps < length ps)%nat.
Proof.
  intros Hi Hr. pose proof (ndone_le ps) as Hle.
  destruct (decide (ndone ps = length ps)) as [Heq|]; [|lia].
  pose proof (ndone_all ps ltac:(lia)) as Hall.
  by pose proof (Forall_lookup_total_1 _ _ i Hall Hi).
Qed.

Lemma ndone_insert (ps : list Process) (i : nat) (p : Process) :
  (i < length ps)%nat → remaining_time (ps !!! i) ≠ 0 →
  ndone (<[i := p]> ps)
  = (ndone ps + if decide (remaining_time p = 0%Z) then 1 else 0)%nat.
Proof.
  unfold ndone. revert i.
  induction ps as [|q ps IH]; intros [|i] Hi Hr; simpl in *; try lia.
  - rewrite !filter_cons. repeat case_decide; simpl; try done; lia.
  - rewrite !filter_cons. change ((q :: ps) !!! S i) with (ps !!! i) in Hr.
    specialize (IH i ltac:(lia) Hr).
    destruct (decide (remaining_time q = 0)); simpl; rewrite IH; lia.
Qed.

Lemma max_arrival_ge (ps : list Process) p :
  p ∈ ps → arrival_time p ≤ max_arrival ps.
Proof.
  unfold max_arrival. induction 1 as [|q p ps Hp IH]; csimpl; lia.
Qed.

Lemma total_nonneg f ps : Forall (λ p, 0 ≤ f p) ps → 0 ≤ total f ps.
Proof.
  induction 1 as [|p ps Hp _ IH]; [done|]. rewrite total_cons. lia.
Qed.

Lemma total_ge_lookup f (ps : list Process) i :
  Forall (λ p, 0 ≤ f p) ps → (i < length ps)%nat → f (ps !!! i) ≤ total f ps.
Proof.
  intros Hall. revert i.
  induction Hall as [|p ps Hp Hall IH]; intros [|i] Hi; simpl in *; try lia;
    rewrite total_cons.
  - pose proof (total_nonneg f ps Hall). lia.
  - change ((p :: ps) !!! S i) with (ps !!! i). specialize (IH i). lia.
Qed.

(** The two outcomes of [timeline_merge]. *)
Lemma timeline_merge_cases tl lbl s c :
  (timeline_merge tl lbl s c = tl ++ [(lbl, s, c)]
   ∧ ∀ e, last tl = Some e → ¬ (tl_label e = lbl ∧ tl_end e = s))
  ∨ (∃ tl0 s0, tl = tl0 ++ [(lbl, s0, s)]
       ∧ timeline_merge tl lbl s c = tl0 ++ [(lbl, s0, c)]).
Proof.
  unfold timeline_merge. destruct (last tl) as [[[l s0] e]|] eqn:Hlast.
  - case_decide as Hd.
    + right. destruct Hd as [-> ->].
      apply last_Some in Hlast as [tl0 ->]. exists tl0, s0.
      split; [done|]. apply insert_last.
    + left. split; [done|]. by intros e' [= <-].
  - left. split; [done|]. done.
Qed.

(** Appending or merging one unit of execution keeps the timeline ordered
    and adds its length to the busy time. *)
Lemma timeline_merge_ordered tl p t c :
  tl_ordered 0 tl → tl_end_of 0 tl ≤ t → t < c →
  tl_ordered 0 (timeline_merge tl (plabel p) t c)
  ∧ tl_end_of 0 (timeline_merge tl (plabel p) t c) = c
  ∧ busy (timeline_merge tl (plabel p) t c) = busy tl + (c - t).
Proof.
  intros Hord Hend Htc.
  destruct (timeline_merge_cases tl (plabel p) t c)
    as [[-> _]|(tl0 & s0 & -> & ->)].
  - split_and!.
    + apply tl_chain_snoc. unfold tl_start, tl_end; simpl. done.
    + by rewrite tl_end_of_snoc.
    + by rewrite busy_snoc_run.
  - apply tl_chain_snoc in Hord as (Hord & Hs & Hlt).
    unfold tl_start, tl_end in *; simpl in *. split_and!.
    + apply tl_chain_snoc. unfold tl_start, tl_end; simpl.
      split_and!; [done|done|lia].
    + by rewrite tl_end_of_snoc.
    + rewrite !busy_snoc_run. lia.
Qed.

(** ** STCF *)

Section stcf.
Variable ps0 : list Process.
Hypothesis Hvalid : valid_input ps0.

Lemma stcf_body_step st :
  stcf_inv ps0 st → stcf_cond st = true →
  ∃ st', stcf_body st = Ok st' ∧ stcf_inv ps0 st'
         ∧ (stcf_measure ps0 st' < stcf_measure ps0 st)%nat.
Proof.
  intros [Hspec Ht0 Hproc Hnd Hord Hend Hbusy Hm Hlastrun _] Hcond.
  apply bool_decide_eq_true in Hcond.
  pose proof (spec_of_length _ _ Hspec) as Hlen.
  unfold stcf_body, stcf_measure, work_left.
  destruct st as [ps t completed tl]; simpl in *.
  assert (Forall (λ p, 0 ≤ remaining_time p) ps) as Hnonneg.
  { eapply Forall_impl; [exact Hproc|]. intros p Hp. unfold proc_inv in Hp. lia. }
  destruct (filter _ (seq 0 (length ps))) as [|a avail] eqn:Havail.
  - (* no process is available: one idle unit *)
    assert (∀ i, (i < length ps)%nat → arrival_time (ps !!! i) ≤ t →
              remaining_time (ps !!! i) = 0) as Hnone.
    { intros i Hi Ha.
      pose proof (Forall_lookup_total_1 _ _ i Hnonneg Hi) as Hr. simpl in Hr.
      destruct (decide (remaining_time (ps !!! i) > 0)) as [Hpos|]; [|lia].
      assert (i ∈ filter (λ i, arrival_time (ps !!! i) ≤ t
                               ∧ remaining_time (ps !!! i) > 0)
                         (seq 0 (length ps))) as Hin.
      { apply list_elem_of_filter. split; [done|]. apply elem_of_seq. lia. }
      rewrite Havail in Hin. by apply elem_of_nil in Hin. }
    destruct (ndone_lt_exists ps) as (i & Hi & Hri); [lia|].
    assert (t < arrival_time (ps0 !!! i)) as Hlate.
    { rewrite <-(arrival_time_lookup _ _ i Hspec).
      destruct (decide (arrival_time (ps !!! i) ≤ t)); [|lia].
      by destruct Hri; apply Hnone. }
    eexists. split; [done|]. split.
    + constructor; simpl.
      * done.
      * lia.
      * eapply Forall_impl; [exact Hproc|]. intros p. apply proc_inv_mono. lia.
      * done.
      * done.
      * lia.
      * done.
      * done.
      * intros e He. right. intros j Hj Hl.
        destruct (Hlastrun e He) as [[_ Harr]|Hz]; [|by apply Hz].
        apply Hnone; [lia|]. rewrite (arrival_time_lookup _ _ j Hspec).
        by apply Harr.
      * by left.
    + simpl.
      assert (arrival_time (ps0 !!! i) ≤ max_arrival ps0).
      { apply max_arrival_ge, list_elem_of_lookup_total_2. lia. }
      lia.
  - (* run the process with the least remaining time for one unit *)
    destruct (py_min_spec (λ i, remaining_time (ps !!! i)) (a :: avail))
      as (cur & l1 & l2 & -> & Hcur & _ & _); [done|].
    cbn [obind].
    assert (cur ∈ filter (λ i, arrival_time (ps !!! i) ≤ t
                               ∧ remaining_time (ps !!! i) > 0)
                         (seq 0 (length ps))) as Hin
      by (rewrite Havail, Hcur; apply elem_of_middle).
    apply list_elem_of_filter in Hin as [[Harr Hpos] Hcn%elem_of_seq].
    assert (cur < length ps)%nat as Hcn' by lia.
    clear Havail Hcur a avail l1 l2 Hcn. rename Hcn' into Hcn.
    set (p0 := ps !!! cur) in *.
    assert (proc_inv t p0) as Hp0 by (apply Forall_lookup_total_1; [done|lia]).
    assert (0 ≤ arrival_time p0) as Harr0.
    { unfold p0. rewrite (arrival_time_lookup _ _ cur Hspec).
      apply valid_input_lookup; [done|lia]. }
    (* the process after its unit of execution *)
    match goal with
    | |- ∃ st', (let '(p, completed) := ?c in Ok (@?k p completed)) = Ok st' ∧ _ =>
        assert (∃ p3 completed',
          c = (p3, completed')
          ∧ spec_of p3 = spec_of p0
          ∧ remaining_time p3 = remaining_time p0 - 1
          ∧ proc_inv (t + 1) p3
          ∧ (remaining_time p3 = 0 → completion_time p3 = t + 1)
          ∧ length completed'
            = (length completed
               + if decide (remaining_time p3 = 0%Z) then 1 else 0)%nat)
          as (p3 & completed' & -> & Hs3 & Hr3 & Hinv3 & Hfin3 & Hc3)
    end.
    { destruct Hp0 as (Hr & Hrun & Hc).
      destruct (decide (first_run p0 = -1)) as [Hfr|Hfr]; simpl;
        case_decide as Hz; eexists _, _; (split; [done|]); simpl;
        split_and!; try done.
      all: try (rewrite ?length_app; simpl; case_decide; lia).
      all: unfold proc_inv; simpl; (split; [lia|]);
        (split; [right|intros; lia]);
        destruct Hrun as [?|(? & ? & ?)]; lia. }
    assert (plabel p3 = plabel (ps0 !!! cur)) as Hl3.
    { rewrite (plabel_spec_of _ _ Hs3). by apply plabel_lookup. }
    destruct (timeline_merge_ordered tl p3 t (t + 1)) as (Hord' & Hend' & Hbusy');
      [done|done|lia|].
    eexists. split; [done|]. split.
    + constructor; simpl.
      * by rewrite spec_of_insert.
      * lia.
      * apply Forall_insert; [|done].
        eapply Forall_impl; [exact Hproc|]. intros p. apply proc_inv_mono. lia.
      * rewrite ndone_insert by (done || fold p0; lia). lia.
      * done.
      * lia.
      * rewrite Hbusy', Hbusy, total_insert by lia. fold p0.
        apply spec_of_eq in Hs3 as (_ & _ & ->). lia.
      * destruct (timeline_merge_cases tl (plabel p3) t (t + 1))
          as [[-> Hno]|(tl0 & s0 & -> & ->)].
        -- apply tl_merged_snoc. split; [done|]. intros e He Hl.
           change (tl_label e = plabel p3) in Hl.
           destruct (Hlastrun e He) as [[Hee _]|Hz]; [by destruct (Hno e He)|].
           specialize (Hz cur). rewrite Hl, Hl3 in Hz.
           specialize (Hz ltac:(lia) eq_refl). fold p0 in Hz. lia.
        -- apply tl_merged_snoc in Hm as [Hm Hl].
           apply tl_merged_snoc. by split.
      * intros e He. left.
        assert (tl_label e = plabel p3 ∧ tl_end e = t + 1) as [Hle Hee].
        { destruct (timeline_merge_cases tl (plabel p3) t (t + 1))
            as [[Heq _]|(tl0 & s0 & _ & Heq)];
            rewrite Heq, last_snoc in He; by injection He as <-. }
        split; [done|]. intros j Hj Hlj. rewrite Hle, Hl3 in Hlj.
        apply valid_input_plabel in Hlj; [|done|done|lia]. subst j.
        rewrite <-(arrival_time_lookup _ _ cur Hspec). fold p0. lia.
      * rewrite length_insert, Hc3.
        destruct (decide (remaining_time p3 = 0)) as [Hz|Hz]; [right|left; lia].
        split; [done|]. exists cur. split; [lia|].
        rewrite list_lookup_total_insert_eq by lia. by apply Hfin3.
    + simpl. rewrite total_insert by lia. fold p0.
      pose proof (total_ge_lookup remaining_time ps cur Hnonneg Hcn) as Hge.
      fold p0 in Hge. lia.
Qed.

Lemma valid_procs (ps : list Process) :
  spec_of <$> ps = spec_of <$> ps0 → Forall valid_process ps.
Proof. intros H. by destruct (valid_input_spec_of ps ps0 H Hvalid). Qed.

Lemma stcf_inv_init :
  ps0 ≠ [] →
  stcf_inv ps0 (mkSTCF ((λ p, Process_init (pid p) (arrival_time p) (burst_time p))
                      <$> ps0) 0 [] []).
Proof.
  intros Hne.
  assert (Forall valid_process ps0) as Hv by by destruct Hvalid.
  constructor; simpl.
  - by rewrite <-list_fmap_compose.
  - done.
  - rewrite Forall_fmap. eapply Forall_impl; [exact Hv|].
    intros p [Ha Hb]. unfold proc_inv; simpl. split; [lia|]. split; [by left|lia].
  - rewrite ndone_none; [done|]. rewrite Forall_fmap.
    eapply Forall_impl; [exact Hv|]. intros p [Ha Hb]. simpl. lia.
  - done.
  - done.
  - symmetry. apply total_work_init.
  - done.
  - done.
  - left. rewrite length_fmap. clear -Hne. destruct ps0; [done|simpl; lia].
Qed.

Lemma stcf_inv_exit st :
  stcf_inv ps0 st → stcf_cond st = false →
  spec_of <$> stcf_procs st = spec_of <$> ps0
  ∧ Forall done_ok (stcf_procs st)
  ∧ tl_ordered 0 (stcf_timeline st)
  ∧ tl_end_of 0 (stcf_timeline st) = makespan (stcf_procs st)
  ∧ tl_merged (stcf_timeline st)
  ∧ busy (stcf_timeline st) = total burst_time ps0.
Proof.
  intros [Hspec Ht0 Hproc Hnd Hord Hend Hbusy Hm Hlastrun Hfin] Hcond.
  apply bool_decide_eq_false in Hcond.
  assert (Forall (λ p, remaining_time p = 0) (stcf_procs st)) as Hall
    by (apply ndone_all; lia).
  pose proof (valid_procs _ Hspec) as Hv.
  pose proof (spec_of_length _ _ Hspec) as Hlen.
  split_and!; try done.
  - rewrite Forall_forall in Hproc, Hall, Hv. apply Forall_forall.
    intros p Hp. destruct (Hv p Hp) as [_ Hb].
    eapply proc_inv_done; [done|by apply Hproc|by apply Hall].
  - destruct Hfin as [?|(-> & i & Hi & Hc)]; [lia|].
    symmetry. apply makespan_max; [done| |].
    + rewrite Forall_forall in Hproc, Hall. apply Forall_forall.
      intros p Hp. destruct (Hproc p Hp) as (_ & _ & Hcp).
      by apply Hcp, Hall.
    + exists (stcf_procs st !!! i). split; [|done].
      apply list_elem_of_lookup_total_2. lia.
  - rewrite Hbusy. rewrite <-(total_spec_of burst_time burst_time _ _ ltac:(by intros ?? (_ & _ & ?)%spec_of_eq) Hspec).
    apply total_ext. eapply Forall_impl; [exact Hall|]. simpl. intros; lia.
Qed.

End stcf.

Lemma stcf_run s :
  valid_input (original_processes s) → original_processes s ≠ [] →
  ∃ s', completes STCF s s' ∧ run_common STCF s s' ∧ run_end s'
        ∧ run_shape STCF s'.
Proof.
  intros Hvalid Hne.
  set (ps0 := original_processes s) in *.
  destruct (while_total stcf_cond stcf_body (stcf_inv ps0) (stcf_measure ps0)
              (stcf_body_step ps0 Hvalid) _ _ (stcf_inv_init ps0 Hvalid Hne)
              (le_n _))
    as (st & Hwhile & Hinv & Hcond).
  destruct (stcf_inv_exit ps0 Hvalid st Hinv Hcond)
    as (Hspec & Hdone & Hord & Hend & Hm & Hbusy).
  destruct (finish_run STCF s (stcf_procs st) (stcf_timeline st))
    as (Hcommon & Htl & Hmk); try done.
  - intros Hnil. apply spec_of_length in Hspec. rewrite Hnil in Hspec.
    by destruct ps0.
  - eexists. split; [|split; [done|]].
    + eexists. simpl. fold ps0. by rewrite Hwhile.
    + unfold run_end. by rewrite Htl, Hmk.
Qed.

(** ** Round Robin *)

Lemma filter_ext_in {A} (P1 P2 : A → Prop)
    `{!∀ x, Decision (P1 x), !∀ x, Decision (P2 x)} (l : list A) :
  (∀ x, x ∈ l → P1 x ↔ P2 x) → filter P1 l = filter P2 l.
Proof.
  induction l as [|a l IH]; intros Hiff; [done|].
  rewrite !filter_cons, IH by (intros; apply Hiff; by right).
  destruct (decide (P1 a)) as [H1|H1], (decide (P2 a)) as [H2|H2]; try done;
    destruct (Hiff a); try tauto; left.
Qed.

Lemma pidset_elem (ps : list Process) (q : list nat) (i : nat) :
  NoDup (pid <$> ps) → (i < length ps)%nat →
  (∀ j, j ∈ q → (j < length ps)%nat) →
  pid (ps !!! i) ∈ pidset ps q ↔ i ∈ q.
Proof.
  intros Hnd Hi Hq. unfold pidset. rewrite elem_of_list_to_set, list_elem_of_fmap.
  split.
  - intros (j & Hpid & Hj). apply NoDup_pid_index in Hpid; auto. by subst.
  - intros Hin. by exists i.
Qed.

Lemma pidset_snoc ps q i : pidset ps (q ++ [i]) = {[pid (ps !!! i)]} ∪ pidset ps q.
Proof.
  unfold pidset. rewrite fmap_app, list_to_set_app_L. simpl.
  by rewrite (right_id_L ∅ (∪)), (comm_L (∪)).
Qed.

Lemma pidset_spec_of ps ps' q :
  spec_of <$> ps = spec_of <$> ps' → pidset ps q = pidset ps' q.
Proof.
  intros Hspec. unfold pidset. f_equal. apply list_fmap_ext.
  intros _ i _. by apply pid_lookup.
Qed.

(** A scan over any duplicate-free list of indices. *)
Lemma rr_scan_fold ps t skip (l : list nat) : ∀ q,
  NoDup (pid <$> ps) → NoDup l →
  (∀ i, i ∈ l → (i < length ps)%nat) →
  (∀ j, j ∈ q → (j < length ps)%nat) →
  foldl (rr_scan_one ps t skip) (q, pidset ps q) l
  = (q ++ filter (rr_eligible ps t skip q) l,
     pidset ps (q ++ filter (rr_eligible ps t skip q) l)).
Proof.
  induction l as [|i l IH]; intros q Hnd Hl Hbl Hbq; simpl.
  { by rewrite app_nil_r. }
  apply NoDup_cons in Hl as [Hil Hl].
  assert (i < length ps)%nat as Hi by (apply Hbl; left).
  unfold rr_scan_one at 2. simpl.
  rewrite filter_cons.
  destruct (decide (rr_eligible ps t skip q i)) as [He|He].
  - rewrite decide_True.
    2:{ destruct He as (? & ? & ? & ?). split_and!; try done.
        by rewrite pidset_elem. }
    rewrite <-pidset_snoc, IH; try done.
    + rewrite (filter_ext_in (rr_eligible ps t skip (q ++ [i]))
                 (rr_eligible ps t skip q)).
      * by rewrite <-!app_assoc.
      * intros j Hj. unfold rr_eligible. rewrite elem_of_app, list_elem_of_singleton.
        assert (j ≠ i) by (intros ->; done). tauto.
    + intros j Hj. apply Hbl. by right.
    + intros j [Hj| ->%list_elem_of_singleton]%elem_of_app; [by apply Hbq|done].
  - rewrite decide_False.
    2:{ intros (? & Hp & ? & ?). apply He. split_and!; try done.
        by rewrite pidset_elem in Hp. }
    apply IH; try done. intros j Hj. apply Hbl. by right.
Qed.

Lemma rr_scan_spec ps t skip q :
  NoDup (pid <$> ps) → (∀ j, j ∈ q → (j < length ps)%nat) →
  rr_scan ps t skip q (pidset ps q)
  = (q ++ rr_arrivals ps t skip q, pidset ps (q ++ rr_arrivals ps t skip q)).
Proof.
  intros Hnd Hq. unfold rr_scan, rr_arrivals.
  apply rr_scan_fold; try done; [apply NoDup_seq|].
  intros i Hi%elem_of_seq. lia.
Qed.

Lemma rr_arrivals_elem ps t skip q i :
  i ∈ rr_arrivals ps t skip q ↔
  rr_eligible ps t skip q i ∧ (i < length ps)%nat.
Proof.
  unfold rr_arrivals. rewrite list_elem_of_filter, elem_of_seq.
  split; intros [? ?]; (split; [done|lia]).
Qed.

Lemma rr_arrivals_NoDup ps t skip q :
  NoDup q → NoDup (q ++ rr_arrivals ps t skip q).
Proof.
  intros Hq. apply NoDup_app. split_and!; [done| |].
  - intros i Hi [(_ & Hni & _) _]%rr_arrivals_elem. done.
  - apply NoDup_filter, NoDup_seq.
Qed.

Lemma rr_dispatched_spec_of quantum t p :
  spec_of (rr_dispatched quantum t p) = spec_of p.
Proof. unfold rr_dispatched. by case_decide. Qed.

Lemma rr_dispatched_remaining quantum t p :
  remaining_time (rr_dispatched quantum t p)
  = remaining_time p - Z.min quantum (remaining_time p).
Proof. unfold rr_dispatched. by case_decide. Qed.

Lemma pidset_remove (ps : list Process) (c : nat) (rest : list nat) :
  NoDup (pid <$> ps) → NoDup (c :: rest) →
  (∀ j, j ∈ c :: rest → (j < length ps)%nat) →
  pidset ps (c :: rest) ∖ {[pid (ps !!! c)]} = pidset ps rest.
Proof.
  intros Hnd [Hc Hrest]%NoDup_cons Hb.
  assert (pid (ps !!! c) ∉ pidset ps rest) as Hnot.
  { rewrite pidset_elem; [done|done|apply Hb; left|].
    intros j Hj. apply Hb. by right. }
  unfold pidset in *. rewrite fmap_cons, list_to_set_cons.
  rewrite difference_union_distr_l_L, difference_diag_L, (left_id_L ∅ (∪)).
  apply difference_disjoint_L. by apply disjoint_singleton_r.
Qed.

(** The iteration that finds the ready queue empty. *)
Lemma rr_body_idle quantum st :
  rr_wf st →
  rr_queue st ++ rr_arrivals (rr_procs st) (rr_time st) None (rr_queue st) = [] →
  rr_body quantum st
  = Ok (mkRR (rr_procs st) (rr_time st + 1) [] (rr_completed st) ∅
          (rr_timeline st)).
Proof.
  intros (Hnd & Hq & Hb & Hinq) Hempty. unfold rr_body.
  rewrite Hinq, rr_scan_spec, Hempty by done. done.
Qed.

(** The iteration that dispatches the process [c] at the front. *)
Lemma rr_body_run quantum st c rest :
  rr_wf st →
  rr_queue st ++ rr_arrivals (rr_procs st) (rr_time st) None (rr_queue st)
    = c :: rest →
  let ps := rr_procs st in
  let t := rr_time st in
  let p0 := ps !!! c in
  let t' := t + Z.min quantum (remaining_time p0) in
  let p2 := rr_dispatched quantum t p0 in
  let ps' := <[c := p2]> ps in
  let q3 := rest ++ rr_arrivals ps' t' (Some c) rest in
  let tl' := rr_timeline st ++ [(plabel p0, t, t')] in
  rr_body quantum st
  = Ok (if decide (remaining_time p2 = 0)
        then mkRR (<[c := set_completion_time t' p2]> ps) t' q3
               (rr_completed st ++ [c]) (pidset ps q3) tl'
        else mkRR ps' t' (q3 ++ [c]) (rr_completed st)
               (pidset ps (q3 ++ [c])) tl').
Proof.
  intros (Hnd & Hq & Hb & Hinq) Hq1. intros ps t p0 t' p2 ps' q3 tl'.
  assert (NoDup (c :: rest)) as Hnd1
    by (rewrite <-Hq1; by apply rr_arrivals_NoDup).
  assert (∀ j, j ∈ c :: rest → (j < length ps)%nat) as Hb1.
  { intros j. rewrite <-Hq1. intros [?|[_ ?]%rr_arrivals_elem]%elem_of_app; auto. }
  assert (spec_of <$> ps' = spec_of <$> ps) as Hspec'.
  { unfold ps'. rewrite spec_of_insert; [done|apply rr_dispatched_spec_of]. }
  unfold rr_body.
  rewrite Hinq, rr_scan_spec, Hq1 by done.
  rewrite decide_True.
  2:{ rewrite pidset_elem; [left|done|apply Hb1; left|done]. }
  cbn [obind]. rewrite pidset_remove by done.
  fold ps t p0.
  assert (∀ p, spec_of p = spec_of p0 →
    rr_scan (<[c := p]> ps) t' (Some c) rest (pidset ps rest)
    = (rest ++ rr_arrivals (<[c := p]> ps) t' (Some c) rest,
       pidset ps (rest ++ rr_arrivals (<[c := p]> ps) t' (Some c) rest)))
    as Hscan.
  { intros p Hp.
    assert (spec_of <$> <[c := p]> ps = spec_of <$> ps) as Hsp
      by by rewrite spec_of_insert.
    rewrite (pidset_spec_of ps (<[c := p]> ps) rest) by done.
    rewrite rr_scan_spec.
    - by rewrite (pidset_spec_of (<[c := p]> ps) ps).
    - assert (pid <$> <[c := p]> ps = pid <$> ps) as ->; [|done].
      change pid with ((λ x : Z * Z * Z, x.1.1) ∘ spec_of).
      by rewrite !(list_fmap_compose spec_of), Hsp.
    - intros j Hj. rewrite (spec_of_length _ _ Hsp). apply Hb1. by right. }
  unfold q3, ps', tl', p2, t', rr_dispatched.
  destruct (decide (first_run p0 = -1)) as [Hfr|Hfr]; simpl;
    rewrite Hscan by done; case_decide;
    by rewrite ?list_insert_insert_eq, ?pidset_snoc.
Qed.

Lemma rr_dispatched_inv quantum t p :
  0 < quantum → proc_inv t p → 0 ≤ arrival_time p ≤ t →
  remaining_time p > 0 →
  let t' := t + Z.min quantum (remaining_time p) in
  let p2 := rr_dispatched quantum t p in
  t < t'
  ∧ proc_inv t' (if decide (remaining_time p2 = 0)
                 then set_completion_time t' p2 else p2).
Proof.
  intros Hq (Hr & Hrun & Hc) Ha Hpos. cbv zeta. split; [lia|].
  rewrite rr_dispatched_remaining. unfold rr_dispatched.
  destruct (decide (first_run p = -1)) as [Hfr|Hfr]; case_decide;
    unfold proc_inv; simpl; (split; [lia|]); (split; [right|intros; lia]);
    destruct Hrun as [?|(? & ? & ?)]; lia.
Qed.

Section rr.
Variable ps0 : list Process.
Hypothesis Hvalid : valid_input ps0.
Variable quantum : Z.
Hypothesis Hquantum : 0 < quantum.

Lemma rr_inv_wf st : rr_inv ps0 st → rr_wf st.
Proof.
  intros [Hspec _ _ _ _ _ _ Hnd Hok Hinq _]. split_and!; try done.
  - by destruct (valid_input_spec_of _ _ Hspec Hvalid).
  - intros j Hj. rewrite (spec_of_length _ _ Hspec). by apply Hok.
Qed.

(** Every state of a run on valid input meets the conditions under which
    an iteration is described by [rr_body_idle] and [rr_body_run]. *)
Lemma rr_inv_ready st :
  rr_inv ps0 st →
  rr_wf st
  ∧ ∀ i, i ∈ rr_queue st → arrival_time (rr_procs st !!! i) ≤ rr_time st.
Proof.
  intros Hinv. split; [by apply rr_inv_wf|].
  destruct Hinv as [Hspec _ _ _ _ _ _ _ Hok _ _]. intros i Hi.
  rewrite (arrival_time_lookup _ _ i Hspec). by apply Hok.
Qed.

Lemma rr_body_step st :
  rr_inv ps0 st → rr_cond st = true →
  ∃ st', rr_body quantum st = Ok st' ∧ rr_inv ps0 st'
         ∧ (rr_measure ps0 st' < rr_measure ps0 st)%nat.
Proof.
  intros Hinv Hcond. pose proof (rr_inv_wf st Hinv) as Hwf.
  destruct Hinv as [Hspec Ht0 Hproc Hnd Hord Hend Hbusy Hqnd Hqok Hinq _].
  pose proof (spec_of_length _ _ Hspec) as Hlen.
  unfold rr_measure, work_left.
  assert (Forall (λ p, 0 ≤ remaining_time p) (rr_procs st)) as Hnonneg.
  { eapply Forall_impl; [exact Hproc|]. intros p Hp. unfold proc_inv in Hp. lia. }
  destruct (rr_queue st ++ rr_arrivals (rr_procs st) (rr_time st) None (rr_queue st))
    as [|c rest] eqn:Hq1.
  - (* the ready queue is empty: one idle unit *)
    rewrite (rr_body_idle quantum st Hwf Hq1).
    apply app_eq_nil in Hq1 as [Hq Hnew].
    unfold rr_cond in Hcond. rewrite Hq in Hcond. simpl in Hcond.
    apply bool_decide_eq_true in Hcond.
    eexists. split; [done|]. split.
    + constructor; simpl.
      * done.
      * lia.
      * eapply Forall_impl; [exact Hproc|]. intros p. apply proc_inv_mono. lia.
      * done.
      * done.
      * lia.
      * done.
      * constructor.
      * intros i Hi. by apply elem_of_nil in Hi.
      * done.
      * by left.
    + simpl.
      destruct (ndone_lt_exists (rr_procs st)) as (i & Hi & Hri); [lia|].
      pose proof (Forall_lookup_total_1 _ _ i Hnonneg Hi) as Hr. simpl in Hr.
      assert (rr_time st < arrival_time (ps0 !!! i)) as Hlate.
      { rewrite <-(arrival_time_lookup _ _ i Hspec).
        destruct (decide (arrival_time (rr_procs st !!! i) ≤ rr_time st)); [|lia].
        assert (i ∈ rr_arrivals (rr_procs st) (rr_time st) None (rr_queue st)) as Hin.
        { apply rr_arrivals_elem. split; [|done]. unfold rr_eligible.
          rewrite Hq. split_and!; [done|apply not_elem_of_nil|lia|done]. }
        rewrite Hnew in Hin. by apply elem_of_nil in Hin. }
      assert (arrival_time (ps0 !!! i) ≤ max_arrival ps0).
      { apply max_arrival_ge, list_elem_of_lookup_total_2. lia. }
      lia.
  - (* dispatch the process at the front *)
    rewrite (rr_body_run quantum st c rest Hwf Hq1). cbn zeta.
    set (ps := rr_procs st) in *. set (t := rr_time st) in *.
    set (p0 := ps !!! c). set (t' := t + Z.min quantum (remaining_time p0)).
    set (p2 := rr_dispatched quantum t p0).
    set (q3 := rest ++ rr_arrivals (<[c := p2]> ps) t' (Some c) rest).
    (* what is known of the queue after the first scan *)
    assert (∀ j, j ∈ c :: rest →
              (j < length ps0)%nat ∧ remaining_time (ps !!! j) > 0
              ∧ arrival_time (ps0 !!! j) ≤ t) as Hmem.
    { intros j. rewrite <-Hq1.
      intros [Hj|[(Ha & _ & Hr & _) Hjn]%rr_arrivals_elem]%elem_of_app;
        [by apply Hqok|].
      rewrite <-(arrival_time_lookup _ _ j Hspec). split_and!; [lia|done..]. }
    assert (NoDup (c :: rest)) as [Hc_rest Hrest]%NoDup_cons
      by (rewrite <-Hq1; by apply rr_arrivals_NoDup).
    destruct (Hmem c) as (Hcn & Hcpos & Hcarr); [left|]. fold p0 in Hcpos.
    assert (proc_inv t p0) as Hp0
      by (apply Forall_lookup_total_1; [done|lia]).
    assert (0 ≤ arrival_time p0 ≤ t) as Harr0.
    { unfold p0. rewrite (arrival_time_lookup _ _ c Hspec). split; [|done].
      by apply valid_input_lookup. }
    destruct (rr_dispatched_inv quantum t p0 Hquantum Hp0 Harr0 Hcpos)
      as [Htt' Hp3].
    fold t' p2 in Htt', Hp3.
    pose proof (rr_dispatched_remaining quantum t p0) as Hr2. fold p2 in Hr2.
    pose proof (rr_dispatched_spec_of quantum t p0) as Hs2. fold p2 in Hs2.
    set (p3 := if decide (remaining_time p2 = 0)
               then set_completion_time t' p2 else p2) in *.
    assert (spec_of p3 = spec_of p0 ∧ remaining_time p3 = remaining_time p2)
      as [Hs3 Hr3] by (unfold p3; by case_decide).
    (* the queue after the second scan *)
    assert (∀ j, j ∈ q3 →
              j ≠ c ∧ (j < length ps0)%nat ∧ remaining_time (ps !!! j) > 0
              ∧ arrival_time (ps0 !!! j) ≤ t') as Hmem3.
    { intros j [Hj|[(Ha & _ & Hr & Hsk) Hjn]%rr_arrivals_elem]%elem_of_app.
      - destruct (Hmem j) as (? & ? & ?); [by right|].
        split_and!; [intros ->; done|done|done|lia].
      - assert (j ≠ c) as Hjc by congruence.
        rewrite length_insert in Hjn.
        rewrite list_lookup_total_insert_ne in Ha, Hr by done.
        rewrite <-(arrival_time_lookup _ _ j Hspec).
        split_and!; [done|lia|done|done]. }
    assert (NoDup q3) as Hnd3 by by apply rr_arrivals_NoDup.
    (* both branches at once *)
    set (extra := if decide (remaining_time p2 = 0) then [] else [c]).
    set (fin := if decide (remaining_time p2 = 0) then [c] else []).
    match goal with |- ∃ st', Ok ?r = Ok st' ∧ _ =>
      assert (r = mkRR (<[c := p3]> ps) t' (q3 ++ extra)
                    (rr_completed st ++ fin) (pidset ps (q3 ++ extra))
                    (rr_timeline st ++ [(plabel p0, t, t')])) as ->
    end.
    { unfold p3, extra, fin. case_decide; by rewrite ?app_nil_r. }
    eexists. split; [done|]. split.
    + constructor; simpl.
      * rewrite spec_of_insert; done.
      * lia.
      * apply Forall_insert; [|done].
        eapply Forall_impl; [exact Hproc|]. intros p. apply proc_inv_mono. lia.
      * rewrite ndone_insert by (done || fold p0; lia).
        rewrite Hr3, length_app, Hnd. unfold fin. by case_decide.
      * apply tl_chain_snoc. unfold tl_start, tl_end; simpl. done.
      * rewrite tl_end_of_snoc. unfold tl_end; simpl. lia.
      * rewrite busy_snoc_run, Hbusy, total_insert by lia. fold p0.
        apply spec_of_eq in Hs3 as (_ & _ & ->). rewrite Hr3, Hr2.
        unfold t'. lia.
      * apply NoDup_app. split_and!; [done| |].
        -- unfold extra. case_decide; [intros ?? ?%elem_of_nil; done|].
           intros j Hj ->%list_elem_of_singleton. by destruct (Hmem3 c Hj).
        -- unfold extra. case_decide; [constructor|apply NoDup_singleton].
      * intros i [Hi|Hi]%elem_of_app.
        -- destruct (Hmem3 i Hi) as (Hic & ? & ? & ?).
           rewrite list_lookup_total_insert_ne by done. done.
        -- unfold extra in Hi. case_decide as Hz; [by apply elem_of_nil in Hi|].
           apply list_elem_of_singleton in Hi as ->.
           rewrite list_lookup_total_insert_eq by lia.
           pose proof Hp3 as (? & _). split_and!; [done|lia|lia].
      * apply pidset_spec_of. by rewrite spec_of_insert.
      * rewrite length_insert.
        unfold p3, fin. case_decide as Hz.
        -- right. rewrite tl_end_of_snoc. split; [done|].
           exists c. split; [done|].
           by rewrite list_lookup_total_insert_eq by lia.
        -- left. rewrite app_nil_r, Hnd.
           apply (ndone_lt ps c); [lia|fold p0; lia].
    + simpl. rewrite total_insert by lia. fold p0.
      pose proof (total_ge_lookup remaining_time ps c Hnonneg ltac:(lia)) as Hge.
      fold p0 in Hge. lia.
Qed.

Lemma rr_initial_spec (ps : list Process) :
  rr_initial ps
  = (filter (λ i, arrival_time (ps !!! i) ≤ 0) (seq 0 (length ps)),
     pidset ps (filter (λ i, arrival_time (ps !!! i) ≤ 0)
                  (seq 0 (length ps)))).
Proof.
  unfold rr_initial.
  assert (∀ l q,
    foldl (λ (acc : list nat * gset Z) i,
             let p := ps !!! i in
             if decide (arrival_time p ≤ 0)
             then (acc.1 ++ [i], {[pid p]} ∪ acc.2) else acc)
          (q, pidset ps q) l
    = (q ++ filter (λ i, arrival_time (ps !!! i) ≤ 0) l,
       pidset ps (q ++ filter (λ i, arrival_time (ps !!! i) ≤ 0) l))) as H.
  { induction l as [|i l IH]; intros q; simpl; [by rewrite app_nil_r|].
    rewrite filter_cons. case_decide; simpl.
    - rewrite <-pidset_snoc, IH. by rewrite <-!app_assoc.
    - apply IH. }
  apply (H _ []).
Qed.

Lemma rr_inv_init :
  ps0 ≠ [] →
  let ps := (λ p, Process_init (pid p) (arrival_time p) (burst_time p))
              <$> ps0 in
  rr_inv ps0 (mkRR ps 0 (rr_initial ps).1 [] (rr_initial ps).2 []).
Proof.
  intros Hne ps. rewrite rr_initial_spec. simpl.
  assert (Forall valid_process ps0) as Hv by by destruct Hvalid.
  assert (spec_of <$> ps = spec_of <$> ps0) as Hspec
    by (unfold ps; by rewrite <-list_fmap_compose).
  constructor; simpl.
  - done.
  - done.
  - unfold ps. rewrite Forall_fmap. eapply Forall_impl; [exact Hv|].
    intros p [Ha Hb]. unfold proc_inv; simpl. split; [lia|]. split; [by left|lia].
  - rewrite ndone_none; [done|]. unfold ps. rewrite Forall_fmap.
    eapply Forall_impl; [exact Hv|]. intros p [Ha Hb]. simpl. lia.
  - done.
  - done.
  - symmetry. apply total_work_init.
  - apply NoDup_filter, NoDup_seq.
  - intros i [Ha Hi%elem_of_seq]%list_elem_of_filter.
    rewrite (spec_of_length _ _ Hspec) in Hi.
    rewrite <-(arrival_time_lookup _ _ i Hspec). split_and!; [lia| |lia].
    rewrite (Z.gt_lt_iff _ 0).
    assert (remaining_time (ps !!! i) = burst_time (ps0 !!! i)) as ->.
    { unfold ps. rewrite !list_lookup_total_alt, list_lookup_fmap.
      by destruct (ps0 !! i). }
    destruct (valid_input_lookup ps0 i Hvalid); [lia|]. lia.
  - done.
  - left. rewrite (spec_of_length _ _ Hspec). clear -Hne.
    destruct ps0; [done|simpl; lia].
Qed.

Lemma rr_inv_exit st :
  rr_inv ps0 st → rr_cond st = false →
  spec_of <$> rr_procs st = spec_of <$> ps0
  ∧ Forall done_ok (rr_procs st)
  ∧ tl_ordered 0 (rr_timeline st)
  ∧ tl_end_of 0 (rr_timeline st) = makespan (rr_procs st)
  ∧ busy (rr_timeline st) = total burst_time ps0.
Proof.
  intros [Hspec Ht0 Hproc Hnd Hord Hend Hbusy Hqnd Hqok Hinq Hfin] Hcond.
  apply orb_false_iff in Hcond as [_ Hcond].
  apply bool_decide_eq_false in Hcond.
  assert (Forall (λ p, remaining_time p = 0) (rr_procs st)) as Hall
    by (apply ndone_all; lia).
  destruct (valid_input_spec_of _ _ Hspec Hvalid) as [_ Hv].
  pose proof (spec_of_length _ _ Hspec) as Hlen.
  split_and!; try done.
  - rewrite Forall_forall in Hproc, Hall, Hv. apply Forall_forall.
    intros p Hp. destruct (Hv p Hp) as [_ Hb].
    eapply proc_inv_done; [done|by apply Hproc|by apply Hall].
  - destruct Hfin as [?|(-> & i & Hi & Hc)]; [lia|].
    symmetry. apply makespan_max; [done| |].
    + rewrite Forall_forall in Hproc, Hall. apply Forall_forall.
      intros p Hp. destruct (Hproc p Hp) as (_ & _ & Hcp).
      by apply Hcp, Hall.
    + exists (rr_procs st !!! i). split; [|done].
      apply list_elem_of_lookup_total_2. lia.
  - rewrite Hbusy. rewrite <-(total_spec_of burst_time burst_time _ _ ltac:(by intros ?? (_ & _ & ?)%spec_of_eq) Hspec).
    apply total_ext. eapply Forall_impl; [exact Hall|]. simpl. intros; lia.
Qed.

End rr.

Lemma rr_run quantum s :
  valid_input (original_processes s) → 0 < quantum →
  original_processes s ≠ [] →
  ∃ s', completes (RR quantum) s s' ∧ run_common (RR quantum) s s'
        ∧ run_end s'.
Proof.
  intros Hvalid Hq Hne.
  set (ps0 := original_processes s) in *.
  destruct (while_total rr_cond (rr_body quantum) (rr_inv ps0) (rr_measure ps0)
              (rr_body_step ps0 Hvalid quantum Hq) _ _
              (rr_inv_init ps0 Hvalid Hne) (le_n _))
    as (st & Hwhile & Hinv & Hcond).
  destruct (rr_inv_exit ps0 Hvalid st Hinv Hcond)
    as (Hspec & Hdone & Hord & Hend & Hbusy).
  destruct (finish_run (RR quantum) s (rr_procs st) (rr_timeline st))
    as (Hcommon & Htl & Hmk); try done.
  - intros Hnil. apply spec_of_length in Hspec. rewrite Hnil in Hspec.
    by destruct ps0.
  - eexists. split; [|split; [done|unfold run_end; by rewrite Htl, Hmk]].
    unfold completes. simpl. fold ps0.
    revert Hwhile. destruct (rr_initial _) as [q0 inq0]. simpl. intros Hwhile.
    eexists. by rewrite Hwhile.
Qed.

(** ** All four policies on valid input *)

Lemma run_valid pol s :
  valid_input (original_processes s) → valid_policy pol →
  original_processes s ≠ [] →
  ∃ s', completes pol s s' ∧ run_common pol s s' ∧ run_end s'
        ∧ run_shape pol s'.
Proof.
  intros Hvalid Hpol Hne. destruct pol as [| | |quantum].
  - by apply fifo_run.
  - by apply sjf_run.
  - by apply stcf_run.
  - destruct (rr_run quantum s Hvalid Hpol Hne) as (r & ? & ? & ?).
    exists r. by split_and!.
Qed.




(** *** The order of the final states, on any input *)

Lemma finish_spec_of s r :
  finish s = Ok r → spec_of <$> processes r.1 = spec_of <$> processes s.
Proof.
  unfold finish. intros (avg & _ & [= <-])%obind_Ok. simpl.
  by rewrite <-list_fmap_compose.
Qed.

Lemma fifo_loop_spec_of todo : ∀ t tl ps' t' tl',
  fifo_loop todo t tl = (ps', t', tl') → spec_of <$> ps' = spec_of <$> todo.
Proof.
  induction todo as [|p rest IH]; intros t tl ps' t' tl' Hrun; simpl in Hrun.
  { by injection Hrun as <- <- <-. }
  destruct (decide (t < arrival_time p));
    destruct (fifo_loop rest _ _) as [[rest' t''] tl''] eqn:Hrest;
    injection Hrun as <- <- <-; apply IH in Hrest;
    by rewrite !fmap_cons, Hrest.
Qed.

Lemma sjf_body_spec_of st st' :
  sjf_body st = Ok st' →
  spec_of <$> sjf_procs st' = spec_of <$> sjf_procs st.
Proof.
  unfold sjf_body. destruct (filter _ _) as [|a avail].
  - by intros (na & _ & [= <-])%obind_Ok.
  - intros (x & _ & (rem & _ & [= <-])%obind_Ok)%obind_Ok. simpl.
    by rewrite spec_of_insert.
Qed.

Lemma stcf_body_spec_of st st' :
  stcf_body st = Ok st' →
  spec_of <$> stcf_procs st' = spec_of <$> stcf_procs st.
Proof.
  unfold stcf_body. destruct (filter _ _) as [|a avail].
  - by intros [= <-].
  - intros (cur & _ & Hbody)%obind_Ok. revert Hbody.
    destruct (decide (first_run _ = -1)); simpl; case_decide;
      intros [= <-]; simpl; by rewrite spec_of_insert.
Qed.

Lemma rr_body_spec_of quantum st st' :
  rr_body quantum st = Ok st' →
  spec_of <$> rr_procs st' = spec_of <$> rr_procs st.
Proof.
  unfold rr_body. destruct (rr_scan _ _ None _ _) as [[|cur queue] inq].
  - by intros [= <-].
  - intros (inq' & _ & Hbody)%obind_Ok. revert Hbody.
    destruct (decide (first_run _ = -1)); simpl;
      destruct (rr_scan _ _ (Some cur) _ _) as [queue' inq''];
      case_decide; intros [= <-]; simpl;
      by rewrite ?list_insert_insert_eq, spec_of_insert.
Qed.

(** Whenever a run returns, on valid input or not, its final states are
    those of the input processes, in the order of the policy. *)
Lemma calculate_metrics_spec_of s :
  spec_of <$> processes (calculate_metrics s) = spec_of <$> processes s.
Proof. simpl. by rewrite <-list_fmap_compose. Qed.

Lemma simulate_order pol fuel s s' :
  simulate pol fuel (reset_processes s) = Ok s' →
  spec_of <$> processes s'
  = spec_of <$> policy_order pol (original_processes s).
Proof.
  pose proof (reset_processes_spec_of s) as Hreset.
  destruct pol as [| | |quantum]; unfold simulate.
  - destruct (fifo_loop _ _ _) as [[ps t] tl] eqn:Hloop.
    intros [= <-]. rewrite calculate_metrics_spec_of. simpl.
    rewrite (fifo_loop_spec_of _ _ _ _ _ _ Hloop).
    by apply sort_by_arrival_spec_of.
  - intros (st & Hwhile & [= <-])%obind_Ok.
    rewrite calculate_metrics_spec_of. simpl.
    eapply (while_partial sjf_cond sjf_body
              (λ st, spec_of <$> sjf_procs st
                     = spec_of <$> original_processes s)) in Hwhile
      as [? _]; [done| |done].
    intros st1 st2 H1 _ ->%sjf_body_spec_of. done.
  - intros (st & Hwhile & [= <-])%obind_Ok.
    rewrite calculate_metrics_spec_of. simpl.
    eapply (while_partial stcf_cond stcf_body
              (λ st, spec_of <$> stcf_procs st
                     = spec_of <$> original_processes s)) in Hwhile
      as [? _]; [done| |done].
    intros st1 st2 H1 _ ->%stcf_body_spec_of. done.
  - destruct (rr_initial _) as [q0 inq0].
    intros (st & Hwhile & [= <-])%obind_Ok.
    rewrite calculate_metrics_spec_of. simpl.
    eapply (while_partial rr_cond (rr_body quantum)
              (λ st, spec_of <$> rr_procs st
                     = spec_of <$> original_processes s)) in Hwhile
      as [? _]; [done| |done].
    intros st1 st2 H1 _ ->%rr_body_spec_of. done.
Qed.

Lemma run_order pol fuel s r :
  run pol fuel s = Ok r →
  spec_of <$> processes r.1
  = spec_of <$> policy_order pol (original_processes s).
Proof. intros [Hs _]%run_completes. by eapply simulate_order. Qed.

(** ** The iterations of the two preemptive loops *)

(** Total correctness with a second invariant that rides on the first. *)
Lemma while_total_with {S : Type} (cond : S → bool) (body : S → outcome S)
    (I J : S → Prop) (m : S → nat) :
  (∀ st, I st → cond st = true →
     ∃ st', body st = Ok st' ∧ I st' ∧ (m st' < m st)%nat) →
  (∀ st st', I st → J st → cond st = true → body st = Ok st' → J st') →
  ∀ st, I st → J st →
    ∃ st', while cond body (m st) st = Ok st' ∧ I st' ∧ J st'
           ∧ cond st' = false.
Proof.
  intros HI HJ st Hi Hj.
  destruct (while_total cond body (λ st, I st ∧ J st) m) with
    (fuel := m st) (st := st) as (st' & Hw & [Hi' Hj'] & Hc); try done.
  - intros st1 [Hi1 Hj1] Hc1.
    destruct (HI st1 Hi1 Hc1) as (st2 & Hb & Hi2 & Hm).
    exists st2. split; [done|]. split; [|done]. split; [done|].
    exact (HJ st1 st2 Hi1 Hj1 Hc1 Hb).
  - by exists st'.
Qed.

Lemma timeline_merge_extends tl lbl t t' :
  tl_extends lbl t t' tl (timeline_merge tl lbl t t').
Proof.
  destruct (timeline_merge_cases tl lbl t t') as [[-> _]|(tl0 & s0 & -> & ->)];
    [by left|right; eauto].
Qed.

(** While some process is unfinished and none is ready, the clock is
    before the last arrival. *)
Lemma idle_before_last_arrival (ps0 ps : list Process) t :
  spec_of <$> ps = spec_of <$> ps0 →
  Forall (λ p, 0 ≤ remaining_time p) ps →
  (ndone ps < length ps)%nat →
  filter (λ i, arrival_time (ps !!! i) ≤ t ∧ remaining_time (ps !!! i) > 0)
         (seq 0 (length ps)) = [] →
  t + 1 ≤ max_arrival ps0.
Proof.
  intros Hspec Hnonneg Hnd Havail.
  destruct (ndone_lt_exists ps Hnd) as (i & Hi & Hri).
  pose proof (Forall_lookup_total_1 _ _ i Hnonneg Hi) as Hr. simpl in Hr.
  assert (¬ arrival_time (ps !!! i) ≤ t) as Hlate.
  { intros Ha.
    assert (i ∈ filter (λ i, arrival_time (ps !!! i) ≤ t
                             ∧ remaining_time (ps !!! i) > 0)
                       (seq 0 (length ps))) as Hin.
    { apply list_elem_of_filter. split; [lia|]. apply elem_of_seq. lia. }
    rewrite Havail in Hin. by apply elem_of_nil in Hin. }
  rewrite (arrival_time_lookup _ _ i Hspec) in Hlate.
  assert (arrival_time (ps0 !!! i) ≤ max_arrival ps0).
  { apply max_arrival_ge, list_elem_of_lookup_total_2.
    rewrite <-(spec_of_length _ _ Hspec). lia. }
  lia.
Qed.

(** ... and everything that has arrived is finished, while some process
    is still to come. *)
Lemma nothing_ready (ps0 ps : list Process) t :
  spec_of <$> ps = spec_of <$> ps0 →
  Forall (λ p, 0 ≤ remaining_time p) ps →
  (ndone ps < length ps)%nat →
  filter (λ i, arrival_time (ps !!! i) ≤ t ∧ remaining_time (ps !!! i) > 0)
         (seq 0 (length ps)) = [] →
  (∀ i, (i < length ps0)%nat → arrival_time (ps0 !!! i) < t + 1 →
        remaining_time (ps !!! i) = 0)
  ∧ ∃ i, (i < length ps0)%nat ∧ t + 1 ≤ arrival_time (ps0 !!! i).
Proof.
  intros Hspec Hnonneg Hnd Havail.
  pose proof (spec_of_length _ _ Hspec) as Hlen.
  assert (∀ i, (i < length ps0)%nat → arrival_time (ps0 !!! i) < t + 1 →
            remaining_time (ps !!! i) = 0) as Hdone.
  { intros i Hi Ha. rewrite <-(arrival_time_lookup _ _ i Hspec) in Ha.
    pose proof (Forall_lookup_total_1 _ _ i Hnonneg ltac:(lia)) as Hr.
    simpl in Hr.
    destruct (decide (remaining_time (ps !!! i) = 0)) as [|Hnz]; [done|].
    assert (i ∈ filter (λ i, arrival_time (ps !!! i) ≤ t
                             ∧ remaining_time (ps !!! i) > 0)
                       (seq 0 (length ps))) as Hin.
    { apply list_elem_of_filter. split; [lia|]. apply elem_of_seq. lia. }
    rewrite Havail in Hin. by apply elem_of_nil in Hin. }
  split; [done|].
  destruct (ndone_lt_exists ps Hnd) as (i & Hi & Hri).
  exists i. split; [lia|].
  destruct (decide (t + 1 ≤ arrival_time (ps0 !!! i))) as [|Hlt]; [done|].
  destruct Hri. apply Hdone; lia.
Qed.

Lemma proc_inv_nonneg t ps :
  Forall (proc_inv t) ps → Forall (λ p, 0 ≤ remaining_time p) ps.
Proof.
  intros H. eapply Forall_impl; [exact H|].
  intros p Hp. unfold proc_inv in Hp. lia.
Qed.

(** The two kinds of iteration of the STCF loop, on any state: the body
    never raises. *)
Lemma stcf_body_cases st :
  let ps := stcf_procs st in
  let t := stcf_time st in
  (filter (λ i, arrival_time (ps !!! i) ≤ t ∧ remaining_time (ps !!! i) > 0)
     (seq 0 (length ps)) = []
   ∧ stcf_body st
     = Ok (mkSTCF ps (t + 1) (stcf_completed st) (stcf_timeline st)))
  ∨ ∃ cur, (cur < length ps)%nat ∧ arrival_time (ps !!! cur) ≤ t
      ∧ remaining_time (ps !!! cur) > 0
      ∧ stcf_body st
        = Ok (mkSTCF (<[cur := stcf_dispatched t (ps !!! cur)]> ps) (t + 1)
                (if decide (remaining_time (ps !!! cur) - 1 = 0)
                 then stcf_completed st ++ [cur] else stcf_completed st)
                (timeline_merge (stcf_timeline st) (plabel (ps !!! cur)) t
                   (t + 1))).
Proof.
  destruct st as [ps t completed tl]. simpl. unfold stcf_body. simpl.
  destruct (filter _ (seq 0 (length ps))) as [|a avail] eqn:Havail;
    [by left|right].
  destruct (py_min_spec (λ i, remaining_time (ps !!! i)) (a :: avail))
    as (cur & l1 & l2 & -> & Hcur & _ & _); [done|].
  cbn [obind].
  assert (cur ∈ filter (λ i, arrival_time (ps !!! i) ≤ t
                             ∧ remaining_time (ps !!! i) > 0)
                       (seq 0 (length ps))) as Hin
    by (rewrite Havail, Hcur; apply elem_of_middle).
  apply list_elem_of_filter in Hin as [[Harr Hpos] Hcn%elem_of_seq].
  exists cur. split_and!; [lia|done|done|].
  unfold stcf_dispatched.
  destruct (decide (first_run (ps !!! cur) = -1)); simpl; by case_decide.
Qed.

(** The two kinds of iteration of the Round-Robin loop on valid input: an
    idle unit before the last arrival, or a slice for the process at the
    front of the queue. *)
Lemma rr_body_cases ps0 quantum st st' :
  valid_input ps0 → 0 < quantum →
  rr_inv ps0 st → rr_cond st = true → rr_body quantum st = Ok st' →
  (rr_procs st' = rr_procs st ∧ rr_time st' = rr_time st + 1
   ∧ rr_timeline st' = rr_timeline st
   ∧ rr_time st + 1 ≤ max_arrival ps0
   ∧ (∀ i, (i < length ps0)%nat →
           arrival_time (ps0 !!! i) < rr_time st + 1 →
           remaining_time (rr_procs st !!! i) = 0)
   ∧ ∃ i, (i < length ps0)%nat ∧ rr_time st + 1 ≤ arrival_time (ps0 !!! i))
  ∨ ∃ c, (c < length ps0)%nat
      ∧ remaining_time (rr_procs st !!! c) > 0
      ∧ arrival_time (ps0 !!! c) ≤ rr_time st
      ∧ let p0 := rr_procs st !!! c in
        let x := Z.min quantum (remaining_time p0) in
        let p2 := rr_dispatched quantum (rr_time st) p0 in
        rr_procs st'
        = <[c := if decide (remaining_time p2 = 0)
                 then set_completion_time (rr_time st + x) p2 else p2]>
            (rr_procs st)
        ∧ rr_time st' = rr_time st + x
        ∧ rr_timeline st'
          = rr_timeline st ++ [(plabel (ps0 !!! c), rr_time st, rr_time st + x)].
Proof.
  intros Hvalid Hq Hinv Hcond.
  pose proof (rr_inv_wf ps0 Hvalid st Hinv) as Hwf.
  destruct Hinv as [Hspec Ht0 Hproc Hnd _ _ _ _ Hqok _ _].
  pose proof (spec_of_length _ _ Hspec) as Hlen.
  destruct (rr_queue st
            ++ rr_arrivals (rr_procs st) (rr_time st) None (rr_queue st))
    as [|c rest] eqn:Hq1.
  - rewrite (rr_body_idle quantum st Hwf Hq1). intros [= <-]. left. simpl.
    apply app_eq_nil in Hq1 as [Hq0 Hnew].
    unfold rr_cond in Hcond. rewrite Hq0 in Hcond. simpl in Hcond.
    apply bool_decide_eq_true in Hcond.
    assert (filter (λ i, arrival_time (rr_procs st !!! i) ≤ rr_time st
                         ∧ remaining_time (rr_procs st !!! i) > 0)
                   (seq 0 (length (rr_procs st))) = []) as Havail.
    { rewrite <-Hnew. unfold rr_arrivals. apply filter_ext_in.
      intros i _. unfold rr_eligible. rewrite Hq0.
      split; [intros (? & ?)|intros (? & _ & ? & _)]; split_and!; try done.
      apply not_elem_of_nil. }
    pose proof (proc_inv_nonneg _ _ Hproc) as Hnonneg.
    destruct (nothing_ready ps0 (rr_procs st) (rr_time st) Hspec Hnonneg
                ltac:(lia) Havail) as [Hdone Hnext].
    split_and!; try done.
    apply (idle_before_last_arrival ps0 (rr_procs st)); try done. lia.
  - rewrite (rr_body_run quantum st c rest Hwf Hq1). cbn zeta.
    intros Hb. right. exists c.
    assert (c ∈ rr_queue st
                ++ rr_arrivals (rr_procs st) (rr_time st) None (rr_queue st))
      as Hc by (rewrite Hq1; left).
    assert ((c < length ps0)%nat ∧ remaining_time (rr_procs st !!! c) > 0
            ∧ arrival_time (ps0 !!! c) ≤ rr_time st)
      as (Hcn & Hpos & Harr).
    { apply elem_of_app in Hc
        as [Hc|[(Ha & _ & Hr & _) Hcn]%rr_arrivals_elem].
      - by destruct (Hqok c Hc) as (? & ? & ?).
      - rewrite <-(arrival_time_lookup _ _ c Hspec). split_and!; [lia|done..]. }
    split; [done|]. split; [done|]. split; [done|].
    rewrite <-(plabel_lookup _ _ c Hspec) by done.
    destruct (decide (remaining_time
                (rr_dispatched quantum (rr_time st) (rr_procs st !!! c)) = 0));
      by injection Hb as <-.
Qed.

(** ** Idle time and slices of the preemptive policies *)

Lemma tl_gap_free_gaps lo tl : tl_gap_free lo tl → tl_gaps lo tl = [].
Proof.
  revert lo. induction tl as [|e tl IH]; intros lo; [done|].
  intros (Hlo & _ & Hrest). simpl.
  rewrite decide_False by lia. by apply IH.
Qed.

Lemma tl_gaps_app lo tl1 tl2 :
  tl_gaps lo (tl1 ++ tl2) = tl_gaps lo tl1 ++ tl_gaps (tl_end_of lo tl1) tl2.
Proof.
  revert lo. induction tl1 as [|e tl1 IH]; intros lo; [done|].
  simpl. by rewrite IH, tl_end_of_cons, app_assoc.
Qed.

Lemma tl_gaps_snoc lo tl e :
  tl_gaps lo (tl ++ [e])
  = tl_gaps lo tl
    ++ (if decide (tl_end_of lo tl < tl_start e)
        then [(tl_end_of lo tl, tl_start e)] else []).
Proof. rewrite tl_gaps_app. simpl. by rewrite app_nil_r. Qed.

(** A unit or slice from [t] to [t'] after a timeline that ends at [t] or
    before: at most one more gap, the one up to [t]. *)
Lemma tl_extends_gaps lbl t t' tl tl' :
  tl_extends lbl t t' tl tl' → tl_end_of 0 tl ≤ t →
  tl_end_of 0 tl' = t'
  ∧ tl_gaps 0 tl'
    = tl_gaps 0 tl
      ++ (if decide (tl_end_of 0 tl < t) then [(tl_end_of 0 tl, t)] else []).
Proof.
  intros [->|(tl0 & s0 & -> & ->)] Hend.
  - by rewrite tl_end_of_snoc, tl_gaps_snoc.
  - rewrite !tl_end_of_snoc, !tl_gaps_snoc. simpl.
    rewrite (decide_False (P := t < t)) by lia. by rewrite app_nil_r.
Qed.

Lemma run_gaps_init ps0 :
  Forall valid_process ps0 →
  run_gaps ps0 ((λ p, Process_init (pid p) (arrival_time p) (burst_time p))
                  <$> ps0) 0 [].
Proof.
  intros Hv. constructor.
  - intros i Hi. rewrite (list_lookup_total_fmap _ ps0 i Hi). simpl.
    pose proof (Forall_lookup_total_1 _ _ i Hv Hi) as [_ ?]. lia.
  - constructor.
  - unfold tl_end_of. simpl. lia.
Qed.

(** An idle unit: nothing that has arrived is unfinished. *)
Lemma run_gaps_wait ps0 procs t t' tl :
  run_gaps ps0 procs t tl →
  (∀ i, (i < length ps0)%nat → arrival_time (ps0 !!! i) < t' →
        remaining_time (procs !!! i) = 0) →
  run_gaps ps0 procs t' tl.
Proof.
  intros [Hdone Hclosed Hopen] Hidle. constructor; [done|done|].
  intros _ i Hi.
  destruct (decide (arrival_time (ps0 !!! i) < t')) as [Ha|]; [left|right; lia].
  split; [by apply Hidle|]. apply Hdone; [done|]. by apply Hidle.
Qed.

(** A unit or slice for the process at [cur], which had arrived and was
    not finished. *)
Lemma run_gaps_dispatch ps0 procs p' cur lbl t t' tl tl' :
  run_gaps ps0 procs t tl → (cur < length ps0)%nat →
  length procs = length ps0 →
  tl_end_of 0 tl ≤ t → t ≤ t' → tl_extends lbl t t' tl tl' →
  arrival_time (ps0 !!! cur) ≤ t → remaining_time (procs !!! cur) ≠ 0 →
  (remaining_time p' = 0 → completion_time p' = t') →
  run_gaps ps0 (<[cur := p']> procs) t' tl'.
Proof.
  intros [Hdone Hclosed Hopen] Hcur Hlen Hend Htt Hext Harr Hrem Hcompl.
  destruct (tl_extends_gaps _ _ _ _ _ Hext Hend) as [Hend' Hgaps].
  assert (∀ lo hi, idle_at ps0 procs lo hi →
                   idle_at ps0 (<[cur := p']> procs) lo hi
                   ∧ hi ≤ arrival_time (ps0 !!! cur)) as Hkeep.
  { intros lo hi Hidle. split.
    - intros i Hi. destruct (decide (i = cur)) as [->|Hne].
      + right. destruct (Hidle cur Hcur) as [[? _]|?]; [done|lia].
      + rewrite list_lookup_total_insert_ne by done. by apply Hidle.
    - destruct (Hidle cur Hcur) as [[? _]|?]; [done|lia]. }
  constructor.
  - intros i Hi. rewrite Hend'. destruct (decide (i = cur)) as [->|Hne].
    + rewrite list_lookup_total_insert_eq by lia. intros Hz.
      rewrite (Hcompl Hz). lia.
    + rewrite list_lookup_total_insert_ne by done. intros Hz.
      specialize (Hdone i Hi Hz). lia.
  - rewrite Hgaps. apply Forall_app. split.
    + eapply Forall_impl; [exact Hclosed|]. simpl.
      intros g [Hidle Hex]. split; [|done]. by apply Hkeep.
    + destruct (decide (tl_end_of 0 tl < t)) as [Hgap|]; [|constructor].
      apply Forall_singleton. simpl.
      destruct (Hkeep _ _ (Hopen Hgap)) as [Hidle ?].
      split; [done|]. exists cur. split; [done|lia].
  - rewrite Hend'. lia.
Qed.

(** At the end of a run, on the final states. *)
Lemma run_gaps_final ps0 procs t tl :
  spec_of <$> procs = spec_of <$> ps0 →
  run_gaps ps0 procs t tl →
  Forall (idle_gap (metrics_of <$> procs)) (tl_gaps 0 tl).
Proof.
  intros Hspec [_ Hclosed _].
  pose proof (spec_of_length _ _ Hspec) as Hlen.
  eapply Forall_impl; [exact Hclosed|]. simpl.
  intros g [Hidle (i & Hi & Ha)]. split.
  - rewrite Forall_fmap. apply (Forall_lookup_total_2 _ procs).
    intros j Hj. simpl.
    rewrite (arrival_time_lookup _ _ j Hspec).
    destruct (Hidle j ltac:(lia)) as [[_ ?]|?]; [by left|by right].
  - rewrite Exists_fmap. apply Exists_exists. exists (procs !!! i).
    split; [apply list_elem_of_lookup_total_2; lia|]. simpl.
    by rewrite (arrival_time_lookup _ _ i Hspec).
Qed.

Lemma stcf_dispatched_completion t p :
  remaining_time (stcf_dispatched t p) = 0 →
  completion_time (stcf_dispatched t p) = t + 1.
Proof.
  unfold stcf_dispatched.
  destruct (decide (first_run p = -1)); simpl; by case_decide.
Qed.

Lemma stcf_body_gaps ps0 st st' :
  stcf_inv ps0 st → stcf_cond st = true →
  run_gaps ps0 (stcf_procs st) (stcf_time st) (stcf_timeline st) →
  stcf_body st = Ok st' →
  run_gaps ps0 (stcf_procs st') (stcf_time st') (stcf_timeline st').
Proof.
  intros [Hspec _ Hproc Hndone _ Hend _ _ _ _] Hcond Hgaps Hbody.
  apply bool_decide_eq_true in Hcond.
  pose proof (spec_of_length _ _ Hspec) as Hlen.
  destruct (stcf_body_cases st) as [[Havail Hb]|(cur & Hcur & Harr & Hpos & Hb)];
    rewrite Hb in Hbody; injection Hbody as <-; simpl.
  - destruct (nothing_ready ps0 _ _ Hspec (proc_inv_nonneg _ _ Hproc)
                ltac:(lia) Havail) as [Hdone _].
    by apply (run_gaps_wait _ _ (stcf_time st)).
  - rewrite (arrival_time_lookup _ _ cur Hspec) in Harr.
    eapply run_gaps_dispatch; try done; try lia.
    + apply timeline_merge_extends.
    + apply stcf_dispatched_completion.
Qed.

Lemma stcf_run_gaps s :
  valid_input (original_processes s) → original_processes s ≠ [] →
  ∃ s', completes STCF s s'
        ∧ Forall (idle_gap (processes s')) (tl_gaps 0 (timeline s')).
Proof.
  intros Hvalid Hne.
  set (ps0 := original_processes s) in *.
  set (J := λ st : STCFState,
         run_gaps ps0 (stcf_procs st) (stcf_time st) (stcf_timeline st)).
  destruct (while_total_with stcf_cond stcf_body (stcf_inv ps0) J
              (stcf_measure ps0) (stcf_body_step ps0 Hvalid)) with
    (st := mkSTCF (processes (reset_processes s)) 0 [] [])
    as (st & Hwhile & Hinv & Hgaps & Hcond).
  - intros st st' HI HJ Hc Hb. by eapply stcf_body_gaps.
  - by apply stcf_inv_init.
  - apply run_gaps_init. by destruct Hvalid.
  - destruct Hinv as [Hspec _ _ _ _ _ _ _ _ _].
    eexists. split.
    + eexists. simpl. simpl in Hwhile. unfold ps0 in Hwhile.
      by rewrite Hwhile.
    + simpl. by eapply run_gaps_final.
Qed.

(** *** Round Robin *)

Lemma tl_slices_snoc quantum tl e' :
  tl_slices quantum (tl ++ [e']) ↔
  tl_slices quantum tl
  ∧ (∀ e, last tl = Some e → tl_label e = tl_label e' →
          tl_end e - tl_start e = quantum ∧ tl_start e' = tl_end e).
Proof.
  induction tl as [|e tl IH].
  { simpl. split; [intros _; split; [done|by intros ? [=]]|done]. }
  destruct tl as [|e2 tl].
  { simpl. split.
    - intros [H _]. split; [done|]. by intros e0 [= <-].
    - intros [_ H]. split; [|done]. by apply H. }
  rewrite last_cons_cons.
  change (tl_slices quantum ((e :: e2 :: tl) ++ [e']))
    with ((tl_label e = tl_label e2 →
           tl_end e - tl_start e = quantum ∧ tl_start e2 = tl_end e)
          ∧ tl_slices quantum ((e2 :: tl) ++ [e'])).
  change (tl_slices quantum (e :: e2 :: tl))
    with ((tl_label e = tl_label e2 →
           tl_end e - tl_start e = quantum ∧ tl_start e2 = tl_end e)
          ∧ tl_slices quantum (e2 :: tl)).
  rewrite IH. tauto.
Qed.

Lemma rr_body_gaps ps0 quantum st st' :
  valid_input ps0 → 0 < quantum →
  rr_inv ps0 st → rr_cond st = true →
  run_gaps ps0 (rr_procs st) (rr_time st) (rr_timeline st)
  ∧ rr_unmerged ps0 quantum st →
  rr_body quantum st = Ok st' →
  run_gaps ps0 (rr_procs st') (rr_time st') (rr_timeline st')
  ∧ rr_unmerged ps0 quantum st'.
Proof.
  intros Hvalid Hq Hinv Hcond [Hgaps [Hsl Hlast]] Hb.
  destruct (rr_body_cases ps0 quantum st st' Hvalid Hq Hinv Hcond Hb)
    as [(Hp & Ht & Htl & _ & Hdone & _)|(c & Hc & Hpos & Harr & Hst')].
  - rewrite Hp, Ht, Htl. split.
    + by apply (run_gaps_wait _ _ (rr_time st)).
    + constructor; rewrite ?Hp, ?Ht, ?Htl; [done|]. intros e i He Hi Hl Hr.
      destruct (Hlast e i He Hi Hl Hr) as (_ & _ & Ha).
      specialize (Hdone i Hi ltac:(lia)). lia.
  - cbn zeta in Hst'. destruct Hst' as (Hp & Ht & Htl).
    destruct Hinv as [Hspec _ _ _ _ Hend _ _ _ _ _].
    pose proof (spec_of_length _ _ Hspec) as Hlen.
    pose proof (rr_dispatched_remaining quantum (rr_time st)
                  (rr_procs st !!! c)) as Hr2.
    set (x := Z.min quantum (remaining_time (rr_procs st !!! c))) in *.
    set (p2 := rr_dispatched quantum (rr_time st) (rr_procs st !!! c)) in *.
    rewrite Hp, Ht, Htl. split.
    + eapply run_gaps_dispatch; try done; try lia.
      * by left.
      * destruct (decide (remaining_time p2 = 0)); [|done]. by intros _.
    + constructor; rewrite ?Hp, ?Ht, ?Htl.
      * apply tl_slices_snoc. split; [done|]. intros e He Hl.
        destruct (Hlast e c He Hc Hl Hpos) as (? & ? & _). done.
      * intros e i He Hi Hl. rewrite last_snoc in He. injection He as <-.
        simpl in Hl. apply (valid_input_plabel ps0) in Hl as <-; try done.
        rewrite list_lookup_total_insert_eq by lia.
        assert (remaining_time
                  (if decide (remaining_time p2 = 0)
                   then set_completion_time (rr_time st + x) p2 else p2)
                = remaining_time p2) as -> by by case_decide.
        intros Hr. unfold tl_start, tl_end. simpl. lia.
Qed.

Lemma rr_run_gaps quantum s :
  valid_input (original_processes s) → 0 < quantum →
  original_processes s ≠ [] →
  ∃ s', completes (RR quantum) s s'
        ∧ Forall (idle_gap (processes s')) (tl_gaps 0 (timeline s'))
        ∧ tl_slices quantum (timeline s').
Proof.
  intros Hvalid Hq Hne.
  set (ps0 := original_processes s) in *.
  set (J := λ st : RRState,
         run_gaps ps0 (rr_procs st) (rr_time st) (rr_timeline st)
         ∧ rr_unmerged ps0 quantum st).
  pose proof (rr_inv_init ps0 Hvalid Hne) as Hinit. cbn zeta in Hinit.
  destruct (while_total_with rr_cond (rr_body quantum) (rr_inv ps0) J
              (rr_measure ps0) (rr_body_step ps0 Hvalid quantum Hq)) with
    (st := mkRR (processes (reset_processes s)) 0
             (rr_initial (processes (reset_processes s))).1 []
             (rr_initial (processes (reset_processes s))).2 [])
    as (st & Hwhile & Hinv & [Hgaps [Hsl _]] & Hcond).
  - intros st st' HI HJ Hc Hb. by eapply rr_body_gaps.
  - done.
  - split.
    + apply run_gaps_init. by destruct Hvalid.
    + constructor; [done|]. by intros e i [=].
  - destruct Hinv as [Hspec _ _ _ _ _ _ _ _ _ _].
    eexists. split; [|split].
    + unfold completes. simpl. simpl in Hwhile.
      unfold ps0 in Hwhile. destruct (rr_initial _) as [q0 inq0].
      simpl in Hwhile. eexists. by rewrite Hwhile.
    + simpl. by eapply run_gaps_final.
    + done.
Qed.

(** ** The claims *)


(** *** C1 *)






(** On duplicate pids Round Robin can end in a [KeyError] of
    [in_queue.remove], after both processes have run. *)
Example rr_duplicate_pid_KeyError :
  run (RR 3) 10 (SchedulerSimulator_init [Process_init 1 0 1; Process_init 1 0 1])
  = Raise KeyError.
Proof. vm_compute. reflexivity. Qed.

(** With quantum 0 Round Robin raises nothing either: every slice has
    length 0, the process is queued again with all its work left, and the
    loop never ends. *)
Example rr_quantum_zero_never_returns fuel :
  run (RR 0) fuel (SchedulerSimulator_init [Process_init 1 0 5]) = OutOfFuel.
Proof.
  assert (∀ fuel p tl,
    pid p = 1 → arrival_time p = 0 → remaining_time p = 5 →
    while rr_cond (rr_body 0) fuel
      (mkRR [p] 0 [0%nat] [] (pidset [p] [0%nat]) tl) = OutOfFuel) as Hloop.
  { clear fuel. induction fuel as [|fuel IH]; intros p tl Hpid Harr Hrem;
      [done|].
    simpl.
    assert (rr_wf (mkRR [p] 0 [0%nat] [] (pidset [p] [0%nat]) tl)) as Hwf.
    { split_and!; simpl; [apply NoDup_singleton|apply NoDup_singleton| |done].
      intros j ->%list_elem_of_singleton. lia. }
    assert (rr_arrivals [p] 0 None [0%nat] = []) as Hnone.
    { unfold rr_arrivals. simpl. rewrite filter_cons_False; [done|].
      intros (_ & Hni & _). apply Hni. left. }
    rewrite (rr_body_run 0 _ 0%nat [] Hwf) by (simpl; by rewrite Hnone).
    cbn zeta. simpl rr_procs. simpl rr_time. simpl rr_timeline.
    change ([p] !!! 0%nat) with p.
    set (p2 := rr_dispatched 0 0 p).
    assert (remaining_time p2 = 5) as Hr2
      by (unfold p2; rewrite rr_dispatched_remaining; lia).
    pose proof (rr_dispatched_spec_of 0 0 p) as (Hp2 & Ha2 & _)%spec_of_eq.
    fold p2 in Hp2, Ha2.
    rewrite decide_False by lia. rewrite Hrem.
    assert (rr_arrivals (<[0%nat := p2]> [p]) (0 + 0 `min` 5) (Some 0%nat) []
            = []) as ->.
    { unfold rr_arrivals. simpl. rewrite filter_cons_False; [done|].
      intros (_ & _ & _ & Hskip). done. }
    simpl app. simpl rr_completed.
    assert (pidset [p] [0%nat] = pidset [p2] [0%nat]) as ->.
    { apply pidset_spec_of. change ([spec_of p] = [spec_of p2]).
      f_equal. symmetry. apply rr_dispatched_spec_of. }
    apply IH; [congruence|congruence|done]. }
  simpl. unfold rr_schedule. rewrite rr_initial_spec. simpl.
  rewrite filter_cons_True by done. simpl.
  change (filter _ []) with (@nil nat).
  by rewrite Hloop.
Qed.

(** The one exception a valid input can meet: an average beyond the range
    of a float makes the division in [print_results] raise
    [OverflowError]. *)
Example fifo_overflow :
  let s := SchedulerSimulator_init [Process_init 1 0 (10 ^ 400)] in
  valid_input (original_processes s)
  ∧ run FIFO 0 s = Raise OverflowError
  ∧ ∃ s', completes FIFO s s' ∧ timeline s' = [("P1", 0, 10 ^ 400)].
Proof.
  split; [compute_done|]. split; [vm_compute; reflexivity|].
  eexists. split; [exists 0%nat; vm_compute; reflexivity|].
  vm_compute. reflexivity.
Qed.



(** *** C2 *)

(** C2, as the spec states it, fails on the code, in three ways.  STCF and
    RR record no [IDLE] entry while they wait, so under either a process
    arriving at 2 leaves the timeline starting at 2, not at 0; and RR
    appends one entry per slice and merges nothing, so a process that runs
    for two slices in a row shows as two entries with the same label. *)
Lemma timeline_gap_counterexample :
  (let s := SchedulerSimulator_init [Process_init 1 2 1] in
   valid_input (original_processes s)
   ∧ ∃ r, returns STCF s r
          ∧ timeline r.1 = [("P1", 2, 3)]
          ∧ ¬ tl_gap_free 0 (timeline r.1))
  ∧ (let s := SchedulerSimulator_init [Process_init 1 2 1] in
     valid_input (original_processes s)
     ∧ ∃ r, returns (RR 3) s r
            ∧ timeline r.1 = [("P1", 2, 3)]
            ∧ ¬ tl_gap_free 0 (timeline r.1))
  ∧ (let s := SchedulerSimulator_init [Process_init 1 0 5] in
     valid_input (original_processes s)
     ∧ ∃ r, returns (RR 3) s r
            ∧ timeline r.1 = [("P1", 0, 3); ("P1", 3, 5)]
            ∧ ¬ tl_merged (timeline r.1)).
Proof.
  split_and!; (split; [compute_done|]); eexists;
    (split; [exists 10%nat; vm_compute; reflexivity|]);
    (split; [reflexivity|]); simpl.
  - intros [H _]. by compute in H.
  - intros [H _]. by compute in H.
  - intros [H _]. by apply H.
Qed.

(** C2 (amended).  For every valid, non-empty input and every policy the
    simulation completes; its timeline is an ordered sequence of entries
    with [start < end], none starting before 0 or before the end of the
    entry in front of it (no overlaps), and the last one ending at the
    makespan, the largest completion time.  Where the timeline leaves a
    gap, between 0 and the first entry or between two entries, the
    processor is idle for all of it and no longer: every process has
    completed by the time the gap opens or arrives no sooner than it
    closes, and some process arrives exactly when it closes.  For FIFO and
    SJF there is no gap at all (idle time is an [IDLE] entry: the timeline
    covers [[0, makespan)]) and no two consecutive entries share a label.
    For STCF no two consecutive entries share a label.  For RR two
    consecutive entries may share a label: then the first is a full
    quantum long and the second starts where it ends. *)
Theorem timeline_shape pol s :
  valid_input (original_processes s) → valid_policy pol →
  original_processes s ≠ [] →
  ∃ s', completes pol s s'
       ∧ tl_ordered 0 (timeline s')
       ∧ tl_end_of 0 (timeline s') = makespan (processes s')
       ∧ Forall (idle_gap (processes s')) (tl_gaps 0 (timeline s'))
       ∧ match pol with
         | FIFO | SJF =>
             tl_gap_free 0 (timeline s') ∧ tl_merged (timeline s')
         | STCF => tl_merged (timeline s')
         | RR quantum => tl_slices quantum (timeline s')
         end.
Proof.
  intros Hvalid Hpol Hne.
  destruct (run_valid pol s Hvalid Hpol Hne)
    as (s' & Hs' & (_ & _ & _ & Hord & _) & Hend & Hshape).
  exists s'. split_and!; try done.
  - destruct pol as [| | |quantum].
    + destruct Hshape as [Hfree _]. by rewrite (tl_gap_free_gaps _ _ Hfree).
    + destruct Hshape as [Hfree _]. by rewrite (tl_gap_free_gaps _ _ Hfree).
    + destruct (stcf_run_gaps s Hvalid Hne) as (s2 & Hs2 & Hgaps).
      by rewrite (completes_deterministic _ _ _ _ Hs' Hs2).
    + destruct (rr_run_gaps quantum s Hvalid Hpol Hne)
        as (s2 & Hs2 & Hgaps & _).
      by rewrite (completes_deterministic _ _ _ _ Hs' Hs2).
  - destruct pol as [| | |quantum]; try done.
    destruct (rr_run_gaps quantum s Hvalid Hpol Hne)
      as (s2 & Hs2 & _ & Hsl).
    by rewrite (completes_deterministic _ _ _ _ Hs' Hs2).
Qed.

Lemma timeline_shape_witness :
  let s := SchedulerSimulator_init
             [Process_init 1 2 7; Process_init 2 12 2] in
  ∃ s', completes (RR 3) s s'
       ∧ tl_ordered 0 (timeline s')
       ∧ tl_end_of 0 (timeline s') = makespan (processes s')
       ∧ Forall (idle_gap (processes s')) (tl_gaps 0 (timeline s'))
       ∧ tl_slices 3 (timeline s').
Proof.
  intros s. apply (timeline_shape (RR 3) s).
  - compute_done.
  - done.
  - done.
Defined.

(** *** C3 *)

(** C3 (the code departs from it).  The spec wants an empty process list to
    give an empty timeline and absent averages, without an error.  In the
    code every policy gets through its loop and then divides the totals by
    [n = len(self.processes) = 0] in [print_results]: whatever the policy,
    the fuel and the state the simulator was left in, the call raises
    [ZeroDivisionError]. *)
Theorem empty_input_raises pol fuel ps tl :
  run pol fuel (mkSim [] ps tl) = Raise ZeroDivisionError.
Proof. destruct pol, fuel; reflexivity. Qed.

(** *** C4 *)

(** C4.  FIFO on [P1(0,5), P2(1,3), P3(2,8), P4(3,6)]: completions
    5, 8, 16, 22; turnarounds 5, 7, 14, 19 with average 11.25; waiting
    times 0, 4, 6, 13 with average 5.75; response times equal to the
    waiting times (and so is their average). *)
Theorem fifo_scenario :
  ∃ s' avg,
    (∀ fuel, run FIFO fuel (SchedulerSimulator_init main_processes)
             = Ok (s', avg))
    ∧ (λ p, (pid p, completion_time p)) <$> processes s'
      = [(1, 5); (2, 8); (3, 16); (4, 22)]
    ∧ turnaround_time <$> processes s' = [5; 7; 14; 19]
    ∧ Qeq (avg_tat avg) (1125 # 100)
    ∧ waiting_time <$> processes s' = [0; 4; 6; 13]
    ∧ Qeq (avg_wt avg) (575 # 100)
    ∧ response_time <$> processes s' = waiting_time <$> processes s'
    ∧ Qeq (avg_rt avg) (575 # 100).
Proof.
  eexists _, _. split; [intros fuel; vm_compute; reflexivity|].
  split_and!; reflexivity.
Qed.

(** *** C5 *)

(** C5.  For every valid, non-empty input and every policy the simulation
    completes, and the lengths of the timeline entries that are not [IDLE]
    add up to the sum of the burst times of the input. *)
Theorem busy_time_is_total_burst pol s :
  valid_input (original_processes s) → valid_policy pol →
  original_processes s ≠ [] →
  ∃ s', completes pol s s'
        ∧ busy (timeline s') = total burst_time (original_processes s).
Proof.
  intros Hvalid Hpol Hne.
  destruct (run_valid pol s Hvalid Hpol Hne)
    as (s' & Hs' & (_ & _ & _ & _ & Hbusy) & _).
  by exists s'.
Qed.

Lemma busy_time_is_total_burst_witness :
  ∃ s', completes (RR 3) (SchedulerSimulator_init main_processes) s'
        ∧ busy (timeline s') = total burst_time main_processes.
Proof.
  apply (busy_time_is_total_burst (RR 3)
           (SchedulerSimulator_init main_processes)).
  - compute_done.
  - simpl. lia.
  - done.
Defined.

(** *** C6 *)

(** C6.  One iteration of the Round-Robin loop that finds a process [c] at
    the front of the ready queue (after the scan at the top of the loop),
    in a state with unique pids, [in_queue] in step with [queue], and
    every queued process already arrived.  The process runs for exactly
    [min(quantum, remaining_time)] units, the clock advances by as much and
    one timeline entry is appended for the slice.  The queue then holds the
    processes that were behind [c], followed by those that arrived during
    the slice (arrival in [(start, current_time]], work left), in
    process-list order, and only then [c] itself if it has work left; if it
    has none, its [completion_time] is the current time, it joins
    [completed] and is not queued again. *)
Theorem rr_dispatch quantum st c rest inq1 :
  rr_wf st →
  (∀ i, i ∈ rr_queue st → arrival_time (rr_procs st !!! i) ≤ rr_time st) →
  rr_scan (rr_procs st) (rr_time st) None (rr_queue st) (rr_in_queue st)
    = (c :: rest, inq1) →
  let ps := rr_procs st in
  let t := rr_time st in
  let p := ps !!! c in
  let execution_time := Z.min quantum (remaining_time p) in
  let t' := t + execution_time in
  let arrived :=
    filter (λ i, t < arrival_time (ps !!! i) ≤ t'
                 ∧ remaining_time (ps !!! i) > 0)
           (seq 0 (length ps)) in
  ∃ st', rr_body quantum st = Ok st'
    ∧ rr_time st' = t'
    ∧ rr_timeline st' = rr_timeline st ++ [(plabel p, t, t')]
    ∧ remaining_time (rr_procs st' !!! c) = remaining_time p - execution_time
    ∧ (∀ i, i ≠ c → rr_procs st' !!! i = ps !!! i)
    ∧ rr_in_queue st' = pidset ps (rr_queue st')
    ∧ if decide (remaining_time p - execution_time = 0)
      then rr_queue st' = rest ++ arrived
           ∧ completion_time (rr_procs st' !!! c) = t'
           ∧ rr_completed st' = rr_completed st ++ [c]
      else rr_queue st' = rest ++ arrived ++ [c]
           ∧ rr_completed st' = rr_completed st.
Proof.
  intros Hwf Harr Hscan ps t p execution_time t' arrived.
  pose proof Hwf as (Hnd & Hq & Hb & Hinq).
  rewrite Hinq, rr_scan_spec in Hscan by done. injection Hscan as Hq1 _.
  rewrite (rr_body_run quantum st c rest Hwf Hq1). cbn zeta.
  fold ps t p in Hq1 |- *. fold execution_time t'.
  set (p2 := rr_dispatched quantum t p).
  assert (remaining_time p2 = remaining_time p - execution_time) as Hr2
    by apply rr_dispatched_remaining.
  assert (c < length ps)%nat as Hc.
  { assert (c ∈ rr_queue st ++ rr_arrivals ps t None (rr_queue st)) as Hin
      by (rewrite Hq1; left).
    apply elem_of_app in Hin as [?|[_ ?]%rr_arrivals_elem]; auto. }
  (* everything that has arrived by [t] with work left is queued *)
  assert (∀ i, (i < length ps)%nat → arrival_time (ps !!! i) ≤ t →
            remaining_time (ps !!! i) > 0 → i ∈ c :: rest) as Hqueued.
  { intros i Hi Ha Hr. rewrite <-Hq1. apply elem_of_app.
    destruct (decide (i ∈ rr_queue st)) as [|Hni]; [by left|right].
    apply rr_arrivals_elem. by split_and!. }
  (* everything queued has arrived by [t] *)
  assert (∀ i, i ∈ c :: rest → arrival_time (ps !!! i) ≤ t) as Harrived.
  { intros i. rewrite <-Hq1.
    intros [?|[(? & _) _]%rr_arrivals_elem]%elem_of_app; auto. }
  assert (NoDup (c :: rest)) as [Hc_rest Hrest]%NoDup_cons
    by (rewrite <-Hq1; by apply rr_arrivals_NoDup).
  assert (rr_arrivals (<[c := p2]> ps) t' (Some c) rest = arrived) as ->.
  { unfold rr_arrivals, arrived. rewrite length_insert.
    apply filter_ext_in. intros i Hi%elem_of_seq. unfold rr_eligible.
    destruct (decide (i = c)) as [->|Hic].
    - split; [intros (_ & _ & _ & ?); done|].
      intros [[Hlt _] _]. specialize (Harrived c ltac:(left)). lia.
    - rewrite list_lookup_total_insert_ne by done. split.
      + intros (Ha & Hni & Hr & _). split_and!; try done.
        destruct (decide (arrival_time (ps !!! i) ≤ t)) as [Hle|]; [|lia].
        pose proof (Hqueued i ltac:(lia) Hle Hr) as [->|?]%elem_of_cons; done.
      + intros [[Hlt Hle] Hr]. split_and!; try done; [|congruence].
        intros Hin. specialize (Harrived i ltac:(by right)). lia. }
  eexists. split; [done|]. rewrite Hr2.
  destruct (decide (remaining_time p - execution_time = 0)) as [Hz|Hz]; simpl.
  - split_and!; try done.
    + by rewrite list_lookup_total_insert_eq.
    + intros i Hi. by rewrite list_lookup_total_insert_ne.
    + by rewrite list_lookup_total_insert_eq.
  - split_and!; try done.
    + by rewrite list_lookup_total_insert_eq.
    + intros i Hi. by rewrite list_lookup_total_insert_ne.
    + by rewrite <-app_assoc.
Qed.

(** The first iteration of Round Robin with quantum 3 on the example of
    [main]: P1 runs for 3 of its 5 units, and P2, P3, P4, which arrived
    meanwhile, are queued in front of it. *)
Lemma rr_dispatch_witness :
  let ps := processes (reset_processes (SchedulerSimulator_init main_processes)) in
  let st := mkRR ps 0 [0%nat] [] (pidset ps [0%nat]) [] in
  ∃ st', rr_body 3 st = Ok st'
    ∧ rr_time st' = 3
    ∧ rr_timeline st' = [("P1", 0, 3)]
    ∧ remaining_time (rr_procs st' !!! 0%nat) = 2
    ∧ rr_queue st' = [1; 2; 3; 0]%nat
    ∧ rr_completed st' = [].
Proof.
  intros ps st.
  destruct (rr_dispatch 3 st 0%nat [] (pidset ps [0%nat]))
    as (st' & Hbody & Ht & Htl & Hr & _ & _ & Hq).
  - split_and!; [compute_done|compute_done| |done].
    intros j ->%list_elem_of_singleton. simpl. lia.
  - intros i ->%list_elem_of_singleton. simpl. lia.
  - vm_compute. reflexivity.
  - exists st'. simpl in Hq. destruct Hq as [Hq Hc].
    split_and!; done.
Defined.

(** *** C7 *)

(** The two kinds of iteration of the SJF loop, on any state. *)
Lemma sjf_body_cases st st' :
  sjf_body st = Ok st' →
  let ps := sjf_procs st in
  let t := sjf_time st in
  (∃ i0, i0 ∈ sjf_remaining st
     ∧ (∀ i, i ∈ sjf_remaining st →
          t < arrival_time (ps !!! i)
          ∧ arrival_time (ps !!! i0) ≤ arrival_time (ps !!! i))
     ∧ st' = mkSJF ps (arrival_time (ps !!! i0)) (sjf_completed st)
               (sjf_remaining st)
               (sjf_timeline st ++ [(IDLE, t, arrival_time (ps !!! i0))]))
  ∨ (∃ x r1 r2, sjf_remaining st = r1 ++ x :: r2 ∧ (x ∉ r1)
       ∧ arrival_time (ps !!! x) ≤ t
       ∧ py_min (λ i, burst_time (ps !!! i))
           (filter (λ i, arrival_time (ps !!! i) ≤ t) (sjf_remaining st))
         = Ok x
       ∧ st' = mkSJF (<[x := run_whole t (ps !!! x)]> ps)
                 (t + burst_time (ps !!! x)) (sjf_completed st ++ [x])
                 (r1 ++ r2)
                 (sjf_timeline st
                  ++ [(plabel (ps !!! x), t, t + burst_time (ps !!! x))])).
Proof.
  unfold sjf_body. destruct st as [ps t completed remaining tl]. simpl.
  destruct (filter _ remaining) as [|a avail] eqn:Havail.
  - intros (na & Hmin & [= <-])%obind_Ok. left.
    apply py_min_elem in Hmin as [Hin Hle].
    apply list_elem_of_fmap in Hin as (i0 & -> & Hi0).
    exists i0. split_and!; [done| |done].
    intros i Hi. split.
    + destruct (decide (arrival_time (ps !!! i) ≤ t)) as [Ha|]; [|lia].
      assert (i ∈ filter (λ i, arrival_time (ps !!! i) ≤ t) remaining) as Hf
        by by apply list_elem_of_filter.
      rewrite Havail in Hf. by apply elem_of_nil in Hf.
    + apply (Hle (arrival_time (ps !!! i))).
      apply list_elem_of_fmap. by exists i.
  - intros (x & Hmin & (rem' & Hrem & [= <-])%obind_Ok)%obind_Ok. right.
    pose proof (py_min_elem _ _ _ Hmin) as [Hin _].
    rewrite <-Havail in Hin.
    apply list_elem_of_filter in Hin as [Hxa Hxr].
    destruct (py_remove_spec x remaining Hxr) as (r1 & r2 & Heq & Hx1 & Hrem').
    rewrite Hrem in Hrem'. injection Hrem' as ->.
    exists x, r1, r2. by split_and!.
Qed.

Lemma StronglySorted_filter {A} (R : relation A) (P : A → Prop)
    `{!∀ x, Decision (P x)} l :
  StronglySorted R l → StronglySorted R (filter P l).
Proof.
  induction 1 as [|x l Hs IH Hx]; [constructor|].
  rewrite filter_cons. case_decide; [|done]. constructor; [done|].
  rewrite Forall_forall in Hx. apply Forall_forall.
  intros y [_ Hy]%list_elem_of_filter. by apply Hx.
Qed.

Lemma py_min_first_min key l x :
  StronglySorted lt l → py_min key l = Ok x → first_min key l x.
Proof.
  intros Hs Hmin. pose proof (py_min_elem key l x Hmin) as [Hin Hle].
  split_and!; [done|done|]. intros j Hj Hjx.
  destruct (py_min_spec key l) as (x' & l1 & l2 & Hmin' & -> & H1 & _).
  { intros ->. by apply elem_of_nil in Hin. }
  rewrite Hmin in Hmin'. injection Hmin' as <-.
  apply StronglySorted_app in Hs as (_ & _ & [Hx2 _]%StronglySorted_cons).
  rewrite Forall_forall in Hx2.
  apply elem_of_app in Hj as [Hj|[->|Hj]%elem_of_cons]; [by apply H1|lia|].
  specialize (Hx2 j Hj). lia.
Qed.

(** C7.  When the SJF loop finds a process available, the process that
    it removes from [remaining], runs to completion, labels the new
    timeline entry with and appends to [completed] is the first minimum of
    [burst_time] among the available processes, in input order, and no
    other process is touched; when the STCF loop runs a process for a
    unit, it is the first minimum of [remaining_time] among the available
    processes, in input order.  Neither pid nor arrival time enters the
    choice. *)
Theorem tie_break_first_in_input_order :
  (∀ st st',
     StronglySorted lt (sjf_remaining st) →
     let ps := sjf_procs st in
     let t := sjf_time st in
     let available :=
       filter (λ i, arrival_time (ps !!! i) ≤ t) (sjf_remaining st) in
     available ≠ [] → sjf_body st = Ok st' →
     ∃ shortest r1 r2,
       first_min (λ i, burst_time (ps !!! i)) available shortest
       ∧ sjf_remaining st = r1 ++ shortest :: r2
       ∧ st' = mkSJF (<[shortest := run_whole t (ps !!! shortest)]> ps)
                 (t + burst_time (ps !!! shortest))
                 (sjf_completed st ++ [shortest])
                 (r1 ++ r2)
                 (sjf_timeline st
                  ++ [(plabel (ps !!! shortest), t,
                       t + burst_time (ps !!! shortest))]))
  ∧ (∀ st st',
     let available :=
       filter (λ i, arrival_time (stcf_procs st !!! i) ≤ stcf_time st
                    ∧ remaining_time (stcf_procs st !!! i) > 0)
              (seq 0 (length (stcf_procs st))) in
     available ≠ [] → stcf_body st = Ok st' →
     ∃ cur,
       remaining_time (stcf_procs st' !!! cur)
         = remaining_time (stcf_procs st !!! cur) - 1
       ∧ (∃ e, last (stcf_timeline st') = Some e
               ∧ tl_label e = plabel (stcf_procs st !!! cur))
       ∧ first_min (λ i, remaining_time (stcf_procs st !!! i)) available cur).
Proof.
  split.
  - intros st st' Hsorted ps t available Hne Hbody.
    destruct (sjf_body_cases st st' Hbody)
      as [(i0 & Hi0 & Hlate & _)|(x & r1 & r2 & Hrem & _ & _ & Hmin & ->)].
    + destruct available as [|a avail] eqn:Havail; [done|].
      assert (a ∈ available) as Ha by (rewrite Havail; left).
      apply list_elem_of_filter in Ha as [Ha Hin].
      destruct (Hlate a Hin) as [Hlt _]. fold ps t in Hlt. lia.
    + exists x, r1, r2. split_and!; [|done|done].
      apply py_min_first_min; [|done]. by apply StronglySorted_filter.
  - intros st st' available Hne. unfold stcf_body. fold available.
    destruct available as [|a avail] eqn:Havail; [done|].
    intros (cur & Hmin & Hbody)%obind_Ok.
    assert (first_min (λ i, remaining_time (stcf_procs st !!! i))
              (a :: avail) cur) as Hfirst.
    { apply py_min_first_min; [|done]. rewrite <-Havail.
      apply StronglySorted_filter, StronglySorted_seq. }
    assert (cur < length (stcf_procs st))%nat as Hcur.
    { destruct Hfirst as [Hin _]. rewrite <-Havail in Hin.
      apply list_elem_of_filter in Hin as [_ Hin%elem_of_seq]. lia. }
    exists cur. split_and!; [| |done].
    + revert Hbody. destruct (decide (first_run _ = -1)); simpl;
        case_decide; intros [= <-]; simpl;
        by rewrite list_lookup_total_insert_eq.
    + revert Hbody. set (p0 := stcf_procs st !!! cur).
      assert (∀ tl lbl s e, ∃ s0,
                last (timeline_merge tl lbl s e) = Some (lbl, s0, e)) as Hlast.
      { intros tl lbl s e.
        destruct (timeline_merge_cases tl lbl s e)
          as [[-> _]|(tl0 & s0 & _ & ->)]; rewrite last_snoc; eauto. }
      destruct (decide (first_run _ = -1)); simpl;
        case_decide; intros [= <-]; simpl;
        match goal with |- context [timeline_merge ?tl ?lbl ?s ?e] =>
          destruct (Hlast tl lbl s e) as [s0 ->] end; eauto.
Qed.

Example tie_state_reached :
  sjf_body (mkSJF tie_processes 0 [] [0; 1; 2]%nat []) = Ok tie_state.
Proof. reflexivity. Qed.

(** In the tie both [P5] (index 1) and [P1] (index 2) have burst time 3 at
    time 4; [P5] runs: from 4 to 7, and only its state changes. *)
Lemma tie_break_witness :
  ∃ st' shortest r1 r2,
    sjf_body tie_state = Ok st'
    ∧ first_min (λ i, burst_time (sjf_procs tie_state !!! i))
                [1%nat; 2%nat] shortest
    ∧ sjf_remaining tie_state = r1 ++ shortest :: r2
    ∧ st' = mkSJF (<[shortest := run_whole 4 (sjf_procs tie_state
                                                !!! shortest)]>
                     (sjf_procs tie_state))
              (4 + burst_time (sjf_procs tie_state !!! shortest))
              ([0%nat] ++ [shortest]) (r1 ++ r2)
              ([("P9", 0, 4)]
               ++ [(plabel (sjf_procs tie_state !!! shortest), 4,
                    4 + burst_time (sjf_procs tie_state !!! shortest))])
    ∧ sjf_timeline st' = [("P9", 0, 4); ("P5", 4, 7)].
Proof.
  eexists.
  destruct (proj1 tie_break_first_in_input_order tie_state
              (mkSJF [mkProcess 9 0 4 4 4 0 0 0 0;
                      mkProcess 5 2 3 3 7 0 0 2 4; Process_init 1 1 3]
                 7 [0%nat; 1%nat] [2%nat]
                 [("P9", 0, 4); ("P5", 4, 7)]))
    as (shortest & r1 & r2 & Hf & Hr & Hst).
  - compute_done.
  - done.
  - vm_compute. reflexivity.
  - exists shortest, r1, r2. split; [vm_compute; reflexivity|].
    split_and!; done.
Defined.

Example sjf_tie_run :
  ∃ r, returns SJF (SchedulerSimulator_init tie_processes) r
       ∧ timeline r.1 = [("P9", 0, 4); ("P5", 4, 7); ("P1", 7, 10)].
Proof. eexists. split; [exists 10%nat; vm_compute; reflexivity|done]. Qed.

(** *** C8 *)

(** C8.  For every valid, non-empty input and every policy the simulation
    completes with one final state per input process, each with the pid,
    the arrival time and the burst time of its input process (in the order
    of the policy: sorted by arrival for FIFO, the input order otherwise),
    and each of them has
    [turnaround_time = completion_time - arrival_time],
    [waiting_time = turnaround_time - burst_time],
    [response_time = first_run - arrival_time], with [waiting_time ≥ 0],
    [response_time ≥ 0], [response_time ≤ waiting_time] and
    [turnaround_time ≥ burst_time]. *)
Theorem metrics_invariants pol s :
  valid_input (original_processes s) → valid_policy pol →
  original_processes s ≠ [] →
  ∃ s', completes pol s s'
        ∧ spec_of <$> processes s'
          = spec_of <$> policy_order pol (original_processes s)
        ∧ Forall (λ p,
            turnaround_time p = completion_time p - arrival_time p
            ∧ waiting_time p = turnaround_time p - burst_time p
            ∧ response_time p = first_run p - arrival_time p
            ∧ 0 ≤ waiting_time p ∧ 0 ≤ response_time p
            ∧ response_time p ≤ waiting_time p
            ∧ burst_time p ≤ turnaround_time p) (processes s').
Proof.
  intros Hvalid Hpol Hne.
  destruct (run_valid pol s Hvalid Hpol Hne)
    as (s' & Hs' & (_ & Hspec & Hfinal & _) & _).
  exists s'. split; [done|]. split; [done|].
  eapply Forall_impl; [exact Hfinal|]. unfold final_ok, done_ok.
  intros p (? & ? & ? & ? & ?). lia.
Qed.

Lemma metrics_invariants_witness :
  ∃ s', completes STCF (SchedulerSimulator_init main_processes) s'
        ∧ spec_of <$> processes s' = spec_of <$> main_processes
        ∧ Forall (λ p,
            turnaround_time p = completion_time p - arrival_time p
            ∧ waiting_time p = turnaround_time p - burst_time p
            ∧ response_time p = first_run p - arrival_time p
            ∧ 0 ≤ waiting_time p ∧ 0 ≤ response_time p
            ∧ response_time p ≤ waiting_time p
            ∧ burst_time p ≤ turnaround_time p) (processes s').
Proof.
  apply (metrics_invariants STCF (SchedulerSimulator_init main_processes)).
  - compute_done.
  - done.
  - done.
Defined.

(** *** C9 *)



(** *** C10 *)

Lemma spec_of_sorted l l' :
  spec_of <$> l = spec_of <$> l' →
  StronglySorted by_arrival l' → StronglySorted by_arrival l.
Proof.
  intros Hspec Hs. revert l Hspec.
  induction Hs as [|q l' Hs IH Hq]; intros [|p l] Hspec; try done;
    [constructor|].
  apply spec_of_cons_inv in Hspec as [(_ & Ha & _)%spec_of_eq Hspec].
  constructor; [by apply IH|].
  apply Forall_forall. intros x [i Hi]%list_elem_of_lookup.
  assert (∃ y, l' !! i = Some y ∧ arrival_time x = arrival_time y)
    as (y & Hy & Hxy).
  { apply (f_equal (.!! i)) in Hspec. rewrite !list_lookup_fmap, Hi in Hspec.
    destruct (l' !! i) as [y|]; [|done]. exists y. split; [done|].
    simpl in Hspec. apply (inj Some) in Hspec.
    by apply spec_of_eq in Hspec as (_ & ? & _). }
  rewrite Forall_forall in Hq. unfold by_arrival in *. rewrite Ha, Hxy.
  apply Hq. by eapply list_elem_of_lookup_2.
Qed.

Lemma spec_of_filter_arrival (l l' : list Process) (k : Z) :
  spec_of <$> l = spec_of <$> l' →
  spec_of <$> filter (λ p, arrival_time p = k) l
  = spec_of <$> filter (λ p, arrival_time p = k) l'.
Proof.
  revert l'. induction l as [|p l IH]; intros [|q l'] Hspec; try done.
  apply spec_of_cons_inv in Hspec as [Hpq Hspec].
  apply spec_of_eq in Hpq as Hpq'. destruct Hpq' as (_ & Ha & _).
  rewrite !filter_cons, Ha.
  case_decide; rewrite ?fmap_cons, (IH l') by done; by rewrite ?Hpq.
Qed.

(** C10.  Whenever a FIFO simulation completes (and so whenever a FIFO
    run returns), its final states are listed by ascending arrival time,
    processes of one arrival time in input order (the working list was
    sorted in place, stably); whenever an SJF, STCF or RR simulation
    completes, its final states are listed in input order.  And on valid,
    non-empty input the simulation does complete. *)
Theorem result_order pol s :
  (∀ s', completes pol s s' →
     match pol with
     | FIFO =>
         spec_of <$> processes s'
         = spec_of <$> sort_by_arrival (original_processes s)
         ∧ StronglySorted by_arrival (processes s')
         ∧ ∀ k, spec_of <$> filter (λ p, arrival_time p = k) (processes s')
                = spec_of <$> filter (λ p, arrival_time p = k)
                                (original_processes s)
     | _ => spec_of <$> processes s' = spec_of <$> original_processes s
     end)
  ∧ (∀ fuel r, run pol fuel s = Ok r → completes pol s r.1)
  ∧ (valid_input (original_processes s) → valid_policy pol →
     original_processes s ≠ [] → ∃ s', completes pol s s').
Proof.
  split; [|split].
  - intros s' [fuel Hspec%simulate_order].
    destruct pol; simpl in Hspec; try done.
    split_and!; [done| |].
    + eapply spec_of_sorted; [exact Hspec|apply sort_by_arrival_sorted].
    + intros k. rewrite (spec_of_filter_arrival _ _ k Hspec).
      by rewrite sort_by_arrival_stable.
  - intros fuel r Hr. apply returns_completes. by exists fuel.
  - intros Hvalid Hpol Hne.
    destruct (run_valid pol s Hvalid Hpol Hne) as (s' & Hs' & _).
    by exists s'.
Qed.

Lemma result_order_witness :
  let s := SchedulerSimulator_init
             [Process_init 1 4 2; Process_init 2 0 3; Process_init 3 4 1] in
  ∃ s', completes FIFO s s'
        ∧ StronglySorted by_arrival (processes s')
        ∧ pid <$> processes s' = [2; 1; 3].
Proof.
  intros s. destruct (result_order FIFO s) as (Hpart & _ & Htotal).
  destruct Htotal as [s' Hs']; [compute_done|done|done|].
  exists s'. split; [done|].
  destruct (Hpart s' Hs') as (Hspec & Hsorted & _). split; [done|].
  change pid with ((λ x : Z * Z * Z, x.1.1) ∘ spec_of).
  rewrite (list_fmap_compose spec_of), Hspec. reflexivity.
Defined.

(** ** Further properties of the simulator *)

(** *** The end of every policy: metrics and averages *)

Lemma finish_inv s r :
  finish s = Ok r →
  r.1 = calculate_metrics s ∧ print_results (calculate_metrics s) = Ok r.2.
Proof.
  unfold finish. intros (avg & Havg & [= <-])%obind_Ok. done.
Qed.






Lemma total_policy_order pol f ps :
  total f (policy_order pol ps) = total f ps.
Proof.
  destruct pol; simpl; try done.
  apply total_Permutation, sort_by_arrival_perm.
Qed.




(** The averages themselves are rounded: FIFO on [P1(0,1), P2(0,2),
    P3(3,1)] returns the floats nearest to 5/3 and to 1/3, and their
    difference is not the mean burst time 4/3. *)
Example average_difference_is_rounded :
  ∃ r, run FIFO 0 (SchedulerSimulator_init
                     [Process_init 1 0 1; Process_init 2 0 2;
                      Process_init 3 3 1]) = Ok r
       ∧ avg_tat r.2 = (7505999378950827 # 4503599627370496)%Q
       ∧ avg_wt r.2 = (6004799503160661 # 18014398509481984)%Q
       ∧ ¬ (avg_tat r.2 - avg_wt r.2 == 4 # 3)%Q.
Proof.
  eexists. split; [vm_compute; reflexivity|].
  split; [reflexivity|]. split; [reflexivity|]. by vm_compute.
Qed.

(** *** Per-process and per-entry facts of a run *)

Lemma time_of_app lbl tl1 tl2 :
  time_of lbl (tl1 ++ tl2) = time_of lbl tl1 + time_of lbl tl2.
Proof.
  unfold time_of. induction tl1 as [|e tl1 IH]; simpl; [done|].
  rewrite IH. lia.
Qed.

Lemma time_of_snoc lbl tl l s e :
  time_of lbl (tl ++ [(l, s, e)])
  = time_of lbl tl + if decide (l = lbl) then e - s else 0.
Proof.
  rewrite time_of_app. unfold time_of at 2. simpl.
  unfold tl_label, tl_start, tl_end. simpl. case_decide; lia.
Qed.

Lemma tl_extends_time_of lbl' lbl t t' tl tl' :
  tl_extends lbl t t' tl tl' →
  time_of lbl' tl' = time_of lbl' tl + if decide (lbl = lbl') then t' - t else 0.
Proof.
  intros [->|(tl0 & s0 & -> & ->)]; rewrite !time_of_snoc; case_decide; lia.
Qed.

Lemma busy_time_of_snoc tl l s e :
  l ≠ IDLE → busy (tl ++ [(l, s, e)]) = busy tl + (e - s).
Proof.
  intros Hl. rewrite busy_snoc. unfold tl_label, tl_start, tl_end. simpl.
  by rewrite decide_False.
Qed.

Lemma tl_extends_busy lbl t t' tl tl' :
  lbl ≠ IDLE → tl_extends lbl t t' tl tl' → busy tl' = busy tl + (t' - t).
Proof.
  intros Hl [->|(tl0 & s0 & -> & ->)]; rewrite !busy_time_of_snoc by done; lia.
Qed.

Lemma tl_extends_elem lbl t t' tl tl' e' :
  tl_extends lbl t t' tl tl' → e' ∈ tl' →
  e' ∈ tl
  ∨ (tl_label e' = lbl ∧ tl_end e' = t'
     ∧ (tl_start e' = t
        ∨ ∃ e, e ∈ tl ∧ tl_label e = lbl ∧ tl_start e = tl_start e')).
Proof.
  intros [->|(tl0 & s0 & -> & ->)] [He|He]%elem_of_app;
    try apply list_elem_of_singleton in He as ->.
  - by left.
  - right. split_and!; try done. by left.
  - left. apply elem_of_app. by left.
  - right. split_and!; try done. right. exists (lbl, s0, t).
    split_and!; try done. apply elem_of_app. right. by left.
Qed.

Lemma NoDup_plabel_index (ps : list Process) i j :
  NoDup (pid <$> ps) → (i < length ps)%nat → (j < length ps)%nat →
  plabel (ps !!! i) = plabel (ps !!! j) → i = j.
Proof. intros Hnd Hi Hj Hl%plabel_inj. by eapply NoDup_pid_index. Qed.

(** The clock advances with nothing recorded (an idle unit of STCF or
    Round Robin). *)
Lemma run_ext_wait ps0 procs owed t t' tl :
  run_ext ps0 procs owed t tl → t ≤ t' → t' ≤ max_arrival ps0 + busy tl →
  run_ext ps0 procs owed t' tl.
Proof.
  intros [Htime Hlife Hspan] Htt' Ht'. constructor; [done| |done].
  intros e i He Hi Hl. destruct (Hlife e i He Hi Hl) as (? & ? & ? & ?).
  split_and!; try done; lia.
Qed.

(** An [IDLE] entry is recorded (SJF). *)
Lemma run_ext_idle ps0 procs owed t t' tl :
  run_ext ps0 procs owed t tl → t ≤ t' → t' ≤ max_arrival ps0 + busy tl →
  run_ext ps0 procs owed t' (tl ++ [(IDLE, t, t')]).
Proof.
  intros [Htime Hlife Hspan] Htt' Ht'. constructor.
  - intros i Hi. rewrite time_of_snoc, decide_False, Z.add_0_r; [auto|].
    intros H. by apply (plabel_not_IDLE (ps0 !!! i)).
  - intros e i [He|He]%elem_of_app Hi Hl;
      [|apply list_elem_of_singleton in He as ->].
    + destruct (Hlife e i He Hi Hl) as (? & ? & ? & ?).
      split_and!; try done; lia.
    + symmetry in Hl. by apply plabel_not_IDLE in Hl.
  - by rewrite busy_snoc_idle.
Qed.

(** The process at index [cur] executes for [x] time units from [t]. *)
Lemma run_ext_dispatch ps0 procs owed owed' t x tl tl' cur p' :
  NoDup (pid <$> ps0) → length procs = length ps0 → (cur < length ps0)%nat →
  run_ext ps0 procs owed t tl →
  tl_extends (plabel (ps0 !!! cur)) t (t + x) tl tl' →
  0 ≤ x →
  owed' cur = owed cur - x → (∀ i, i ≠ cur → owed' i = owed i) →
  first_run p' ≠ -1 → first_run p' ≤ t →
  (∀ e, e ∈ tl → tl_label e = plabel (ps0 !!! cur) →
        first_run (procs !!! cur) ≠ -1 →
        first_run p' = first_run (procs !!! cur)) →
  (owed' cur = 0 → completion_time p' = t + x) →
  run_ext ps0 (<[cur := p']> procs) owed' (t + x) tl'.
Proof.
  intros Hnd Hlen Hcur [Htime Hlife Hspan] Hext Hx Hl1 Hl2 Hfr1 Hfr2 Hfr3 Hc.
  constructor.
  - intros i Hi. rewrite (tl_extends_time_of _ _ _ _ _ _ Hext), Htime by done.
    case_decide as Heq.
    + apply NoDup_plabel_index in Heq; [|done..]. subst i. lia.
    + rewrite Hl2; [lia|]. by intros ->.
  - intros e' i He' Hi Hl.
    destruct (decide (i = cur)) as [->|Hne].
    + rewrite list_lookup_total_insert_eq by lia.
      destruct (tl_extends_elem _ _ _ _ _ _ Hext He')
        as [He|(_ & Hend & [Hs|(e & He & Hle & Hs)])].
      * destruct (Hlife e' cur He Hcur Hl) as (Hn1 & Hle & Hend & _).
        rewrite (Hfr3 e') by done. split_and!; try done; try lia.
      * split_and!; try done; try lia.
      * destruct (Hlife e cur He Hcur Hle) as (Hn1 & Hle' & _).
        rewrite (Hfr3 e) by done. split_and!; try done; try lia.
    + rewrite list_lookup_total_insert_ne by done. rewrite Hl2 by done.
      destruct (tl_extends_elem _ _ _ _ _ _ Hext He') as [He|(Hl' & _)].
      * destruct (Hlife e' i He Hi Hl) as (? & ? & ? & ?).
        split_and!; try done; lia.
      * rewrite Hl in Hl'. apply NoDup_plabel_index in Hl'; done.
  - rewrite (tl_extends_busy _ _ _ _ _ ltac:(apply plabel_not_IDLE) Hext). lia.
Qed.

Lemma proc_inv_work_nonneg t ps :
  Forall (proc_inv t) ps →
  0 ≤ total (λ p, burst_time p - remaining_time p) ps.
Proof.
  intros H. apply total_nonneg. eapply Forall_impl; [exact H|].
  intros p Hp. unfold proc_inv in Hp. simpl. lia.
Qed.

Lemma stcf_body_ext ps0 st st' :
  valid_input ps0 → stcf_inv ps0 st → stcf_cond st = true →
  run_ext ps0 (stcf_procs st) (λ i, remaining_time (stcf_procs st !!! i))
    (stcf_time st) (stcf_timeline st) →
  stcf_body st = Ok st' →
  run_ext ps0 (stcf_procs st') (λ i, remaining_time (stcf_procs st' !!! i))
    (stcf_time st') (stcf_timeline st').
Proof.
  intros [Hnd Hv] [Hspec Ht0 Hproc Hndone _ _ Hbusy _ _ _] Hcond Hext.
  apply bool_decide_eq_true in Hcond.
  pose proof (spec_of_length _ _ Hspec) as Hlen.
  unfold stcf_body. destruct st as [ps t completed tl]; simpl in *.
  destruct (filter _ (seq 0 (length ps))) as [|a avail] eqn:Havail.
  - intros [= <-]. simpl. apply (run_ext_wait _ _ _ t); [done|lia|].
    pose proof (idle_before_last_arrival ps0 ps t Hspec
                  (proc_inv_nonneg _ _ Hproc) ltac:(lia) Havail).
    pose proof (proc_inv_work_nonneg _ _ Hproc). lia.
  - destruct (py_min_spec (λ i, remaining_time (ps !!! i)) (a :: avail))
      as (cur & l1 & l2 & -> & Hcur & _ & _); [done|].
    cbn [obind].
    assert (cur ∈ filter (λ i, arrival_time (ps !!! i) ≤ t
                               ∧ remaining_time (ps !!! i) > 0)
                         (seq 0 (length ps))) as Hin
      by (rewrite Havail, Hcur; apply elem_of_middle).
    apply list_elem_of_filter in Hin as [[Harr Hpos] Hcn%elem_of_seq].
    assert (cur < length ps)%nat as Hcn' by lia.
    clear Havail Hcur a avail l1 l2 Hcn. rename Hcn' into Hcn.
    set (p0 := ps !!! cur) in *.
    assert (proc_inv t p0) as (Hr & Hrun & Hc)
      by (apply Forall_lookup_total_1; [done|lia]).
    assert (plabel p0 = plabel (ps0 !!! cur)) as Hl0 by by apply plabel_lookup.
    destruct (decide (first_run p0 = -1)) as [Hfr|Hfr]; simpl;
      case_decide as Hz; intros [= <-]; simpl;
      match goal with
      | |- context [timeline_merge _ (plabel ?q)] =>
          change (plabel q) with (plabel p0)
      end; rewrite Hl0;
      (eapply run_ext_dispatch;
        [done|done|lia|exact Hext|apply timeline_merge_extends|lia|..]);
      simpl; rewrite ?list_lookup_total_insert_eq by lia; simpl; fold p0;
      try done; try lia;
      try (intros i Hi; by rewrite list_lookup_total_insert_ne);
      destruct Hrun as [?|(? & ? & ?)]; lia.
Qed.

Lemma max_arrival_spec_of ps qs :
  spec_of <$> ps = spec_of <$> qs → max_arrival ps = max_arrival qs.
Proof.
  intros H. unfold max_arrival.
  change arrival_time with ((λ x : Z * Z * Z, x.1.2) ∘ spec_of).
  by rewrite !(list_fmap_compose spec_of), H.
Qed.

Lemma max_arrival_nonneg ps : 0 ≤ max_arrival ps.
Proof. unfold max_arrival. induction ps; csimpl; lia. Qed.

Lemma run_ext_init ps0 owed :
  (∀ i, (i < length ps0)%nat → owed i = burst_time (ps0 !!! i)) →
  run_ext ps0 ((λ p, Process_init (pid p) (arrival_time p) (burst_time p))
                 <$> ps0) owed 0 [].
Proof.
  intros Hleft. constructor.
  - intros i Hi. rewrite Hleft by done. simpl. lia.
  - intros e i He. by apply elem_of_nil in He.
  - pose proof (max_arrival_nonneg ps0). simpl. lia.
Qed.

(** At the end of a run, when nothing is left to execute. *)
Lemma run_ext_detail ps0 procs owed t tl :
  spec_of <$> procs = spec_of <$> ps0 →
  run_ext ps0 procs owed t tl →
  (∀ i, (i < length ps0)%nat → owed i = 0) →
  Forall done_ok procs → makespan procs ≤ t →
  busy tl = total burst_time ps0 →
  run_detail (metrics_of <$> procs) tl.
Proof.
  intros Hspec [Htime Hlife Hspan] Hleft Hdone Hmk Hbusy.
  pose proof (spec_of_length _ _ Hspec) as Hlen.
  assert (spec_of <$> (metrics_of <$> procs) = spec_of <$> ps0) as Hspec'
    by by rewrite <-list_fmap_compose.
  assert (∀ p, p ∈ metrics_of <$> procs →
    ∃ i, (i < length ps0)%nat ∧ p = metrics_of (procs !!! i)
         ∧ plabel p = plabel (ps0 !!! i)
         ∧ burst_time p = burst_time (ps0 !!! i)) as Hidx.
  { intros p (q & -> & Hq)%list_elem_of_fmap.
    apply list_elem_of_lookup in Hq as [i Hi].
    pose proof (lookup_lt_Some _ _ _ Hi) as Hlt.
    apply list_lookup_total_correct in Hi as <-.
    exists i. split_and!; [lia|done|..].
    - change (plabel (procs !!! i) = plabel (ps0 !!! i)).
      by apply plabel_lookup.
    - change (burst_time (procs !!! i) = burst_time (ps0 !!! i)).
      by apply burst_time_lookup. }
  split_and!.
  - intros p (i & Hi & _ & -> & ->)%Hidx. rewrite Htime, Hleft by done. lia.
  - intros e p He (i & Hi & -> & Hl & _)%Hidx Hlbl. rewrite Hl in Hlbl.
    destruct (Hlife e i He Hi Hlbl) as (_ & Hfr & _ & Hc).
    pose proof (Forall_lookup_total_1 _ _ i Hdone ltac:(lia)) as (Ha & _).
    simpl. split_and!; [done|done|]. by apply Hc, Hleft.
  - rewrite makespan_fmap_metrics, (max_arrival_spec_of _ _ Hspec').
    rewrite (total_spec_of burst_time burst_time _ _
               ltac:(by intros ?? (_ & _ & ?)%spec_of_eq) Hspec').
    lia.
Qed.

Lemma stcf_run_detail s :
  valid_input (original_processes s) → original_processes s ≠ [] →
  ∃ s', completes STCF s s' ∧ run_detail (processes s') (timeline s').
Proof.
  intros Hvalid Hne.
  set (ps0 := original_processes s) in *.
  set (J := λ st : STCFState,
         run_ext ps0 (stcf_procs st)
           (λ i, remaining_time (stcf_procs st !!! i))
           (stcf_time st) (stcf_timeline st)).
  destruct (while_total_with stcf_cond stcf_body (stcf_inv ps0) J
              (stcf_measure ps0) (stcf_body_step ps0 Hvalid)) with
    (st := mkSTCF (processes (reset_processes s)) 0 [] [])
    as (st & Hwhile & Hinv & Hext & Hcond).
  - intros st st' HI HJ Hc Hb. by eapply stcf_body_ext.
  - by apply stcf_inv_init.
  - apply run_ext_init. intros i Hi. simpl. fold ps0.
    by rewrite (list_lookup_total_fmap _ ps0 i Hi).
  - pose proof Hinv as Hinv'.
    destruct Hinv' as [_ _ Hproc Hndone _ Hend _ _ _ _].
    destruct (stcf_inv_exit ps0 Hvalid st Hinv Hcond)
      as (Hspec & Hdone & Hord & Hmk & Hm & Hbusy).
    apply bool_decide_eq_false in Hcond.
    assert (Forall (λ p, remaining_time p = 0) (stcf_procs st)) as Hall
      by (apply ndone_all; lia).
    eexists. split.
    + eexists. simpl. simpl in Hwhile.
      unfold ps0 in Hwhile. by rewrite Hwhile.
    + simpl. eapply run_ext_detail; try done.
      * intros i Hi. simpl. apply (Forall_lookup_total_1 _ _ i Hall).
        rewrite (spec_of_length _ _ Hspec). done.
      * lia.
Qed.

Lemma rr_dispatched_first_run quantum t p :
  first_run (rr_dispatched quantum t p)
  = if decide (first_run p = -1) then t else first_run p.
Proof. unfold rr_dispatched. by case_decide. Qed.

Lemma rr_body_ext ps0 quantum st st' :
  valid_input ps0 → 0 < quantum →
  rr_inv ps0 st → rr_cond st = true →
  run_ext ps0 (rr_procs st) (λ i, remaining_time (rr_procs st !!! i))
    (rr_time st) (rr_timeline st) →
  rr_body quantum st = Ok st' →
  run_ext ps0 (rr_procs st') (λ i, remaining_time (rr_procs st' !!! i))
    (rr_time st') (rr_timeline st').
Proof.
  intros Hvalid Hq Hinv Hcond Hext Hb.
  destruct (rr_body_cases ps0 quantum st st' Hvalid Hq Hinv Hcond Hb)
    as [(-> & -> & -> & Hlate & _)|(c & Hc & Hpos & _ & Hst')].
  - destruct Hinv as [_ _ Hproc _ _ _ Hbusy _ _ _ _].
    apply (run_ext_wait _ _ _ (rr_time st)); [done|lia|].
    pose proof (proc_inv_work_nonneg _ _ Hproc). lia.
  - cbn zeta in Hst'. destruct Hst' as (-> & -> & ->).
    destruct Hinv as [Hspec Ht0 Hproc _ _ _ _ _ _ _ _].
    pose proof (spec_of_length _ _ Hspec) as Hlen.
    destruct Hvalid as [Hnd Hv].
    set (p0 := rr_procs st !!! c) in *.
    assert (proc_inv (rr_time st) p0) as (Hr & Hrun & _)
      by (apply Forall_lookup_total_1; [done|lia]).
    pose proof (rr_dispatched_remaining quantum (rr_time st) p0) as Hr2.
    pose proof (rr_dispatched_first_run quantum (rr_time st) p0) as Hf2.
    set (x := Z.min quantum (remaining_time p0)) in *.
    set (p2 := rr_dispatched quantum (rr_time st) p0) in *. clearbody p2.
    set (p3 := if decide (remaining_time p2 = 0)
               then set_completion_time (rr_time st + x) p2 else p2).
    assert (remaining_time p3 = remaining_time p0 - x
            ∧ first_run p3
              = (if decide (first_run p0 = -1) then rr_time st
                 else first_run p0)
            ∧ (remaining_time p3 = 0 → completion_time p3 = rr_time st + x))
      as (Hr3 & Hf3 & Hc3).
    { unfold p3. destruct (decide (remaining_time p2 = 0)); simpl;
        split_and!; try done; lia. }
    clearbody p3.
    eapply run_ext_dispatch; [done|done|done|exact Hext|by left|lia|..];
      cbn beta; rewrite ?list_lookup_total_insert_eq by lia; fold p0.
    + done.
    + intros i Hi. by rewrite list_lookup_total_insert_ne.
    + rewrite Hf3. case_decide; lia.
    + rewrite Hf3. case_decide; destruct Hrun as [?|(? & ? & ?)]; lia.
    + intros e _ _ Hfr. rewrite Hf3. by case_decide.
    + done.
Qed.

Lemma slices_of_snoc lbl tl l s e :
  slices_of lbl (tl ++ [(l, s, e)])
  = (slices_of lbl tl + if decide (l = lbl) then 1 else 0)%nat.
Proof.
  unfold slices_of. rewrite filter_app, length_app, filter_cons.
  unfold tl_label. simpl. by case_decide.
Qed.

(** One more slice of at most a quantum, after full quanta only. *)
Lemma slice_count_step q d x :
  0 < q → 0 < x ≤ q → d mod q = 0 →
  (d + x + q - 1) / q = (d + q - 1) / q + 1.
Proof.
  intros Hq Hx Hd.
  apply Z.div_exact in Hd; [|lia]. set (k := d / q) in *. rewrite Hd.
  replace (q * k + x + q - 1) with (k * q + (x + q - 1)) by lia.
  replace (q * k + q - 1) with (k * q + (q - 1)) by lia.
  rewrite !Z.div_add_l by lia.
  rewrite (Z.div_small (q - 1) q) by lia.
  assert ((x + q - 1) / q = 1) as ->; [|lia].
  symmetry. apply (Z.div_unique _ _ 1 (x - 1)); lia.
Qed.

Lemma rr_body_slices ps0 quantum st st' :
  valid_input ps0 → 0 < quantum →
  rr_inv ps0 st → rr_cond st = true →
  rr_slices ps0 quantum st → rr_body quantum st = Ok st' →
  rr_slices ps0 quantum st'.
Proof.
  intros Hvalid Hq Hinv Hcond [Hlen Hcount] Hb.
  destruct (rr_body_cases ps0 quantum st st' Hvalid Hq Hinv Hcond Hb)
    as [(Hp & _ & Htl & _)|(c & Hc & Hpos & _ & Hst')].
  - constructor; rewrite ?Hp, ?Htl; done.
  - cbn zeta in Hst'. destruct Hst' as (Hp & _ & Htl).
    destruct Hinv as [Hspec _ Hproc _ _ _ _ _ _ _ _].
    pose proof (spec_of_length _ _ Hspec) as Hl.
    destruct Hvalid as [Hnd Hv].
    set (p0 := rr_procs st !!! c) in *.
    assert (proc_inv (rr_time st) p0) as (Hr & _ & _)
      by (apply Forall_lookup_total_1; [done|lia]).
    pose proof (rr_dispatched_remaining quantum (rr_time st) p0) as Hr2.
    set (x := Z.min quantum (remaining_time p0)) in *.
    set (p2 := rr_dispatched quantum (rr_time st) p0) in *. clearbody p2.
    set (p3 := if decide (remaining_time p2 = 0)
               then set_completion_time (rr_time st + x) p2 else p2) in *.
    assert (remaining_time p3 = remaining_time p0 - x) as Hr3.
    { unfold p3. by destruct (decide (remaining_time p2 = 0)). }
    clearbody p3.
    constructor; rewrite ?Hp, ?Htl.
    + apply Forall_app. split; [done|]. constructor; [|done].
      unfold tl_start, tl_end. simpl. lia.
    + intros i Hi. cbn zeta. rewrite slices_of_snoc.
      destruct (Hcount i Hi) as [Hn Hmod]. cbn zeta in Hn, Hmod.
      destruct (decide (i = c)) as [->|Hne].
      * rewrite decide_True by done.
        rewrite list_lookup_total_insert_eq by lia. fold p0 in Hn, Hmod.
        rewrite Hr3. split.
        -- rewrite Nat2Z.inj_add, Hn.
           replace (burst_time (ps0 !!! c) - (remaining_time p0 - x)
                    + quantum - 1)
             with (burst_time (ps0 !!! c) - remaining_time p0 + x
                   + quantum - 1) by lia.
           rewrite slice_count_step; [done|lia|lia|]. apply Hmod. lia.
        -- intros Hnz. assert (x = quantum) as -> by lia.
           replace (burst_time (ps0 !!! c) - (remaining_time p0 - quantum))
             with (burst_time (ps0 !!! c) - remaining_time p0 + 1 * quantum)
             by lia.
           rewrite Z.mod_add by lia. apply Hmod. lia.
      * rewrite decide_False, Nat.add_0_r.
        -- by rewrite list_lookup_total_insert_ne.
        -- intros Heq. apply NoDup_plabel_index in Heq; done.
Qed.

Lemma rr_slices_init ps0 quantum q0 inq0 :
  0 < quantum →
  rr_slices ps0 quantum
    (mkRR ((λ p, Process_init (pid p) (arrival_time p) (burst_time p))
             <$> ps0) 0 q0 [] inq0 []).
Proof.
  intros Hq. constructor; simpl; [done|].
  intros i Hi. rewrite (list_lookup_total_fmap _ ps0 i Hi). simpl.
  rewrite Z.sub_diag. split; [|done].
  symmetry. apply Z.div_small. lia.
Qed.

(** What [run_detail] leaves out for Round Robin: the slices. *)
Lemma rr_run_detail quantum s :
  valid_input (original_processes s) → 0 < quantum →
  original_processes s ≠ [] →
  ∃ s', completes (RR quantum) s s'
       ∧ run_detail (processes s') (timeline s')
       ∧ Forall (λ e, 0 < tl_end e - tl_start e ≤ quantum) (timeline s')
       ∧ ∀ p, p ∈ processes s' →
           Z.of_nat (slices_of (plabel p) (timeline s'))
           = (burst_time p + quantum - 1) / quantum.
Proof.
  intros Hvalid Hq Hne.
  set (ps0 := original_processes s) in *.
  set (J := λ st : RRState,
         run_ext ps0 (rr_procs st) (λ i, remaining_time (rr_procs st !!! i))
           (rr_time st) (rr_timeline st)
         ∧ rr_slices ps0 quantum st).
  pose proof (rr_inv_init ps0 Hvalid Hne) as Hinit. cbn zeta in Hinit.
  destruct (while_total_with rr_cond (rr_body quantum) (rr_inv ps0) J
              (rr_measure ps0) (rr_body_step ps0 Hvalid quantum Hq)) with
    (st := mkRR (processes (reset_processes s)) 0
             (rr_initial (processes (reset_processes s))).1 []
             (rr_initial (processes (reset_processes s))).2 [])
    as (st & Hwhile & Hinv & [Hext Hsl] & Hcond).
  - intros st st' HI [HJ1 HJ2] Hc Hb. split.
    + by eapply rr_body_ext.
    + by eapply rr_body_slices.
  - done.
  - split.
    + apply run_ext_init. intros i Hi. simpl. fold ps0.
      by rewrite (list_lookup_total_fmap _ ps0 i Hi).
    + by apply rr_slices_init.
  - pose proof Hinv as Hinv'.
    destruct Hinv' as [_ _ Hproc Hndone _ Hend _ _ _ _ _].
    destruct (rr_inv_exit ps0 Hvalid st Hinv Hcond)
      as (Hspec & Hdone & Hord & Hmk & Hbusy).
    apply orb_false_iff in Hcond as [_ Hcond].
    apply bool_decide_eq_false in Hcond.
    assert (Forall (λ p, remaining_time p = 0) (rr_procs st)) as Hall
      by (apply ndone_all; lia).
    pose proof (spec_of_length _ _ Hspec) as Hlen.
    eexists. split; [|split; [|split]].
    + unfold completes. simpl. simpl in Hwhile.
      unfold ps0 in Hwhile. destruct (rr_initial _) as [q0 inq0].
      simpl in Hwhile. eexists. by rewrite Hwhile.
    + simpl. eapply run_ext_detail; try done.
      * intros i Hi. simpl. apply (Forall_lookup_total_1 _ _ i Hall). lia.
      * lia.
    + simpl. by destruct Hsl.
    + simpl. destruct Hsl as [_ Hcount].
      intros p (q & -> & Hq')%list_elem_of_fmap.
      apply list_elem_of_lookup in Hq' as [i Hi].
      pose proof (lookup_lt_Some _ _ _ Hi) as Hlt.
      apply list_lookup_total_correct in Hi as <-.
      destruct (Hcount i ltac:(lia)) as [Hn _]. cbn zeta in Hn.
      pose proof (Forall_lookup_total_1 _ _ i Hall Hlt) as Hz. simpl in Hz.
      rewrite Hz, Z.sub_0_r in Hn.
      change (plabel (metrics_of (rr_procs st !!! i)))
        with (plabel (rr_procs st !!! i)).
      change (burst_time (metrics_of (rr_procs st !!! i)))
        with (burst_time (rr_procs st !!! i)).
      rewrite (plabel_lookup _ _ i Hspec), (burst_time_lookup _ _ i Hspec).
      done.
Qed.

(** *** SJF *)

(** On any input, what SJF leaves of a process that has run. *)
Lemma sjf_body_one_piece st st' :
  (∀ i, i ∈ sjf_remaining st → (i < length (sjf_procs st))%nat) →
  (∀ i, (i < length (sjf_procs st))%nat → i ∉ sjf_remaining st →
        one_piece (sjf_procs st !!! i)) →
  sjf_body st = Ok st' →
  length (sjf_procs st') = length (sjf_procs st)
  ∧ (∀ i, i ∈ sjf_remaining st' → (i < length (sjf_procs st'))%nat)
  ∧ (∀ i, (i < length (sjf_procs st'))%nat → i ∉ sjf_remaining st' →
          one_piece (sjf_procs st' !!! i)).
Proof.
  intros Hbound Hdone Hb.
  destruct (sjf_body_cases st st' Hb)
    as [(i0 & _ & _ & ->)|(x & r1 & r2 & Hrem & Hx1 & _ & _ & ->)];
    simpl; [done|].
  assert (x < length (sjf_procs st))%nat as Hx
    by (apply Hbound; rewrite Hrem; apply elem_of_middle).
  rewrite length_insert. split_and!; [done| |].
  - intros i Hi. apply Hbound. rewrite Hrem. by apply elem_of_app_middle.
  - intros i Hi Hni. destruct (decide (i = x)) as [->|Hne].
    + rewrite list_lookup_total_insert_eq by done. split; simpl; lia.
    + rewrite list_lookup_total_insert_ne by done. apply Hdone; [done|].
      rewrite Hrem. by apply not_elem_of_app_middle.
Qed.

Lemma fifo_loop_one_piece todo : ∀ t tl ps' t' tl',
  fifo_loop todo t tl = (ps', t', tl') → Forall one_piece ps'.
Proof.
  induction todo as [|p rest IH]; intros t tl ps' t' tl' Hrun; simpl in Hrun.
  { by injection Hrun as <- <- <-. }
  destruct (decide (t < arrival_time p));
    destruct (fifo_loop rest _ _) as [[rest' t''] tl''] eqn:Hrest;
    injection Hrun as <- <- <-; apply IH in Hrest;
    (constructor; [split; simpl; lia|done]).
Qed.

Lemma one_piece_metrics p :
  one_piece p →
  one_piece (metrics_of p)
  ∧ waiting_time (metrics_of p) = response_time (metrics_of p).
Proof. unfold one_piece. intros [Hc Hr]. simpl. lia. Qed.

(** X2.  FIFO and SJF run every process in one piece, whatever the input:
    when the run returns, each process completes exactly [burst_time]
    after its first run, and its waiting time equals its response time. *)
Theorem non_preemptive_runs_in_one_piece pol fuel s r :
  pol = FIFO ∨ pol = SJF → run pol fuel s = Ok r →
  Forall (λ p, completion_time p = first_run p + burst_time p
               ∧ response_time p = first_run p - arrival_time p
               ∧ waiting_time p = response_time p) (processes r.1).
Proof.
  assert (∀ s' ps tl, Forall one_piece ps →
            finish (mkSim s' ps tl) = Ok r →
            Forall (λ p, completion_time p = first_run p + burst_time p
                         ∧ response_time p = first_run p - arrival_time p
                         ∧ waiting_time p = response_time p) (processes r.1))
    as Hfin.
  { intros s' ps tl Hall [-> _]%finish_inv. simpl. rewrite Forall_fmap.
    eapply Forall_impl; [exact Hall|]. intros p Hp. simpl.
    by destruct (one_piece_metrics p Hp) as [[? ?] ?]. }
  intros [->| ->]; simpl; unfold fifo_schedule, sjf_schedule.
  - destruct (fifo_loop _ _ _) as [[ps t] tl] eqn:Hloop.
    apply Hfin. by eapply fifo_loop_one_piece.
  - intros (st & Hwhile & Hf)%obind_Ok. eapply Hfin; [|exact Hf].
    eapply (while_partial sjf_cond sjf_body
              (λ st, (∀ i, i ∈ sjf_remaining st →
                           (i < length (sjf_procs st))%nat)
                     ∧ (∀ i, (i < length (sjf_procs st))%nat →
                             i ∉ sjf_remaining st →
                             one_piece (sjf_procs st !!! i)))) in Hwhile
      as [[_ Hdone] Hcond].
    + apply bool_decide_eq_false in Hcond. apply dec_stable in Hcond.
      apply (Forall_lookup_total_2 _ _). intros i Hi. apply Hdone; [done|].
      rewrite Hcond. apply not_elem_of_nil.
    + intros st1 st2 [H1 H2] _ Hb.
      by destruct (sjf_body_one_piece st1 st2 H1 H2 Hb) as (_ & ? & ?).
    + simpl. split.
      * intros i Hi%elem_of_seq. lia.
      * intros i Hi Hni. destruct Hni. apply elem_of_seq. lia.
Qed.

Lemma non_preemptive_runs_in_one_piece_witness :
  ∃ r, run SJF 8 (SchedulerSimulator_init main_processes) = Ok r
       ∧ Forall (λ p, completion_time p = first_run p + burst_time p
                      ∧ response_time p = first_run p - arrival_time p
                      ∧ waiting_time p = response_time p) (processes r.1).
Proof.
  eexists. split; [vm_compute; reflexivity|].
  apply (non_preemptive_runs_in_one_piece SJF 8
           (SchedulerSimulator_init main_processes)).
  - by right.
  - vm_compute. reflexivity.
Defined.

Lemma busy_nonneg R lo tl : tl_chain R lo tl → 0 ≤ busy tl.
Proof.
  revert lo. induction tl as [|e tl IH]; intros lo; simpl; [done|].
  intros (_ & Hlt & Hrest). specialize (IH _ Hrest).
  unfold busy in *. simpl. case_decide; lia.
Qed.

Lemma sjf_left_remove ps0 r1 r2 x i :
  i ≠ x → sjf_left ps0 (r1 ++ r2) i = sjf_left ps0 (r1 ++ x :: r2) i.
Proof.
  intros Hne. unfold sjf_left.
  destruct (decide (i ∈ r1 ++ r2)) as [Hi|Hi].
  - rewrite decide_True; [done|]. by apply elem_of_app_middle.
  - rewrite decide_False; [done|]. by apply not_elem_of_app_middle.
Qed.

Lemma sjf_body_ext ps0 st st' :
  valid_input ps0 → sjf_inv ps0 st →
  run_ext ps0 (sjf_procs st) (sjf_left ps0 (sjf_remaining st)) (sjf_time st)
    (sjf_timeline st) →
  sjf_ordered (sjf_procs st) (sjf_remaining st) →
  sjf_body st = Ok st' →
  run_ext ps0 (sjf_procs st') (sjf_left ps0 (sjf_remaining st'))
    (sjf_time st') (sjf_timeline st')
  ∧ sjf_ordered (sjf_procs st') (sjf_remaining st').
Proof.
  intros Hvalid [Hspec Hsorted Hbound Ht0 Hdone Hgf _ _ _ Hfresh _ _] Hext
    Hord Hb.
  pose proof (spec_of_length _ _ Hspec) as Hlen.
  pose proof (busy_nonneg _ _ _ Hgf) as Hbusy0.
  destruct (sjf_body_cases st st' Hb)
    as [(i0 & Hi0 & Hlate & ->)|(x & r1 & r2 & Hrem & Hx1 & Hxa & Hmin & ->)];
    simpl.
  - split; [|done]. destruct (Hlate i0 Hi0) as [Hlt _].
    apply run_ext_idle; [done|lia|].
    assert (arrival_time (ps0 !!! i0) ≤ max_arrival ps0).
    { apply max_arrival_ge, list_elem_of_lookup_total_2. by apply Hbound. }
    rewrite (arrival_time_lookup _ _ i0 Hspec). lia.
  - assert (x ∈ sjf_remaining st) as Hxr
      by (rewrite Hrem; apply elem_of_middle).
    assert (x < length ps0)%nat as Hxn by by apply Hbound.
    pose proof (valid_input_lookup ps0 x Hvalid Hxn) as [Hva Hvb].
    rewrite <-(burst_time_lookup _ _ x Hspec) in Hvb.
    pose proof Hsorted as Hsorted'. rewrite Hrem in Hsorted'.
    apply StronglySorted_lt_remove in Hsorted' as [_ Hxnot].
    apply py_min_first_min in Hmin as (_ & Hle & Hlt);
      [|by apply StronglySorted_filter].
    set (p0 := sjf_procs st !!! x) in *. set (t := sjf_time st) in *.
    split.
    + assert (plabel p0 = plabel (ps0 !!! x)) as ->
        by by apply plabel_lookup.
      destruct Hvalid as [Hnd Hv].
      eapply run_ext_dispatch;
        [done|done|done|exact Hext|by left|lia|..].
      * unfold sjf_left. rewrite decide_False by done.
        rewrite decide_True by done.
        rewrite <-(burst_time_lookup _ _ x Hspec). fold p0. lia.
      * intros i Hi. rewrite Hrem. by apply sjf_left_remove.
      * simpl. lia.
      * simpl. lia.
      * intros e He Hl. by destruct (Hfresh e x He Hxr).
      * intros _. simpl. done.
    + intros i j Hi Hj Hni Hji. rewrite length_insert in Hi, Hj.
      assert (∀ k, arrival_time (<[x := run_whole t p0]> (sjf_procs st) !!! k)
                   = arrival_time (sjf_procs st !!! k)
                   ∧ burst_time (<[x := run_whole t p0]> (sjf_procs st) !!! k)
                     = burst_time (sjf_procs st !!! k)) as Hsame.
      { intros k. split.
        - apply arrival_time_lookup. by apply spec_of_insert.
        - apply burst_time_lookup. by apply spec_of_insert. }
      destruct (Hsame i) as [_ ->]. destruct (Hsame j) as [-> ->].
      assert (∀ k, (k < length ps0)%nat → k ∉ sjf_remaining st →
                first_run (sjf_procs st !!! k) < t) as Hbefore.
      { intros k Hk Hnk. destruct (Hdone k Hk Hnk) as [(_ & _ & Hc) Hct].
        pose proof (valid_input_lookup ps0 k Hvalid Hk) as [_ Hkb].
        rewrite <-(burst_time_lookup _ _ k Hspec) in Hkb. fold t in Hct. lia. }
      destruct (decide (i = x)) as [->|Hix].
      * rewrite list_lookup_total_insert_eq by lia.
        rewrite list_lookup_total_insert_ne by done. simpl.
        intros Harr Hcase.
        assert (j ∈ sjf_remaining st) as Hjr.
        { destruct (decide (j ∈ sjf_remaining st)) as [|Hnj]; [done|].
          destruct Hcase as [Hj'|Hlate].
          - rewrite Hrem. by apply elem_of_app_middle.
          - specialize (Hbefore j ltac:(lia) Hnj). lia. }
        assert (j ∈ filter (λ i, arrival_time (sjf_procs st !!! i) ≤ t)
                       (sjf_remaining st)) as Hjav
          by by apply list_elem_of_filter.
        specialize (Hle j Hjav). specialize (Hlt j Hjav). fold p0 in Hle, Hlt.
        split; [done|]. intros Heq. fold p0 in Heq.
        destruct (decide (j < x)%nat) as [Hjx|]; [|lia].
        specialize (Hlt Hjx). lia.
      * rewrite (list_lookup_total_insert_ne _ x i) by done.
        assert (i ∉ sjf_remaining st) as Hni'
          by (rewrite Hrem; by apply not_elem_of_app_middle).
        destruct (decide (j = x)) as [->|Hjx].
        -- intros Harr _. apply Hord; try done; try lia. by left.
        -- rewrite list_lookup_total_insert_ne by done.
           intros Harr Hcase. apply Hord; try done; try lia.
           destruct Hcase as [Hj'|?]; [left|by right].
           rewrite Hrem. by apply elem_of_app_middle.
Qed.

Lemma sjf_run_detail s :
  valid_input (original_processes s) → original_processes s ≠ [] →
  ∃ s', completes SJF s s' ∧ run_detail (processes s') (timeline s')
       ∧ sjf_ordered (processes s') [].
Proof.
  intros Hvalid Hne.
  set (ps0 := original_processes s) in *.
  set (J := λ st : SJFState,
         run_ext ps0 (sjf_procs st) (sjf_left ps0 (sjf_remaining st))
           (sjf_time st) (sjf_timeline st)
         ∧ sjf_ordered (sjf_procs st) (sjf_remaining st)).
  pose proof (sjf_inv_init ps0 Hvalid Hne) as Hinit.
  destruct (while_total_with sjf_cond sjf_body (sjf_inv ps0) J sjf_measure
              (sjf_body_step ps0 Hvalid)) with
    (st := mkSJF (processes (reset_processes s)) 0 []
             (seq 0 (length (processes (reset_processes s)))) [])
    as (st & Hwhile & Hinv & [Hext Hord] & Hcond).
  - intros st st' HI [HJ1 HJ2] _ Hb. by eapply sjf_body_ext.
  - done.
  - split.
    + apply run_ext_init. intros i Hi. simpl. unfold sjf_left.
      rewrite decide_True; [done|].
      apply elem_of_seq. rewrite length_fmap. fold ps0. lia.
    + intros i j Hi _ Hni. destruct Hni. simpl. apply elem_of_seq.
      simpl in Hi. lia.
  - pose proof Hinv as Hinv'.
    destruct Hinv' as [_ _ _ _ _ _ Hend _ _ _ _ _].
    destruct (sjf_inv_exit ps0 st Hne Hinv Hcond)
      as (Hspec & Hdone & Hgf & Hmk & Hm & Hbusy).
    apply bool_decide_eq_false in Hcond. apply dec_stable in Hcond.
    pose proof (spec_of_length _ _ Hspec) as Hlen.
    eexists. split; [|split].
    + eexists. simpl. simpl in Hwhile.
      unfold ps0 in Hwhile. by rewrite Hwhile.
    + simpl. eapply run_ext_detail; try done.
      * intros i Hi. simpl. unfold sjf_left. rewrite Hcond.
        rewrite decide_False; [done|apply not_elem_of_nil].
      * lia.
    + simpl. rewrite Hcond in Hord.
      intros i j Hi Hj _ Hji. rewrite length_fmap in Hi, Hj.
      rewrite !(list_lookup_total_fmap _ (sjf_procs st)) by done.
      simpl. intros Harr Hcase. apply Hord; try done. apply not_elem_of_nil.
Qed.

(** *** FIFO *)

(** What one pass of the FIFO loop over [todo] adds to the timeline and
    leaves in the processes, from the clock value [t]. *)
Lemma fifo_loop_detail todo : ∀ t tl ps' t' tl',
  fifo_loop todo t tl = (ps', t', tl') →
  (∀ lbl, lbl ≠ IDLE →
     time_of lbl tl'
     = time_of lbl tl
       + total (λ p, if decide (plabel p = lbl) then burst_time p else 0) todo)
  ∧ (∀ e, e ∈ tl' →
       e ∈ tl ∨ tl_label e = IDLE
       ∨ ∃ p, p ∈ ps' ∧ e = (plabel p, first_run p, completion_time p))
  ∧ (Forall (λ p, 0 ≤ burst_time p) todo →
       t ≤ t'
       ∧ t' ≤ Z.max t (max_arrival todo) + total burst_time todo
       ∧ Forall (λ p, t ≤ first_run p ∧ arrival_time p ≤ first_run p
                      ∧ completion_time p ≤ t') ps'
       ∧ StronglySorted (λ p q, completion_time p ≤ first_run q) ps').
Proof.
  induction todo as [|p rest IH]; intros t tl ps' t' tl' Hrun; simpl in Hrun.
  { injection Hrun as <- <- <-. split_and!; try done.
    - intros lbl _. unfold total. simpl. lia.
    - intros e He. by left.
    - intros _. pose proof (max_arrival_nonneg []). unfold total. simpl.
      split_and!; try done; try lia. constructor. }
  assert (max_arrival (p :: rest)
          = Z.max (arrival_time p) (max_arrival rest)) as Hmax by done.
  destruct (decide (t < arrival_time p)) as [Hidle|Hidle];
    destruct (fifo_loop rest _ _) as [[rest' t''] tl''] eqn:Hrest;
    injection Hrun as <- <- <-;
    apply IH in Hrest as (Htime & Hmem & Hrest); simpl in *.
  - split_and!.
    + intros lbl Hl. rewrite Htime, total_cons, !time_of_snoc by done.
      change (plabel (set_completion_time _ _)) with (plabel p).
      rewrite (decide_False (P := IDLE = lbl)) by done. case_decide; lia.
    + intros e [[[He|He]%elem_of_app|He]%elem_of_app|He]%Hmem.
      * by left.
      * apply list_elem_of_singleton in He as ->. right. by left.
      * apply list_elem_of_singleton in He as ->. right. right.
        eexists. split; [left|]. done.
      * destruct He as [?|(q & Hq & ->)]; [right; by left|].
        right. right. exists q. split; [by right|done].
    + intros [Hb Hall]%Forall_cons.
      destruct (Hrest Hall) as (Ht & Ht' & Hfc & Hs).
      rewrite total_cons, Hmax. split_and!; try lia.
      * constructor; [simpl; lia|].
        eapply Forall_impl; [exact Hfc|]. simpl. intros q. lia.
      * constructor; [done|]. simpl.
        eapply Forall_impl; [exact Hfc|]. simpl. intros q. lia.
  - split_and!.
    + intros lbl Hl. rewrite Htime, total_cons, !time_of_snoc by done.
      change (plabel (set_completion_time _ _)) with (plabel p).
      case_decide; lia.
    + intros e [[He|He]%elem_of_app|He]%Hmem.
      * by left.
      * apply list_elem_of_singleton in He as ->. right. right.
        eexists. split; [left|]. done.
      * destruct He as [?|(q & Hq & ->)]; [right; by left|].
        right. right. exists q. split; [by right|done].
    + intros [Hb Hall]%Forall_cons.
      destruct (Hrest Hall) as (Ht & Ht' & Hfc & Hs).
      rewrite total_cons, Hmax. split_and!; try lia.
      * constructor; [simpl; lia|].
        eapply Forall_impl; [exact Hfc|]. simpl. intros q. lia.
      * constructor; [done|]. simpl.
        eapply Forall_impl; [exact Hfc|]. simpl. intros q. lia.
Qed.

Lemma total_pick (l : list Process) q :
  NoDup (plabel <$> l) → q ∈ l →
  total (λ p, if decide (plabel p = plabel q) then burst_time p else 0) l
  = burst_time q.
Proof.
  induction l as [|p l IH]; [by intros _ ?%elem_of_nil|].
  rewrite fmap_cons, NoDup_cons, total_cons.
  intros [Hp Hnd] Hq. apply elem_of_cons in Hq as [->|Hq].
  - rewrite decide_True by done.
    rewrite (total_ext _ (λ _, 0)).
    + assert (total (λ _, 0) l = 0) as ->; [|lia].
      clear. induction l as [|a l IH]; [done|]. rewrite total_cons. lia.
    + apply Forall_forall. intros p' Hpl. case_decide as Heq; [|done].
      destruct Hp. rewrite <-Heq. apply list_elem_of_fmap. by exists p'.
  - rewrite IH by done. rewrite decide_False; [lia|].
    intros Heq. destruct Hp. rewrite Heq. apply list_elem_of_fmap. by exists q.
Qed.

Lemma NoDup_plabel_elem (l : list Process) p q :
  NoDup (plabel <$> l) → p ∈ l → q ∈ l → plabel p = plabel q → p = q.
Proof.
  intros Hnd [i Hi]%list_elem_of_lookup [j Hj]%list_elem_of_lookup Heq.
  assert (i = j) as ->; [|congruence].
  eapply NoDup_lookup; [exact Hnd|..]; rewrite list_lookup_fmap.
  - by rewrite Hi.
  - rewrite Hj. simpl. by rewrite Heq.
Qed.

Lemma foldr_max_le x0 (l : list Z) t :
  x0 ≤ t → Forall (λ x, x ≤ t) l → foldr Z.max x0 l ≤ t.
Proof. intros H0. induction 1; simpl; lia. Qed.

Lemma foldr_max_ge x0 (l : list Z) :
  x0 ≤ foldr Z.max x0 l ∧ ∀ x, x ∈ l → x ≤ foldr Z.max x0 l.
Proof.
  induction l as [|y l [IH0 IH]]; simpl.
  - split; [lia|]. by intros x ?%elem_of_nil.
  - split; [lia|]. intros x [->|Hx]%elem_of_cons; [lia|].
    specialize (IH x Hx). lia.
Qed.

Lemma makespan_le ps t :
  0 ≤ t → Forall (λ p, completion_time p ≤ t) ps → makespan ps ≤ t.
Proof.
  unfold makespan. intros Ht. induction 1; csimpl; lia.
Qed.

Lemma plabel_fmap_spec_of (ps qs : list Process) :
  spec_of <$> ps = spec_of <$> qs → plabel <$> ps = plabel <$> qs.
Proof.
  revert qs. induction ps as [|p ps IH]; intros [|q qs] H; try done.
  apply spec_of_cons_inv in H as [Hpq Hrest].
  rewrite !fmap_cons. by rewrite (IH qs), (plabel_spec_of p q).
Qed.

Lemma fifo_run_detail s :
  valid_input (original_processes s) → original_processes s ≠ [] →
  ∃ s', completes FIFO s s' ∧ run_detail (processes s') (timeline s').
Proof.
  intros Hvalid Hne.
  destruct (fifo_loop (sort_by_arrival (processes (reset_processes s))) 0
              (timeline (reset_processes s))) as [[ps t'] tl] eqn:Hloop.
  pose proof (fifo_completes s _ _ _ Hloop) as Hsim.
  set (s0 := reset_processes s) in *.
  pose proof (reset_processes_spec_of s) as Hspec0. fold s0 in Hspec0.
  assert (valid_input (sort_by_arrival (processes s0))) as [Hnd Hv].
  { eapply valid_input_Permutation; [symmetry; apply sort_by_arrival_perm|].
    by eapply valid_input_spec_of. }
  pose proof (fifo_loop_spec_of _ _ _ _ _ _ Hloop) as Hspec.
  apply fifo_loop_detail in Hloop as (Htime & Hmem & Hrest).
  destruct Hrest as (Ht' & Hspan & Hfc & _).
  { eapply Forall_impl; [exact Hv|]. intros p [_ ?]. lia. }
  assert (NoDup (plabel <$> ps)) as Hndl.
  { rewrite (plabel_fmap_spec_of _ _ Hspec). by apply NoDup_plabel. }
  assert (ps ≠ []) as Hps.
  { intros ->. apply spec_of_length in Hspec.
    rewrite sort_by_arrival_perm, (spec_of_length _ _ Hspec0) in Hspec.
    by destruct (original_processes s). }
  eexists. split; [exact Hsim|]. simpl.
  split_and!.
  - intros p (q & -> & Hq)%list_elem_of_fmap.
    change (time_of (plabel q) tl = burst_time q).
    rewrite Htime by apply plabel_not_IDLE. simpl.
    rewrite <-(total_pick ps q Hndl Hq). symmetry.
    apply total_spec_of; [|done].
    intros p1 p2 H12. rewrite (plabel_spec_of _ _ H12).
    by apply spec_of_eq in H12 as (_ & _ & ->).
  - intros e p He (q & -> & Hq)%list_elem_of_fmap Hl.
    change (tl_label e = plabel q) in Hl. simpl.
    destruct (Hmem e He) as [Hnil|[Hidle|(q' & Hq' & ->)]].
    + by apply elem_of_nil in Hnil.
    + rewrite Hidle in Hl. symmetry in Hl. by apply plabel_not_IDLE in Hl.
    + simpl in Hl. apply (NoDup_plabel_elem ps) in Hl as ->; try done.
      rewrite Forall_forall in Hfc. destruct (Hfc q Hq) as (_ & ? & _).
      unfold tl_start, tl_end. simpl. lia.
  - rewrite makespan_fmap_metrics.
    assert (spec_of <$> (metrics_of <$> ps)
            = spec_of <$> sort_by_arrival (processes s0)) as Hspec'
      by by rewrite <-list_fmap_compose.
    rewrite (max_arrival_spec_of _ _ Hspec').
    rewrite (total_spec_of burst_time burst_time _ _
               ltac:(by intros ?? (_ & _ & ?)%spec_of_eq) Hspec').
    pose proof (max_arrival_nonneg (sort_by_arrival (processes s0))).
    assert (makespan ps ≤ t'); [|lia].
    apply makespan_le; [lia|].
    eapply Forall_impl; [exact Hfc|]. simpl. intros q. lia.
Qed.

(** *** All four policies on valid input *)

Lemma run_valid_detail pol s :
  valid_input (original_processes s) → valid_policy pol →
  original_processes s ≠ [] →
  ∃ s', completes pol s s' ∧ run_detail (processes s') (timeline s').
Proof.
  intros Hvalid Hpol Hne. destruct pol as [| | |quantum].
  - by apply fifo_run_detail.
  - destruct (sjf_run_detail s Hvalid Hne) as (r & ? & ? & _). by exists r.
  - by apply stcf_run_detail.
  - destruct (rr_run_detail quantum s Hvalid Hpol Hne) as (r & ? & ? & _).
    by exists r.
Qed.

Lemma tl_ordered_busy lo tl :
  tl_ordered lo tl → lo + busy tl ≤ tl_end_of lo tl.
Proof.
  revert lo. induction tl as [|e tl IH]; intros lo; simpl.
  { intros _. unfold busy, tl_end_of. simpl. lia. }
  intros (Hlo & Hlt & Hrest). specialize (IH _ Hrest).
  rewrite tl_end_of_cons. unfold busy in *. simpl. case_decide; lia.
Qed.

(** The policies on valid input, with the bound on the makespan. *)
Lemma max_arrival_policy_order pol ps :
  max_arrival (policy_order pol ps) = max_arrival ps.
Proof.
  destruct pol; simpl; try done. unfold max_arrival.
  apply foldr_permutation_proper; try apply _.
  - intros a b c. lia.
  - by rewrite sort_by_arrival_perm.
Qed.

Lemma run_valid_bounds pol s :
  valid_input (original_processes s) → valid_policy pol →
  original_processes s ≠ [] →
  ∃ s', completes pol s s' ∧ run_common pol s s' ∧ run_end s'
        ∧ run_detail (processes s') (timeline s')
        ∧ makespan (processes s')
          ≤ max_arrival (original_processes s)
            + total burst_time (original_processes s).
Proof.
  intros Hvalid Hpol Hne.
  destruct (run_valid_detail pol s Hvalid Hpol Hne) as (s' & Hs' & Hdet).
  destruct (run_valid pol s Hvalid Hpol Hne) as (s'' & Hs'' & Hcom & Hend & _).
  rewrite (completes_deterministic _ _ _ _ Hs'' Hs') in *. clear s'' Hs''.
  exists s'. split_and!; try done.
  destruct Hdet as (_ & _ & Hspan). destruct Hcom as (_ & Hspec & _).
  rewrite (max_arrival_spec_of _ _ Hspec) in Hspan.
  rewrite (total_spec_of burst_time burst_time _ _
             ltac:(by intros ?? (_ & _ & ?)%spec_of_eq) Hspec) in Hspan.
  by rewrite total_policy_order, max_arrival_policy_order in Hspan.
Qed.









(** X5.  On valid input the makespan of every policy is at least the
    total burst time and at most the total burst time after the last
    arrival: the processor is never left idle once every process has
    arrived. *)
Theorem makespan_bounds pol s :
  valid_input (original_processes s) → valid_policy pol →
  original_processes s ≠ [] →
  ∃ s', completes pol s s'
       ∧ total burst_time (original_processes s) ≤ makespan (processes s')
       ∧ makespan (processes s')
         ≤ max_arrival (original_processes s)
           + total burst_time (original_processes s).
Proof.
  intros Hvalid Hpol Hne.
  destruct (run_valid_bounds pol s Hvalid Hpol Hne)
    as (s' & Hs' & (_ & _ & _ & Hord & Hbusy) & Hend & _ & Hspan).
  exists s'. split; [done|]. split; [|done].
  unfold run_end in Hend. rewrite <-Hend, <-Hbusy.
  by apply (tl_ordered_busy 0).
Qed.

Lemma makespan_bounds_witness :
  ∃ s', completes SJF (SchedulerSimulator_init main_processes) s'
       ∧ total burst_time main_processes ≤ makespan (processes s')
       ∧ makespan (processes s')
         ≤ max_arrival main_processes + total burst_time main_processes.
Proof.
  apply (makespan_bounds SJF (SchedulerSimulator_init main_processes)).
  - compute_done.
  - done.
  - done.
Defined.

(** X6.  On valid input, with a positive quantum, no Round-Robin slice is
    longer than the quantum, and a process with burst time [b] gets
    exactly [ceil(b / quantum)] slices. *)
Theorem rr_slices_per_process quantum s :
  valid_input (original_processes s) → 0 < quantum →
  original_processes s ≠ [] →
  ∃ s', completes (RR quantum) s s'
       ∧ Forall (λ e, 0 < tl_end e - tl_start e ≤ quantum) (timeline s')
       ∧ ∀ p, p ∈ processes s' →
           Z.of_nat (slices_of (plabel p) (timeline s'))
           = (burst_time p + quantum - 1) / quantum.
Proof.
  intros Hvalid Hq Hne.
  destruct (rr_run_detail quantum s Hvalid Hq Hne) as (r & Hr & _ & Hlen & Hn).
  by exists r.
Qed.

Lemma rr_slices_per_process_witness :
  ∃ s', completes (RR 3) (SchedulerSimulator_init main_processes) s'
       ∧ Forall (λ e, 0 < tl_end e - tl_start e ≤ 3) (timeline s')
       ∧ ∀ p, p ∈ processes s' →
           Z.of_nat (slices_of (plabel p) (timeline s'))
           = (burst_time p + 3 - 1) / 3.
Proof.
  apply (rr_slices_per_process 3 (SchedulerSimulator_init main_processes)).
  - compute_done.
  - done.
  - done.
Defined.

(** X7.  On valid input SJF never starts a job while a shorter one is
    waiting: if a process [q] had arrived when [p] was started and was
    itself started later, then [q] is not shorter than [p]; and if the two
    are equally long, [p] comes first in the process list. *)
Theorem sjf_runs_shortest_waiting_job s :
  valid_input (original_processes s) → original_processes s ≠ [] →
  ∃ s', completes SJF s s'
       ∧ ∀ i j p q,
           processes s' !! i = Some p → processes s' !! j = Some q →
           arrival_time q ≤ first_run p → first_run p < first_run q →
           burst_time p ≤ burst_time q
           ∧ (burst_time p = burst_time q → (i < j)%nat).
Proof.
  intros Hvalid Hne.
  destruct (sjf_run_detail s Hvalid Hne) as (r & Hr & _ & Hord).
  exists r. split; [done|]. intros i j p q Hi Hj Harr Hlt.
  pose proof (lookup_lt_Some _ _ _ Hi) as Hil.
  pose proof (lookup_lt_Some _ _ _ Hj) as Hjl.
  apply list_lookup_total_correct in Hi as <-.
  apply list_lookup_total_correct in Hj as <-.
  apply Hord; try done.
  - apply not_elem_of_nil.
  - intros ->. lia.
  - by right.
Qed.

Lemma sjf_runs_shortest_waiting_job_witness :
  ∃ s', completes SJF (SchedulerSimulator_init tie_processes) s'
       ∧ ∀ i j p q,
           processes s' !! i = Some p → processes s' !! j = Some q →
           arrival_time q ≤ first_run p → first_run p < first_run q →
           burst_time p ≤ burst_time q
           ∧ (burst_time p = burst_time q → (i < j)%nat).
Proof.
  apply (sjf_runs_shortest_waiting_job (SchedulerSimulator_init tie_processes)).
  - compute_done.
  - done.
Defined.

Lemma StronglySorted_and {A} (R1 R2 : relation A) l :
  StronglySorted R1 l → StronglySorted R2 l →
  StronglySorted (λ x y, R1 x y ∧ R2 x y) l.
Proof.
  induction 1 as [|x l Hs IH Hx]; intros H2; [constructor|].
  apply StronglySorted_cons in H2 as [Hx2 Hs2].
  constructor; [by apply IH|].
  rewrite Forall_forall in Hx, Hx2. apply Forall_forall. intros y Hy.
  split; [by apply Hx|by apply Hx2].
Qed.

Lemma StronglySorted_elem {A} (R : relation A) l x y :
  StronglySorted R l → x ∈ l → y ∈ l → x = y ∨ R x y ∨ R y x.
Proof.
  induction 1 as [|a l Hs IH Ha]; [by intros ?%elem_of_nil|].
  rewrite Forall_forall in Ha.
  intros [->|Hx]%elem_of_cons [->|Hy]%elem_of_cons; auto.
Qed.

(** X8.  FIFO serves the processes one after the other in arrival order:
    when no burst time is negative, the result list is sorted by arrival
    time and every process completes before any process behind it in the
    list starts; so a process that arrives strictly earlier than another
    is completed before the other one starts. *)
Theorem fifo_serves_in_arrival_order fuel s r :
  Forall (λ p, 0 ≤ burst_time p) (original_processes s) →
  run FIFO fuel s = Ok r →
  StronglySorted (λ p q, arrival_time p ≤ arrival_time q
                         ∧ completion_time p ≤ first_run q) (processes r.1)
  ∧ ∀ p q, p ∈ processes r.1 → q ∈ processes r.1 →
      arrival_time p < arrival_time q → completion_time p ≤ first_run q.
Proof.
  intros Hb Hrun.
  assert (StronglySorted (λ p q, arrival_time p ≤ arrival_time q
                                 ∧ completion_time p ≤ first_run q)
            (processes r.1)) as Hs.
  { revert Hrun. simpl. unfold fifo_schedule.
    destruct (fifo_loop _ _ _) as [[ps t'] tl] eqn:Hloop.
    intros [-> _]%finish_inv. simpl.
    pose proof (fifo_loop_spec_of _ _ _ _ _ _ Hloop) as Hspec.
    apply fifo_loop_detail in Hloop as (_ & _ & Hrest).
    destruct Hrest as (_ & _ & _ & Hsorted).
    { rewrite sort_by_arrival_perm. simpl. by rewrite Forall_fmap. }
    apply (StronglySorted_fmap metrics_of
             (λ p q, arrival_time p ≤ arrival_time q
                     ∧ completion_time p ≤ first_run q)); [done|].
    apply (StronglySorted_and by_arrival); [|done].
    eapply spec_of_sorted; [exact Hspec|]. apply sort_by_arrival_sorted. }
  split; [done|]. intros p q Hp Hq Hlt.
  destruct (StronglySorted_elem _ _ p q Hs Hp Hq) as [->|[[_ ?]|[? _]]];
    [lia|done|lia].
Qed.

Lemma fifo_serves_in_arrival_order_witness :
  ∃ r, run FIFO 0 (SchedulerSimulator_init
                     [Process_init 1 4 2; Process_init 2 0 3;
                      Process_init 3 4 1]) = Ok r
    ∧ StronglySorted (λ p q, arrival_time p ≤ arrival_time q
                             ∧ completion_time p ≤ first_run q)
        (processes r.1)
    ∧ ∀ p q, p ∈ processes r.1 → q ∈ processes r.1 →
        arrival_time p < arrival_time q → completion_time p ≤ first_run q.
Proof.
  eexists. split; [vm_compute; reflexivity|].
  apply (fifo_serves_in_arrival_order 0
           (SchedulerSimulator_init
              [Process_init 1 4 2; Process_init 2 0 3; Process_init 3 4 1])).
  - simpl. repeat constructor; done.
  - vm_compute. reflexivity.
Defined.

(** *** Runs that never end, and exceptions that cannot occur *)

Lemma while_never_ends {S : Type} (cond : S → bool) (body : S → outcome S)
    (I : S → Prop) :
  (∀ st, I st → cond st = true ∧ ∃ st', body st = Ok st' ∧ I st') →
  ∀ fuel st, I st → while cond body fuel st = OutOfFuel.
Proof.
  intros Hstep. induction fuel as [|f IH]; intros st HI; simpl;
    destruct (Hstep st HI) as (-> & st' & Hb & HI'); [done|].
  rewrite Hb. by apply IH.
Qed.

(** A loop whose body cannot raise under an invariant ends normally or
    not at all. *)
Lemma while_never_raises {S : Type} (cond : S → bool) (body : S → outcome S)
    (I : S → Prop) :
  (∀ st, I st → cond st = true → ∃ st', body st = Ok st' ∧ I st') →
  ∀ fuel st, I st →
    (∃ st', while cond body fuel st = Ok st' ∧ I st')
    ∨ while cond body fuel st = OutOfFuel.
Proof.
  intros Hstep. induction fuel as [|f IH]; intros st HI; simpl;
    destruct (cond st) eqn:Hc; eauto.
  destruct (Hstep st HI Hc) as (st' & -> & HI'). by apply IH.
Qed.

Lemma stcf_dispatched_spec_of t p : spec_of (stcf_dispatched t p) = spec_of p.
Proof.
  unfold stcf_dispatched.
  destruct (decide (first_run p = -1)); simpl; by case_decide.
Qed.

Lemma stcf_dispatched_remaining t p :
  remaining_time (stcf_dispatched t p) = remaining_time p - 1.
Proof.
  unfold stcf_dispatched.
  destruct (decide (first_run p = -1)); simpl; by case_decide.
Qed.

(** A process with [burst_time ≤ 0] is never ready and never completed:
    the loop condition of STCF stays true. *)
Lemma stcf_never_returns fuel s :
  Exists (λ p, burst_time p ≤ 0) (original_processes s) →
  run STCF fuel s = OutOfFuel.
Proof.
  intros (p0 & Hp0 & Hb0)%Exists_exists.
  apply list_elem_of_lookup in Hp0 as [j Hj].
  pose proof (lookup_lt_Some _ _ _ Hj) as Hjn.
  set (n := length (original_processes s)) in *.
  set (I := λ st : STCFState,
         length (stcf_procs st) = n
         ∧ remaining_time (stcf_procs st !!! j) ≤ 0
         ∧ NoDup (stcf_completed st)
         ∧ ∀ i, i ∈ stcf_completed st →
             (i < n)%nat ∧ i ≠ j ∧ remaining_time (stcf_procs st !!! i) = 0).
  simpl. unfold stcf_schedule.
  rewrite (while_never_ends stcf_cond stcf_body I); [done| |].
  - intros st (Hlen & Hrj & Hnd & Hall). split.
    + apply bool_decide_eq_true.
      assert (j :: stcf_completed st ⊆+ seq 0 n) as Hsub.
      { apply NoDup_submseteq.
        - apply NoDup_cons. split; [|done]. intros Hin.
          by destruct (Hall j Hin) as (_ & ? & _).
        - intros i [->|Hi]%elem_of_cons; apply elem_of_seq; [lia|].
          destruct (Hall i Hi). lia. }
      apply submseteq_length in Hsub. rewrite length_seq in Hsub.
      simpl in Hsub. lia.
    + destruct (stcf_body_cases st)
        as [[_ ->]|(cur & Hcur & _ & Hpos & ->)]; eexists; (split; [done|]).
      { done. }
      assert (cur ≠ j) as Hcj by (intros ->; lia).
      assert (cur ∉ stcf_completed st) as Hcc.
      { intros Hin. destruct (Hall cur Hin) as (_ & _ & ?). lia. }
      unfold I. simpl. rewrite length_insert.
      rewrite list_lookup_total_insert_ne by done.
      split_and!; [done|done|..].
      * case_decide; [|done]. apply NoDup_app. split_and!; [done| |].
        -- by intros i Hi ->%list_elem_of_singleton.
        -- apply NoDup_singleton.
      * intros i Hi.
        assert (i ∈ stcf_completed st
                ∨ (i = cur ∧ remaining_time (stcf_procs st !!! cur) - 1 = 0))
          as [Hold|[-> Hz]].
        { case_decide; [|by left].
          apply elem_of_app in Hi as [?|Hi]; [by left|].
          apply list_elem_of_singleton in Hi as ->. by right. }
        -- destruct (Hall i Hold) as (? & ? & ?).
           rewrite list_lookup_total_insert_ne; [done|]. by intros ->.
        -- rewrite list_lookup_total_insert_eq by lia.
           rewrite stcf_dispatched_remaining. split_and!; [lia|done|done].
  - unfold I. simpl. rewrite length_fmap. split_and!; [done| |constructor|].
    + rewrite (list_lookup_total_fmap _ (original_processes s) j Hjn).
      simpl. by rewrite (list_lookup_total_correct _ _ _ Hj).
    + intros i Hi. by apply elem_of_nil in Hi.
Qed.

(** With unique pids an iteration of the Round-Robin loop never raises,
    for any quantum, and keeps [in_queue] in step with [queue]. *)
Lemma rr_body_wf quantum st :
  rr_wf st →
  ∃ st', rr_body quantum st = Ok st' ∧ rr_wf st'
    ∧ length (rr_procs st') = length (rr_procs st)
    ∧ ((rr_procs st' = rr_procs st ∧ rr_completed st' = rr_completed st)
       ∨ ∃ c, (c < length (rr_procs st))%nat
           ∧ rr_procs st' = <[c := rr_procs st' !!! c]> (rr_procs st)
           ∧ remaining_time (rr_procs st' !!! c)
             = remaining_time (rr_procs st !!! c)
               - Z.min quantum (remaining_time (rr_procs st !!! c))
           ∧ rr_completed st'
             = if decide (remaining_time (rr_procs st' !!! c) = 0)
               then rr_completed st ++ [c] else rr_completed st).
Proof.
  intros Hwf. pose proof Hwf as (Hnd & Hq & Hb & Hinq).
  destruct (rr_queue st
            ++ rr_arrivals (rr_procs st) (rr_time st) None (rr_queue st))
    as [|c rest] eqn:Hq1.
  - rewrite (rr_body_idle quantum st Hwf Hq1). eexists. split; [done|].
    split; [|split; [done|by left]].
    split_and!; simpl; try done; [constructor|].
    intros j Hj. by apply elem_of_nil in Hj.
  - rewrite (rr_body_run quantum st c rest Hwf Hq1). cbn zeta.
    set (ps := rr_procs st) in *. set (t := rr_time st) in *.
    set (p0 := ps !!! c).
    set (t' := t + Z.min quantum (remaining_time p0)).
    pose proof (rr_dispatched_spec_of quantum t p0) as Hs2.
    set (p2 := rr_dispatched quantum t p0) in *.
    set (q3 := rest ++ rr_arrivals (<[c := p2]> ps) t' (Some c) rest).
    assert (NoDup (c :: rest)) as [Hc_rest Hrest]%NoDup_cons
      by (rewrite <-Hq1; by apply rr_arrivals_NoDup).
    assert (∀ j, j ∈ c :: rest → (j < length ps)%nat) as Hb1.
    { intros j. rewrite <-Hq1.
      intros [?|[_ ?]%rr_arrivals_elem]%elem_of_app; auto. }
    assert (NoDup q3) as Hnd3 by by apply rr_arrivals_NoDup.
    assert (∀ j, j ∈ q3 → j ≠ c ∧ (j < length ps)%nat) as Hb3.
    { intros j [Hj|[(_ & _ & _ & Hsk) Hjn]%rr_arrivals_elem]%elem_of_app.
      - split; [by intros ->|]. apply Hb1. by right.
      - rewrite length_insert in Hjn. split; [congruence|done]. }
    assert (∀ p, spec_of p = spec_of p0 →
              NoDup (pid <$> <[c := p]> ps)
              ∧ ∀ q, pidset ps q = pidset (<[c := p]> ps) q) as Hins.
    { intros p Hp.
      assert (spec_of <$> <[c := p]> ps = spec_of <$> ps) as Hsp
        by by rewrite spec_of_insert.
      split.
      - assert (pid <$> <[c := p]> ps = pid <$> ps) as ->; [|done].
        change pid with ((λ x : Z * Z * Z, x.1.1) ∘ spec_of).
        by rewrite !(list_fmap_compose spec_of), Hsp.
      - intros q. symmetry. by apply pidset_spec_of. }
    pose proof (rr_dispatched_remaining quantum t p0) as Hr2. fold p2 in Hr2.
    clearbody p2.
    assert (c < length ps)%nat as Hcn by (apply Hb1; left).
    destruct (decide (remaining_time p2 = 0)) as [Hz|Hz].
    + destruct (Hins (set_completion_time t' p2)) as [Hnd' Hps']; [done|].
      eexists. split; [done|]. split; [|split].
      2:{ simpl. by rewrite length_insert. }
      2:{ right. exists c. simpl.
          rewrite list_lookup_total_insert_eq by done. simpl.
          rewrite decide_True by done. by split_and!. }
      split_and!; simpl; try done.
      * intros j Hj. rewrite length_insert. by apply Hb3.
    + destruct (Hins p2) as [Hnd' Hps']; [done|].
      eexists. split; [done|]. split; [|split].
      2:{ simpl. by rewrite length_insert. }
      2:{ right. exists c. simpl.
          rewrite list_lookup_total_insert_eq by done.
          rewrite decide_False by done. by split_and!. }
      split_and!; simpl; try done.
      * apply NoDup_app. split_and!; [done| |apply NoDup_singleton].
        intros j Hj ->%list_elem_of_singleton. by destruct (Hb3 c Hj).
      * intros j [Hj|Hj]%elem_of_app; rewrite length_insert.
        -- by apply Hb3.
        -- apply list_elem_of_singleton in Hj as ->. apply Hb1. left.
Qed.

Lemma rr_initial_wf (ps : list Process) :
  NoDup (pid <$> ps) →
  rr_wf (mkRR ps 0 (rr_initial ps).1 [] (rr_initial ps).2 []).
Proof.
  intros Hnd. rewrite rr_initial_spec. simpl. split_and!; simpl; try done.
  - apply NoDup_filter, NoDup_seq.
  - intros j [_ Hj%elem_of_seq]%list_elem_of_filter. lia.
Qed.

Lemma reset_processes_pids s :
  pid <$> processes (reset_processes s) = pid <$> original_processes s.
Proof. simpl. by rewrite <-list_fmap_compose. Qed.

(** X9.  With unique pids the simulation of Round Robin raises no
    exception on a non-empty input, for any quantum, burst times and
    arrival times: the [KeyError] of [in_queue.remove] needs a duplicated
    pid.  The call returns, or loops on, or gets through the simulation
    and raises the [OverflowError] of an average too large for a float. *)
Theorem rr_no_KeyError_on_unique_pids quantum fuel s :
  NoDup (pid <$> original_processes s) → original_processes s ≠ [] →
  (∃ r, run (RR quantum) fuel s = Ok r)
  ∨ run (RR quantum) fuel s = OutOfFuel
  ∨ ((∃ s', simulate (RR quantum) fuel (reset_processes s) = Ok s')
     ∧ run (RR quantum) fuel s = Raise OverflowError).
Proof.
  intros Hnd Hne. rewrite run_simulate. unfold simulate.
  pose proof (rr_initial_wf (processes (reset_processes s))) as Hwf0.
  rewrite reset_processes_pids in Hwf0. specialize (Hwf0 Hnd).
  destruct (rr_initial _) as [q0 inq0]. simpl in Hwf0.
  destruct (while_never_raises rr_cond (rr_body quantum)
              (λ st, rr_wf st
                     ∧ length (rr_procs st) = length (original_processes s)))
    with (fuel := fuel)
         (st := mkRR (processes (reset_processes s)) 0 q0 [] inq0
                  (timeline (reset_processes s)))
    as [(st & Hw & _ & Hlen)| Hw];
    [| |rewrite Hw; simpl|rewrite Hw; by right; left].
  - intros st [Hwf Hlen] _.
    destruct (rr_body_wf quantum st Hwf) as (st' & ? & ? & Hlen' & _).
    exists st'. split_and!; try done. by rewrite Hlen'.
  - split; [done|]. simpl. by rewrite length_fmap.
  - destruct (print_results_cases
                (calculate_metrics (mkSim (original_processes s) (rr_procs st)
                                      (rr_timeline st)))) as [->|[avg ->]];
      simpl; [|by eauto|by eauto].
    intros Hnil%fmap_nil_inv. rewrite Hnil in Hlen.
    by destruct (original_processes s).
Qed.

Lemma rr_no_KeyError_on_unique_pids_witness :
  let s := SchedulerSimulator_init
             [Process_init 1 2 0; Process_init 2 (-3) 4] in
  (∃ r, run (RR (-2)) 9 s = Ok r)
  ∨ run (RR (-2)) 9 s = OutOfFuel
  ∨ ((∃ s', simulate (RR (-2)) 9 (reset_processes s) = Ok s')
     ∧ run (RR (-2)) 9 s = Raise OverflowError).
Proof.
  intros s. apply (rr_no_KeyError_on_unique_pids (-2) 9 s).
  - compute_done.
  - done.
Defined.

(** X10.  With a quantum of 0 or less Round Robin never returns on a valid
    non-empty input: no slice takes anything off the remaining time, so no
    process ever completes, and nothing is raised either. *)
Theorem rr_never_returns_on_nonpositive_quantum quantum fuel s :
  valid_input (original_processes s) → original_processes s ≠ [] →
  quantum ≤ 0 → run (RR quantum) fuel s = OutOfFuel.
Proof.
  intros [Hnd Hv] Hne Hq. simpl. unfold rr_schedule.
  pose proof (rr_initial_wf (processes (reset_processes s))) as Hwf0.
  rewrite reset_processes_pids in Hwf0. specialize (Hwf0 Hnd).
  destruct (rr_initial _) as [q0 inq0]. simpl in Hwf0.
  set (n := length (original_processes s)).
  rewrite (while_never_ends rr_cond (rr_body quantum)
             (λ st, rr_wf st ∧ length (rr_procs st) = n
                    ∧ rr_completed st = []
                    ∧ ∀ i, (i < n)%nat →
                        remaining_time (rr_procs st !!! i) > 0)); [done| |].
  - intros st (Hwf & Hlen & Hcomp & Hpos). split.
    + unfold rr_cond. rewrite Hcomp, Hlen. simpl.
      rewrite (bool_decide_eq_true_2 (0 < n)%nat); [apply orb_true_r|].
      unfold n. destruct (original_processes s); [done|simpl; lia].
    + destruct (rr_body_wf quantum st Hwf)
        as (st' & Hb & Hwf' & Hlen' & Hcase).
      exists st'. split; [done|]. split; [done|]. split; [lia|].
      destruct Hcase as [[-> ->]|(c & Hc & Hps & Hrem & Hcp)]; [done|].
      specialize (Hpos c ltac:(lia)) as Hposc.
      assert (remaining_time (rr_procs st' !!! c) > 0) as Hpos' by lia.
      rewrite decide_False in Hcp by lia. split; [congruence|].
      intros i Hi. destruct (decide (i = c)) as [->|Hic]; [done|].
      rewrite Hps, list_lookup_total_insert_ne by done. by apply Hpos.
  - split_and!; simpl; try done.
    + by rewrite length_fmap.
    + intros i Hi.
      rewrite (list_lookup_total_fmap _ (original_processes s) i Hi). simpl.
      pose proof (Forall_lookup_total_1 _ _ i Hv Hi) as [_ ?]. lia.
Qed.

Lemma rr_never_returns_on_nonpositive_quantum_witness :
  run (RR 0) 1000 (SchedulerSimulator_init main_processes) = OutOfFuel.
Proof.
  apply rr_never_returns_on_nonpositive_quantum.
  - compute_done.
  - done.
  - done.
Defined.

(** *** The labels of the timeline, on any input *)

Lemma plabel_fmap_insert (ps : list Process) i p :
  spec_of p = spec_of (ps !!! i) → plabel <$> <[i := p]> ps = plabel <$> ps.
Proof. intros Hp. apply plabel_fmap_spec_of. by apply spec_of_insert. Qed.

Lemma plabel_elem_lookup (ps : list Process) i :
  (i < length ps)%nat → plabel (ps !!! i) ∈ plabel <$> ps.
Proof.
  intros Hi. apply list_elem_of_fmap. exists (ps !!! i). split; [done|].
  by apply list_elem_of_lookup_total_2.
Qed.

Lemma rr_scan_bound ps t skip q inq i :
  i ∈ (rr_scan ps t skip q inq).1 → i ∈ q ∨ (i < length ps)%nat.
Proof.
  unfold rr_scan.
  assert (∀ l (acc : list nat * gset Z),
            (∀ x, x ∈ l → (x < length ps)%nat) →
            i ∈ (foldl (rr_scan_one ps t skip) acc l).1 →
            i ∈ acc.1 ∨ (i < length ps)%nat) as H.
  { induction l as [|x l IH]; intros acc Hl; simpl; [by left|].
    intros Hi. apply IH in Hi as [Hi|Hi]; [|by right|].
    - unfold rr_scan_one in Hi. case_decide; [|by left]. simpl in Hi.
      apply elem_of_app in Hi as [Hi|Hi]; [by left|].
      apply list_elem_of_singleton in Hi as ->. right. apply Hl. left.
    - intros y Hy. apply Hl. by right. }
  intros Hi. apply (H (seq 0 (length ps)) (q, inq)); [|done].
  intros x Hx%elem_of_seq. lia.
Qed.

(** What an iteration of the Round-Robin loop does to the timeline, on any
    state from which it returns. *)
Lemma rr_body_timeline quantum st st' :
  (∀ i, i ∈ rr_queue st → (i < length (rr_procs st))%nat) →
  rr_body quantum st = Ok st' →
  (∀ i, i ∈ rr_queue st' → (i < length (rr_procs st'))%nat)
  ∧ spec_of <$> rr_procs st' = spec_of <$> rr_procs st
  ∧ (rr_timeline st' = rr_timeline st
     ∨ ∃ c s e, (c < length (rr_procs st))%nat
         ∧ rr_timeline st'
           = rr_timeline st ++ [(plabel (rr_procs st !!! c), s, e)]).
Proof.
  intros Hb Hbody.
  pose proof (rr_body_spec_of _ _ _ Hbody) as Hspec.
  pose proof (spec_of_length _ _ Hspec) as Hlen.
  revert Hbody. unfold rr_body.
  destruct (rr_scan _ _ None _ _) as [[|cur queue] inq] eqn:Hscan1.
  { intros [= <-]. simpl. split_and!; [|done|by left].
    intros i Hi. by apply elem_of_nil in Hi. }
  assert (∀ i, i ∈ cur :: queue → (i < length (rr_procs st))%nat) as Hb1.
  { intros i Hi.
    destruct (rr_scan_bound (rr_procs st) (rr_time st) None (rr_queue st)
                (rr_in_queue st) i) as [?|?]; [by rewrite Hscan1|auto|done]. }
  intros (inq' & _ & Hbody)%obind_Ok. revert Hbody.
  set (p := if decide (first_run (rr_procs st !!! cur) = -1)
            then _ else rr_procs st !!! cur).
  assert (plabel (set_remaining_time
                    (remaining_time p
                     - Z.min quantum (remaining_time p)) p)
          = plabel (rr_procs st !!! cur)) as Hl.
  { unfold p. by case_decide. }
  cbn zeta. rewrite Hl.
  destruct (rr_scan _ _ (Some cur) _ _) as [queue' inq''] eqn:Hscan2.
  assert (∀ i, i ∈ queue' → (i < length (rr_procs st))%nat) as Hb2.
  { intros i Hi.
    match type of Hscan2 with rr_scan ?ps ?t ?sk ?q ?iq = _ =>
      destruct (rr_scan_bound ps t sk q iq i) as [?|Hi'];
        [by rewrite Hscan2|apply Hb1; by right|] end.
    by rewrite length_insert in Hi'. }
  case_decide; intros [= <-]; simpl in *; rewrite ?length_insert.
  - split_and!; [done|done|]. right. exists cur. eexists _, _.
    split; [apply Hb1; left|done].
  - split_and!; [|done|].
    + intros i [Hi|Hi]%elem_of_app; [by apply Hb2|].
      apply list_elem_of_singleton in Hi as ->. apply Hb1. left.
    + right. exists cur. eexists _, _. split; [apply Hb1; left|done].
Qed.

Lemma finish_timeline s r : finish s = Ok r → timeline r.1 = timeline s.
Proof. by intros [-> _]%finish_inv. Qed.

Lemma run_labels pol fuel s r :
  run pol fuel s = Ok r →
  Forall (λ e, tl_label e ∈ plabel <$> original_processes s
               ∨ (tl_label e = IDLE ∧ (pol = FIFO ∨ pol = SJF)))
         (timeline r.1).
Proof.
  set (L := plabel <$> original_processes s).
  assert (plabel <$> processes (reset_processes s) = L) as HL0
    by (apply plabel_fmap_spec_of, reset_processes_spec_of).
  destruct pol as [| | |quantum]; simpl;
    unfold fifo_schedule, sjf_schedule, stcf_schedule, rr_schedule.
  - destruct (fifo_loop _ _ _) as [[ps t] tl] eqn:Hloop.
    intros ->%finish_timeline. simpl.
    pose proof (fifo_loop_spec_of _ _ _ _ _ _ Hloop) as Hspec.
    apply fifo_loop_detail in Hloop as (_ & Hmem & _).
    apply Forall_forall. intros e He.
    destruct (Hmem e He) as [Hnil|[?|(p & Hp & ->)]];
      [by apply elem_of_nil in Hnil|right; by eauto|left].
    unfold tl_label. simpl. unfold L.
    assert (plabel p ∈ plabel <$> ps) as Hin
      by (apply list_elem_of_fmap; by exists p).
    rewrite (plabel_fmap_spec_of _ _ Hspec) in Hin.
    rewrite (sort_by_arrival_perm (processes (reset_processes s))) in Hin.
    by rewrite HL0 in Hin.
  - intros (st & Hwhile & ->%finish_timeline)%obind_Ok. simpl.
    eapply (while_partial sjf_cond sjf_body
              (λ st, (∀ i, i ∈ sjf_remaining st →
                           (i < length (sjf_procs st))%nat)
                     ∧ plabel <$> sjf_procs st = L
                     ∧ Forall (λ e, tl_label e ∈ L
                                    ∨ (tl_label e = IDLE
                                       ∧ (SJF = FIFO ∨ SJF = SJF)))
                         (sjf_timeline st))) in Hwhile
      as [(_ & _ & Hall) _]; [done| |].
    + intros st1 st2 (Hb & Hl & Hall) _ Hbody.
      destruct (sjf_body_cases st1 st2 Hbody)
        as [(i0 & _ & _ & ->)|(x & r1 & r2 & Hrem & _ & _ & _ & ->)]; simpl.
      * split_and!; [done|done|]. apply Forall_app. split; [done|].
        constructor; [|done]. right. by eauto.
      * assert (x < length (sjf_procs st1))%nat as Hx
          by (apply Hb; rewrite Hrem; apply elem_of_middle).
        rewrite length_insert, plabel_fmap_insert by done. split_and!.
        -- intros i Hi. apply Hb. rewrite Hrem. by apply elem_of_app_middle.
        -- done.
        -- apply Forall_app. split; [done|]. constructor; [|done]. left.
           rewrite <-Hl. by apply plabel_elem_lookup.
    + simpl. split_and!; [|done|done].
      intros i Hi%elem_of_seq. lia.
  - intros (st & Hwhile & ->%finish_timeline)%obind_Ok. simpl.
    eapply (while_partial stcf_cond stcf_body
              (λ st, plabel <$> stcf_procs st = L
                     ∧ Forall (λ e, tl_label e ∈ L
                                    ∨ (tl_label e = IDLE
                                       ∧ (STCF = FIFO ∨ STCF = SJF)))
                         (stcf_timeline st))) in Hwhile
      as [(_ & Hall) _]; [done| |done].
    intros st1 st2 (Hl & Hall) _ Hbody.
    destruct (stcf_body_cases st1) as [[_ Hb]|(cur & Hcur & _ & _ & Hb)];
      rewrite Hb in Hbody; injection Hbody as <-; simpl; [done|].
    rewrite plabel_fmap_insert by apply stcf_dispatched_spec_of.
    split; [done|]. apply Forall_forall. intros e He.
    rewrite Forall_forall in Hall.
    destruct (tl_extends_elem _ _ _ _ _ e
                (timeline_merge_extends _ _ _ _) He) as [?|(-> & _)];
      [by apply Hall|].
    left. rewrite <-Hl. by apply plabel_elem_lookup.
  - destruct (rr_initial _) as [q0 inq0] eqn:Hinit.
    intros (st & Hwhile & ->%finish_timeline)%obind_Ok. simpl.
    eapply (while_partial rr_cond (rr_body quantum)
              (λ st, (∀ i, i ∈ rr_queue st →
                           (i < length (rr_procs st))%nat)
                     ∧ plabel <$> rr_procs st = L
                     ∧ Forall (λ e, tl_label e ∈ L
                                    ∨ (tl_label e = IDLE
                                       ∧ (RR quantum = FIFO
                                          ∨ RR quantum = SJF)))
                         (rr_timeline st))) in Hwhile
      as [(_ & _ & Hall) _]; [done| |].
    + intros st1 st2 (Hb & Hl & Hall) _ Hbody.
      destruct (rr_body_timeline quantum st1 st2 Hb Hbody)
        as (Hb' & Hspec & Htl).
      split_and!; [done|by rewrite (plabel_fmap_spec_of _ _ Hspec)|].
      destruct Htl as [->|(c & s0 & e0 & Hc & ->)]; [done|].
      apply Forall_app. split; [done|]. constructor; [|done]. left.
      rewrite <-Hl. by apply plabel_elem_lookup.
    + simpl. split_and!; [|done|done].
      intros i Hi. rewrite rr_initial_spec in Hinit. injection Hinit as <- _.
      apply list_elem_of_filter in Hi as [_ Hi%elem_of_seq]. lia.
Qed.

(** X11.  Whatever the input, the timeline of a run that returns holds
    only labels of input processes and, for FIFO and SJF, [IDLE]: STCF and
    Round Robin record no idle time at all. *)
Theorem timeline_labels pol fuel s r :
  run pol fuel s = Ok r →
  Forall (λ e, tl_label e ∈ plabel <$> original_processes s
               ∨ (tl_label e = IDLE ∧ (pol = FIFO ∨ pol = SJF)))
         (timeline r.1).
Proof. apply run_labels. Qed.

Lemma timeline_labels_witness :
  ∃ r, run STCF 30 (SchedulerSimulator_init
                      [Process_init 1 2 1; Process_init 2 5 2]) = Ok r
    ∧ Forall (λ e, tl_label e ∈ ["P1"; "P2"]
                   ∨ (tl_label e = IDLE ∧ (STCF = FIFO ∨ STCF = SJF)))
        (timeline r.1).
Proof.
  eexists. split; [vm_compute; reflexivity|].
  apply (timeline_labels STCF 30
           (SchedulerSimulator_init
              [Process_init 1 2 1; Process_init 2 5 2])).
  vm_compute. reflexivity.
Defined.

(** *** The Gantt chart *)

Lemma color_map_snoc ps p :
  color_map (ps ++ [p])
  = <[plabel p := Palette (S (length ps))]> (color_map ps).
Proof.
  unfold color_map. rewrite length_app. simpl length.
  rewrite Nat.add_1_r, seq_S. simpl.
  rewrite zip_with_app by by rewrite length_seq.
  by rewrite foldl_app.
Qed.

Lemma color_map_IDLE ps : color_map ps !! IDLE = Some (Palette 0).
Proof.
  induction ps as [|p ps IH] using rev_ind; [done|].
  rewrite color_map_snoc, lookup_insert_ne; [done|apply plabel_not_IDLE].
Qed.

(** The row of a label is that of the last process that carries it. *)
Lemma color_map_label ps lbl :
  lbl ∈ plabel <$> ps →
  ∃ k, color_map ps !! lbl = Some (Palette (S k)) ∧ (k < length ps)%nat
       ∧ plabel (ps !!! k) = lbl.
Proof.
  induction ps as [|p ps IH] using rev_ind; [by intros ?%elem_of_nil|].
  rewrite color_map_snoc, length_app. simpl length.
  destruct (decide (plabel p = lbl)) as [<-|Hne].
  - intros _. exists (length ps). rewrite lookup_insert_eq.
    split_and!; [done|lia|].
    by rewrite lookup_total_app_r, Nat.sub_diag by done.
  - rewrite fmap_app, elem_of_app. simpl.
    intros [Hin|Hin%list_elem_of_singleton]; [|done].
    destruct (IH Hin) as (k & Hk & Hlt & Hl). exists k.
    rewrite lookup_insert_ne by done.
    split_and!; [done|lia|]. by rewrite lookup_total_app_l.
Qed.

Lemma color_map_foreign ps lbl :
  lbl ≠ IDLE → lbl ∉ plabel <$> ps → color_map ps !! lbl = None.
Proof.
  intros Hidle. induction ps as [|p ps IH] using rev_ind; intros Hni.
  - unfold color_map. simpl. by rewrite lookup_singleton_ne.
  - rewrite fmap_app, not_elem_of_app in Hni. destruct Hni as [Hni Hp].
    rewrite color_map_snoc, lookup_insert_ne; [by apply IH|].
    intros Heq. apply Hp. rewrite <-Heq. left.
Qed.

(** X12.  With unique pids every process has a colour row of its own: the
    chart colours the label of the process at position [i] of
    [self.processes] with row [i + 1] of [colors], and [IDLE] with row 0;
    a label of no process has no entry in [color_map] (it would be drawn
    gray). *)
Theorem color_map_rows ps :
  NoDup (pid <$> ps) →
  color_map ps !! IDLE = Some (Palette 0)
  ∧ (∀ i p, ps !! i = Some p →
       color_map ps !! plabel p = Some (Palette (S i)))
  ∧ (∀ lbl, lbl ≠ IDLE → lbl ∉ plabel <$> ps → color_map ps !! lbl = None).
Proof.
  intros Hnd. split; [apply color_map_IDLE|]. split; [|apply color_map_foreign].
  intros i p Hi.
  pose proof (lookup_lt_Some _ _ _ Hi) as Hlt.
  apply list_lookup_total_correct in Hi as <-.
  destruct (color_map_label ps (plabel (ps !!! i))) as (k & -> & Hk & Hl).
  { by apply plabel_elem_lookup. }
  apply NoDup_plabel_index in Hl; [|done..]. by subst.
Qed.

Lemma color_map_rows_witness :
  color_map main_processes !! IDLE = Some (Palette 0)
  ∧ (∀ i p, main_processes !! i = Some p →
       color_map main_processes !! plabel p = Some (Palette (S i)))
  ∧ (∀ lbl, lbl ≠ IDLE → lbl ∉ plabel <$> main_processes →
       color_map main_processes !! lbl = None).
Proof. apply (color_map_rows main_processes). compute_done. Defined.

(** With a duplicated pid the two processes share the row of the later
    one. *)
Example color_map_duplicate_pid :
  color_map [Process_init 7 0 1; Process_init 7 1 1] !! "P7"
  = Some (Palette 2).
Proof. reflexivity. Qed.

Lemma plabel_policy_order pol ps lbl :
  lbl ∈ plabel <$> policy_order pol ps ↔ lbl ∈ plabel <$> ps.
Proof.
  destruct pol; simpl; try done. by rewrite sort_by_arrival_perm.
Qed.

Lemma draw_entries_colours (cm : gmap string Color) (P : Color → Prop) tl :
  Forall (λ e, P (default Gray (cm !! tl_label e))) tl →
  Forall (λ d, match d with Barh _ _ c => P c | TextAt _ _ => True end)
         (tl ≫= draw_entry cm).
Proof.
  induction 1 as [|e tl He _ IH]; [constructor|].
  change ((e :: tl) ≫= draw_entry cm)
    with (draw_entry cm e ++ (tl ≫= draw_entry cm)).
  apply Forall_app. split; [|done].
  destruct e as [[lbl s0] e0]. unfold tl_label in He. simpl in He.
  unfold draw_entry. case_decide; repeat constructor; done.
Qed.

(** X13.  After a run that returns, whatever the input, the chart never
    falls back to gray: every bar of [visualize_timeline] is drawn in a
    row of [colors], since every label of the timeline is a key of
    [color_map]. *)
Theorem chart_has_no_gray_bar pol fuel s r title fig :
  run pol fuel s = Ok r → visualize_timeline r.1 title = Some fig →
  Forall (λ d, match d with
               | Barh _ _ c =>
                   ∃ k, c = Palette k ∧ (k ≤ length (processes r.1))%nat
               | TextAt _ _ => True
               end) (fig_draws fig).
Proof.
  intros Hrun. pose proof (run_labels _ _ _ _ Hrun) as Hl.
  pose proof (run_order _ _ _ _ Hrun) as Hord.
  apply plabel_fmap_spec_of in Hord.
  assert (Forall (λ e, ∃ k,
            default Gray (color_map (processes r.1) !! tl_label e) = Palette k
            ∧ (k ≤ length (processes r.1))%nat) (timeline r.1)) as Hc.
  { eapply Forall_impl; [exact Hl|]. intros e [Hin|[-> _]].
    - rewrite <-(plabel_policy_order pol), <-Hord in Hin.
      destruct (color_map_label _ _ Hin) as (k & -> & Hk & _).
      exists (S k). split; [done|lia].
    - rewrite color_map_IDLE. exists 0%nat. split; [done|lia]. }
  unfold visualize_timeline.
  destruct (timeline r.1) as [|e0 rest] eqn:Htl; [done|].
  rewrite <-Htl in Hc |- *. intros [= <-]. cbn [fig_draws].
  by apply (draw_entries_colours _
              (λ c, ∃ k, c = Palette k ∧ (k ≤ length (processes r.1))%nat)).
Qed.

Lemma chart_has_no_gray_bar_witness :
  ∃ r fig,
    run FIFO 0 (SchedulerSimulator_init
                  [Process_init 3 1 2; Process_init 3 0 1]) = Ok r
    ∧ visualize_timeline r.1 "FIFO Scheduling" = Some fig
    ∧ Forall (λ d, match d with
                   | Barh _ _ c =>
                       ∃ k, c = Palette k ∧ (k ≤ length (processes r.1))%nat
                   | TextAt _ _ => True
                   end) (fig_draws fig).
Proof.
  eexists _, _. split; [vm_compute; reflexivity|].
  split; [vm_compute; reflexivity|].
  eapply (chart_has_no_gray_bar FIFO 0
           (SchedulerSimulator_init [Process_init 3 1 2; Process_init 3 0 1])
           _ "FIFO Scheduling").
  - vm_compute. reflexivity.
  - vm_compute. reflexivity.
Defined.

Lemma foldl_max_spec a l :
  foldl Z.max a l ∈ a :: l ∧ ∀ x, x ∈ a :: l → x ≤ foldl Z.max a l.
Proof.
  revert a. induction l as [|b l IH]; intros a; simpl.
  - split; [left|]. intros x ->%list_elem_of_singleton. lia.
  - destruct (IH (Z.max a b)) as [Hin Hle]. split.
    + apply elem_of_cons in Hin as [Heq|Hin]; [|by right; right].
      rewrite Heq. destruct (Z.max_spec a b) as [[_ ->]|[_ ->]];
        [right; left|left].
    + intros x Hx.
      assert (Z.max a b ≤ foldl Z.max (Z.max a b) l) by (apply Hle; left).
      apply elem_of_cons in Hx as [->|[->|Hx]%elem_of_cons]; [lia|lia|].
      apply Hle. by right.
Qed.

(** X14.  The time axis of the chart: for a timeline whose latest end is
    [m ≥ 0], the ticks are the multiples of [step = max(1, m // 20)] from
    0 up to [m]; the last one is less than a step short of [m], and there
    are at most 40 of them (at least 21 once [m ≥ 20]). *)
Theorem xticks_cover_the_timeline s title fig m :
  visualize_timeline s title = Some fig →
  (∀ e, e ∈ timeline s → tl_end e ≤ m) →
  (∃ e, e ∈ timeline s ∧ tl_end e = m) → 0 ≤ m →
  let step := Z.max 1 (m / 20) in
  let n := Z.to_nat (m / step + 1) in
  fig_xticks fig = (λ k : nat, Z.of_nat k * step) <$> seq 0 n
  ∧ (1 ≤ n ≤ 40)%nat
  ∧ (20 ≤ m → (21 ≤ n)%nat)
  ∧ Z.of_nat (n - 1) * step ≤ m < Z.of_nat n * step.
Proof.
  unfold visualize_timeline.
  destruct (timeline s) as [|e0 rest] eqn:Htl; [done|].
  intros [= <-] Hle (e & He & Hem) Hm. cbn zeta. cbn [fig_xticks].
  destruct (foldl_max_spec (tl_end e0) (tl_end <$> rest)) as [Hin Hmax].
  assert (foldl Z.max (tl_end e0) (tl_end <$> rest) = m) as ->.
  { apply Z.le_antisymm.
    - change (tl_end e0 :: (tl_end <$> rest)) with (tl_end <$> e0 :: rest)
        in Hin.
      apply list_elem_of_fmap in Hin as (e' & -> & He'). by apply Hle.
    - rewrite <-Hem. apply Hmax.
      change (tl_end e0 :: (tl_end <$> rest)) with (tl_end <$> e0 :: rest).
      apply list_elem_of_fmap. by exists e. }
  set (step := Z.max 1 (m / 20)).
  assert (1 ≤ step) as Hstep by (unfold step; lia).
  assert (0 ≤ m / step) as Hq by (apply Z.div_pos; lia).
  assert (m / step ≤ 39) as Hq39.
  { assert (m / step < 40); [|lia].
    apply Z.div_lt_upper_bound; [lia|].
    pose proof (Z.mul_succ_div_gt m 20 ltac:(lia)). unfold step. lia. }
  assert (step * (m / step) ≤ m < step * Z.succ (m / step)) as Hlast.
  { split; [apply Z.mul_div_le; lia|apply Z.mul_succ_div_gt; lia]. }
  split_and!.
  - unfold py_range0. do 2 f_equal.
    replace (m + 1 + step - 1) with (m + 1 * step) by lia.
    by rewrite Z.div_add by lia.
  - lia.
  - lia.
  - intros H20. assert (20 ≤ m / step); [|lia].
    apply Z.div_le_lower_bound; [lia|].
    pose proof (Z.mul_div_le m 20 ltac:(lia)).
    assert (1 ≤ m / 20) by (apply Z.div_le_lower_bound; lia).
    unfold step. lia.
  - rewrite Nat2Z.inj_sub by lia. rewrite Z2Nat.id by lia. lia.
  - rewrite Z2Nat.id by lia. lia.
Qed.

Lemma xticks_cover_the_timeline_witness :
  ∃ fig,
    visualize_timeline (mkSim [] [] [("P1", 0, 30); ("P2", 30, 45)])
      "SJF Scheduling" = Some fig
    ∧ fig_xticks fig = (λ k : nat, Z.of_nat k * 2) <$> seq 0 23
    ∧ (1 ≤ 23 ≤ 40)%nat
    ∧ (20 ≤ 45 → (21 ≤ 23)%nat)
    ∧ Z.of_nat (23 - 1) * 2 ≤ 45 < Z.of_nat 23 * 2.
Proof.
  eexists. split; [reflexivity|].
  apply (xticks_cover_the_timeline
           (mkSim [] [] [("P1", 0, 30); ("P2", 30, 45)]) "SJF Scheduling" _ 45).
  - reflexivity.
  - intros e He. simpl in He.
    apply elem_of_cons in He as [->|He]; [simpl; unfold tl_end; simpl; lia|].
    apply list_elem_of_singleton in He as ->. unfold tl_end; simpl; lia.
  - exists ("P2", 30, 45). split; [simpl; right; left|done].
  - lia.
Defined.



(** *** The driver *)





(** *** STCF on any input with positive burst times *)

Lemma stcf_body_progress ps0 st :
  spec_of <$> stcf_procs st = spec_of <$> ps0 →
  Forall (λ p, 0 ≤ remaining_time p) (stcf_procs st) →
  length (stcf_completed st) = ndone (stcf_procs st) →
  stcf_cond st = true →
  ∃ st', stcf_body st = Ok st'
    ∧ spec_of <$> stcf_procs st' = spec_of <$> ps0
    ∧ Forall (λ p, 0 ≤ remaining_time p) (stcf_procs st')
    ∧ length (stcf_completed st') = ndone (stcf_procs st')
    ∧ (stcf_measure ps0 st' < stcf_measure ps0 st)%nat.
Proof.
  intros Hspec Hnonneg Hnd Hcond. apply bool_decide_eq_true in Hcond.
  unfold stcf_measure, work_left.
  destruct (stcf_body_cases st)
    as [[Havail ->]|(cur & Hcur & _ & Hpos & ->)];
    eexists; (split; [done|]); simpl.
  - split_and!; try done.
    pose proof (idle_before_last_arrival ps0 _ _ Hspec Hnonneg
                  ltac:(lia) Havail). lia.
  - set (p0 := stcf_procs st !!! cur) in *.
    pose proof (stcf_dispatched_remaining (stcf_time st) p0) as Hr.
    pose proof (stcf_dispatched_spec_of (stcf_time st) p0) as Hs.
    split_and!.
    + by rewrite spec_of_insert.
    + apply Forall_insert; [done|]. lia.
    + rewrite ndone_insert by (done || fold p0; lia). rewrite Hr.
      case_decide; rewrite ?length_app; simpl; lia.
    + rewrite total_insert by done. fold p0. rewrite Hr.
      pose proof (total_ge_lookup remaining_time _ cur Hnonneg Hcur) as Hge.
      fold p0 in Hge. lia.
Qed.

(** X17.  On a non-empty input the simulation of STCF completes exactly
    when every burst time is positive, whatever the arrival times and the
    pids: with positive bursts the loop ends (and the call returns, or
    raises [OverflowError] on an average too large for a float), and with
    a burst of 0 or less the call never returns, on any amount of fuel. *)
Theorem stcf_completes_iff_bursts_positive s :
  original_processes s ≠ [] →
  (Forall (λ p, 0 < burst_time p) (original_processes s) →
   ∃ s', completes STCF s s'
         ∧ ∃ fuel, run STCF fuel s = Raise OverflowError
                   ∨ ∃ avg, run STCF fuel s = Ok (s', avg))
  ∧ (Exists (λ p, burst_time p ≤ 0) (original_processes s) →
     ∀ fuel, run STCF fuel s = OutOfFuel).
Proof.
  intros Hne. split; [|intros Hex fuel; by apply stcf_never_returns].
  intros Hpos. set (ps0 := original_processes s) in *.
  destruct (while_total stcf_cond stcf_body
              (λ st, spec_of <$> stcf_procs st = spec_of <$> ps0
                     ∧ Forall (λ p, 0 ≤ remaining_time p) (stcf_procs st)
                     ∧ length (stcf_completed st) = ndone (stcf_procs st))
              (stcf_measure ps0)) with
    (fuel := stcf_measure ps0 (mkSTCF (processes (reset_processes s)) 0 [] []))
    (st := mkSTCF (processes (reset_processes s)) 0 [] [])
    as (st & Hwhile & (Hspec & _ & _) & _).
  - intros st (Hspec & Hnonneg & Hnd) Hcond.
    destruct (stcf_body_progress ps0 st Hspec Hnonneg Hnd Hcond)
      as (st' & ? & ? & ? & ? & ?). by exists st'.
  - simpl. split_and!.
    + by rewrite <-list_fmap_compose.
    + rewrite Forall_fmap. eapply Forall_impl; [exact Hpos|].
      intros p Hp. simpl in *. lia.
    + rewrite ndone_none; [done|]. rewrite Forall_fmap.
      eapply Forall_impl; [exact Hpos|]. intros p Hp. simpl in *. lia.
  - done.
  - assert (completes STCF s
              (calculate_metrics
                 (mkSim ps0 (stcf_procs st) (stcf_timeline st)))) as Hs'.
    { eexists. simpl. simpl in Hwhile. unfold ps0 in Hwhile.
      by rewrite Hwhile. }
    eexists. split; [exact Hs'|]. apply completes_run; [done|].
    simpl. intros Hnil%fmap_nil_inv. apply spec_of_length in Hspec.
    rewrite Hnil in Hspec. by destruct ps0.
Qed.

Lemma stcf_completes_iff_bursts_positive_witness :
  (∃ s', completes STCF (SchedulerSimulator_init
                           [Process_init 7 (-1) 2; Process_init 7 3 1]) s'
         ∧ ∃ fuel,
             run STCF fuel (SchedulerSimulator_init
                              [Process_init 7 (-1) 2; Process_init 7 3 1])
             = Raise OverflowError
             ∨ ∃ avg,
                 run STCF fuel (SchedulerSimulator_init
                                  [Process_init 7 (-1) 2; Process_init 7 3 1])
                 = Ok (s', avg))
  ∧ (∀ fuel, run STCF fuel (SchedulerSimulator_init
                              [Process_init 1 0 2; Process_init 2 0 0])
             = OutOfFuel).
Proof.
  split.
  - apply (stcf_completes_iff_bursts_positive
             (SchedulerSimulator_init
                [Process_init 7 (-1) 2; Process_init 7 3 1])); [done|].
    simpl. repeat constructor; simpl; lia.
  - apply (stcf_completes_iff_bursts_positive
             (SchedulerSimulator_init
                [Process_init 1 0 2; Process_init 2 0 0])); [done|].
    simpl. apply Exists_cons_tl, Exists_cons_hd. simpl. lia.
Defined.

(** *** Averages *)




(** *** [Process.reset] *)

Lemma reset_spec_of p q : spec_of p = spec_of q → reset p = reset q.
Proof. intros (Hp & Ha & Hb)%spec_of_eq. unfold reset. by rewrite Hp, Ha, Hb. Qed.

Lemma reset_fmap_spec_of (ps qs : list Process) :
  spec_of <$> ps = spec_of <$> qs → reset <$> ps = reset <$> qs.
Proof.
  revert qs. induction ps as [|p ps IH]; intros [|q qs] H; try done.
  apply spec_of_cons_inv in H as [Hpq Hrest].
  rewrite !fmap_cons. by rewrite (IH qs), (reset_spec_of p q).
Qed.

(** X19.  [Process.reset] undoes a run: resetting every process of the
    result list gives back the fresh processes that [reset_processes]
    builds from the originals (in the order of the policy), each in the
    state its constructor gave it. *)
Theorem reset_undoes_a_run pol fuel s r :
  run pol fuel s = Ok r →
  reset <$> processes r.1
  = policy_order pol (processes (reset_processes s))
  ∧ Forall (λ p, p = Process_init (pid p) (arrival_time p) (burst_time p))
           (reset <$> processes r.1).
Proof.
  intros Hrun. pose proof (run_order _ _ _ _ Hrun) as Hord. split.
  - assert (spec_of <$> policy_order pol (processes (reset_processes s))
            = spec_of <$> policy_order pol (original_processes s)) as Hspec.
    { destruct pol; simpl; try (by rewrite <-list_fmap_compose).
      apply sort_by_arrival_spec_of. by rewrite <-list_fmap_compose. }
    rewrite <-Hspec in Hord. rewrite (reset_fmap_spec_of _ _ Hord).
    assert (Forall (λ p, reset p = p)
              (policy_order pol (processes (reset_processes s)))) as Hfresh.
    { assert (Forall (λ p, reset p = p) (processes (reset_processes s)))
        as Hf by (simpl; by rewrite Forall_fmap, Forall_forall).
      destruct pol; simpl; try done.
      by rewrite (sort_by_arrival_perm _). }
    clear -Hfresh. induction Hfresh as [|p ps Hp _ IH]; [done|].
    by rewrite fmap_cons, Hp, IH.
  - rewrite Forall_fmap. by apply Forall_forall.
Qed.

Lemma reset_undoes_a_run_witness :
  ∃ r, run FIFO 0 (SchedulerSimulator_init
                     [Process_init 1 4 2; Process_init 2 0 3]) = Ok r
    ∧ reset <$> processes r.1 = [Process_init 2 0 3; Process_init 1 4 2]
    ∧ Forall (λ p, p = Process_init (pid p) (arrival_time p) (burst_time p))
             (reset <$> processes r.1).
Proof.
  eexists. split; [vm_compute; reflexivity|].
  apply (reset_undoes_a_run FIFO 0
           (SchedulerSimulator_init [Process_init 1 4 2; Process_init 2 0 3])).
  vm_compute. reflexivity.
Defined.

(** *** Idle time *)

Lemma tl_gap_free_accounts lo tl :
  tl_gap_free lo tl → tl_end_of lo tl = lo + busy tl + time_of IDLE tl.
Proof.
  revert lo. induction tl as [|e tl IH]; intros lo; simpl.
  { intros _. unfold tl_end_of, busy, time_of. simpl. lia. }
  intros (Hlo & _ & Hrest). rewrite tl_end_of_cons, (IH _ Hrest).
  unfold busy, time_of. simpl. case_decide; lia.
Qed.

(** X20.  On valid input the [IDLE] entries of FIFO and SJF account for
    all the time in which nothing runs: the idle time and the total burst
    time add up to the makespan. *)
Theorem idle_time_is_recorded pol s :
  pol = FIFO ∨ pol = SJF →
  valid_input (original_processes s) → original_processes s ≠ [] →
  ∃ s', completes pol s s'
       ∧ time_of IDLE (timeline s')
         + total burst_time (original_processes s)
         = makespan (processes s').
Proof.
  intros Hpol Hvalid Hne.
  destruct (run_valid pol s Hvalid ltac:(by destruct Hpol as [-> | ->]) Hne)
    as (r & Hr & (_ & _ & _ & _ & Hbusy) & Hend & Hshape).
  exists r. split; [done|]. unfold run_end in Hend. rewrite <-Hend, <-Hbusy.
  assert (tl_gap_free 0 (timeline r)) as Hgf
    by (destruct Hpol as [-> | ->]; by destruct Hshape).
  rewrite (tl_gap_free_accounts 0 _ Hgf). lia.
Qed.

Lemma idle_time_is_recorded_witness :
  ∃ s', completes SJF (SchedulerSimulator_init
                      [Process_init 1 2 1; Process_init 2 5 2]) s'
       ∧ time_of IDLE (timeline s')
         + total burst_time [Process_init 1 2 1; Process_init 2 5 2]
         = makespan (processes s').
Proof.
  apply (idle_time_is_recorded SJF
           (SchedulerSimulator_init [Process_init 1 2 1; Process_init 2 5 2])).
  - by right.
  - compute_done.
  - done.
Defined.

(** *** The makespan *)

Lemma sum_over_ext f g l :
  (∀ i, i ∈ l → f i = g i) → sum_over f l = sum_over g l.
Proof.
  induction l as [|i l IH]; intros H; simpl; [done|].
  rewrite (H i) by left. rewrite IH; [done|]. intros j Hj. apply H. by right.
Qed.

Lemma sum_over_update f g l c :
  NoDup l → c ∈ l → (∀ i, i ≠ c → g i = f i) →
  sum_over g l = sum_over f l + (g c - f c).
Proof.
  induction l as [|i l IH]; [by intros _ ?%elem_of_nil|].
  intros [Hi Hnd]%NoDup_cons Hc Hfg. simpl.
  apply elem_of_cons in Hc as [->|Hc].
  - rewrite (sum_over_ext g f l); [lia|].
    intros j Hj. apply Hfg. by intros ->.
  - rewrite IH by done. rewrite (Hfg i); [lia|]. by intros ->.
Qed.

Lemma exec_from_update a ps0 owed owed' c x :
  (c < length ps0)%nat → owed' c = owed c - x →
  (∀ i, i ≠ c → owed' i = owed i) →
  exec_from a ps0 owed'
  = exec_from a ps0 owed
    + if decide (a ≤ arrival_time (ps0 !!! c)) then x else 0.
Proof.
  intros Hc Hx Hne. unfold exec_from.
  rewrite (sum_over_update
             (λ i, if decide (a ≤ arrival_time (ps0 !!! i))
                   then burst_time (ps0 !!! i) - owed i else 0) _ _ c).
  - rewrite Hx. case_decide; lia.
  - apply NoDup_seq.
  - apply elem_of_seq. lia.
  - intros i Hi. by rewrite (Hne i Hi).
Qed.

Lemma exec_from_zero a ps0 owed :
  (∀ i, (i < length ps0)%nat → a ≤ arrival_time (ps0 !!! i) →
        owed i = burst_time (ps0 !!! i)) →
  exec_from a ps0 owed = 0.
Proof.
  intros H. unfold exec_from. rewrite (sum_over_ext _ (λ _, 0)).
  - generalize (seq 0 (length ps0)). intros l.
    induction l as [|i l IH]; simpl; lia.
  - intros i Hi%elem_of_seq. case_decide; [|done]. rewrite H; [lia|lia|done].
Qed.

Lemma exec_from_done a ps0 owed :
  (∀ i, (i < length ps0)%nat → owed i = 0) →
  a + exec_from a ps0 owed = span_from a ps0.
Proof.
  intros H. unfold exec_from, span_from. f_equal.
  rewrite <-(sum_over_seq
               (λ p, if decide (a ≤ arrival_time p) then burst_time p else 0)).
  apply sum_over_ext. intros i Hi%elem_of_seq.
  case_decide; [|done]. rewrite H; lia.
Qed.

Lemma run_period_init ps0 owed :
  Forall (λ p, 0 ≤ arrival_time p) ps0 →
  (∀ i, (i < length ps0)%nat → owed i = burst_time (ps0 !!! i)) →
  run_period ps0 owed 0.
Proof.
  intros Harr Howed.
  assert (∀ a, exec_from a ps0 owed = 0) as Hz
    by (intros a; apply exec_from_zero; auto).
  constructor.
  - exists 0. split; [lia|]. split; [by left|]. split; [|by rewrite Hz].
    intros i Hi Hlt. pose proof (Forall_lookup_total_1 _ _ i Harr Hi) as H.
    simpl in H. lia.
  - intros a. rewrite Hz. lia.
  - auto.
Qed.

(** The clock advances to [t'] while nothing runs. *)
Lemma run_period_wait ps0 owed t t' :
  run_period ps0 owed t → t < t' →
  (∀ i, (i < length ps0)%nat → arrival_time (ps0 !!! i) < t' → owed i = 0) →
  (∃ i, (i < length ps0)%nat ∧ t' ≤ arrival_time (ps0 !!! i)) →
  run_period ps0 owed t'.
Proof.
  intros [(a & Ha & _) Hlower Hfuture] Htt' Hdone Hnext. constructor.
  - exists t'. split; [lia|]. split; [by right|]. split; [done|].
    rewrite exec_from_zero; [lia|]. intros i Hi Hai. apply Hfuture; [done|lia].
  - intros a'. specialize (Hlower a'). lia.
  - intros i Hi Hlt. apply Hfuture; [done|lia].
Qed.

(** The process at index [cur], which has arrived and is not finished,
    executes for [x] time units. *)
Lemma run_period_dispatch ps0 owed owed' t x cur :
  run_period ps0 owed t → (cur < length ps0)%nat →
  arrival_time (ps0 !!! cur) ≤ t → owed cur ≠ 0 → 0 ≤ x →
  owed' cur = owed cur - x → (∀ i, i ≠ cur → owed' i = owed i) →
  run_period ps0 owed' (t + x).
Proof.
  intros [(a & Ha & Ha0 & Hbefore & Ht) Hlower Hfuture] Hcur Harr Hnz Hx
    Hc Hne.
  assert (∀ a', exec_from a' ps0 owed'
                = exec_from a' ps0 owed
                  + if decide (a' ≤ arrival_time (ps0 !!! cur)) then x else 0)
    as Hexec by (intros a'; by apply exec_from_update).
  assert (a ≤ arrival_time (ps0 !!! cur)) as Hacur.
  { destruct (decide (a ≤ arrival_time (ps0 !!! cur))); [done|].
    destruct Hnz. apply Hbefore; [done|lia]. }
  constructor.
  - exists a. split; [lia|]. split; [done|]. split.
    + intros i Hi Hlt. rewrite Hne; [by apply Hbefore|]. intros ->. lia.
    + rewrite Hexec, decide_True by done. lia.
  - intros a'. rewrite Hexec. specialize (Hlower a'). case_decide; lia.
  - intros i Hi Hlt. rewrite Hne; [apply Hfuture; [done|lia]|].
    intros ->. lia.
Qed.

Lemma span_from_spec_of a ps qs :
  spec_of <$> ps = spec_of <$> qs → span_from a ps = span_from a qs.
Proof.
  intros H. unfold span_from. f_equal. apply total_spec_of; [|done].
  by intros p q (_ & -> & ->)%spec_of_eq.
Qed.

Lemma fmap_arrival_spec_of (F G : Z → Z) (ps qs : list Process) :
  (∀ a, F a = G a) → spec_of <$> ps = spec_of <$> qs →
  (λ p, F (arrival_time p)) <$> ps = (λ q, G (arrival_time q)) <$> qs.
Proof.
  intros HFG. revert qs.
  induction ps as [|p ps IH]; intros [|q qs] H; try done.
  apply spec_of_cons_inv in H as [(_ & Ha & _)%spec_of_eq Hrest].
  rewrite !fmap_cons. by rewrite (IH qs), Ha, HFG.
Qed.

Lemma busy_span_spec_of ps qs :
  spec_of <$> ps = spec_of <$> qs → busy_span ps = busy_span qs.
Proof.
  intros H. unfold busy_span. rewrite (span_from_spec_of 0 ps qs H). f_equal.
  apply (fmap_arrival_spec_of (λ a, span_from a ps) (λ a, span_from a qs));
    [|done].
  intros a. by apply span_from_spec_of.
Qed.

Lemma busy_span_Permutation ps qs :
  ps ≡ₚ qs → busy_span ps = busy_span qs.
Proof.
  intros H. unfold busy_span.
  assert (∀ a, span_from a ps = span_from a qs) as Hs.
  { intros a. unfold span_from. f_equal. by apply total_Permutation. }
  rewrite (Hs 0).
  rewrite (list_fmap_ext (λ p, span_from (arrival_time p) ps)
             (λ p, span_from (arrival_time p) qs) ps)
    by (intros; apply Hs).
  apply foldr_permutation_proper; try apply _.
  - intros a b c. lia.
  - by rewrite H.
Qed.

(** The first arrival at [a] or later. *)
Lemma first_arrival_from a (ps : list Process) :
  (∃ p, p ∈ ps ∧ a ≤ arrival_time p) →
  ∃ p, p ∈ ps ∧ a ≤ arrival_time p
       ∧ ∀ q, q ∈ ps → a ≤ arrival_time q → arrival_time p ≤ arrival_time q.
Proof.
  induction ps as [|p0 ps IH]; [by intros (? & ?%elem_of_nil & _)|].
  intros (p & Hp & Ha).
  destruct (decide (Exists (λ q, a ≤ arrival_time q) ps)) as [Hex|Hno];
    rewrite Exists_exists in *.
  - destruct (IH Hex) as (p1 & Hp1 & Ha1 & Hmin).
    destruct (decide (a ≤ arrival_time p0
                      ∧ arrival_time p0 ≤ arrival_time p1)) as [[? ?]|Hn].
    + exists p0. split_and!; [left|done|].
      intros q [->|Hq]%elem_of_cons Hq'; [lia|]. specialize (Hmin q Hq Hq'). lia.
    + exists p1. split_and!; [by right|done|].
      intros q [->|Hq]%elem_of_cons Hq'; [lia|by apply Hmin].
  - apply elem_of_cons in Hp as [->|Hp]; [|destruct Hno; by eauto].
    exists p0. split_and!; [left|done|].
    intros q [->|Hq]%elem_of_cons Hq'; [lia|]. destruct Hno. by eauto.
Qed.

Lemma span_from_le_busy_span a ps :
  a = 0 ∨ (∃ p, p ∈ ps ∧ a ≤ arrival_time p) →
  span_from a ps ≤ busy_span ps.
Proof.
  unfold busy_span.
  destruct (foldr_max_ge (span_from 0 ps)
              ((λ p, span_from (arrival_time p) ps) <$> ps)) as [H0 Hge].
  intros [->|Hex]; [done|].
  destruct (first_arrival_from a ps Hex) as (p & Hp & Ha & Hmin).
  assert (span_from a ps ≤ span_from (arrival_time p) ps) as Hle.
  { unfold span_from.
    rewrite (total_ext
               (λ q, if decide (a ≤ arrival_time q) then burst_time q else 0)
               (λ q, if decide (arrival_time p ≤ arrival_time q)
                     then burst_time q else 0)); [lia|].
    apply Forall_forall. intros q Hq. simpl.
    destruct (decide (a ≤ arrival_time q)) as [Hq'|Hq'].
    - rewrite decide_True; [done|]. by apply Hmin.
    - rewrite decide_False; [done|]. lia. }
  etrans; [exact Hle|]. apply Hge.
  apply list_elem_of_fmap. by exists p.
Qed.

(** At the end of a run on valid input the clock shows the busy span of
    the input. *)
Lemma run_period_final ps0 owed t :
  Forall valid_process ps0 →
  run_period ps0 owed t → (∀ i, (i < length ps0)%nat → owed i = 0) →
  t = busy_span ps0.
Proof.
  intros Hv [(a & Ha & Ha0 & _ & Ht) Hlower _] Hdone.
  rewrite (exec_from_done a ps0 owed Hdone) in Ht.
  assert (∀ a', span_from a' ps0 ≤ Z.max a' t) as Hl.
  { intros a'. rewrite <-(exec_from_done a' ps0 owed Hdone). apply Hlower. }
  clear Hlower. apply Z.le_antisymm.
  - rewrite Ht. apply span_from_le_busy_span.
    destruct Ha0 as [->|(i & Hi & Hai)]; [by left|right].
    exists (ps0 !!! i). split; [by apply list_elem_of_lookup_total_2|done].
  - apply foldr_max_le.
    + specialize (Hl 0). lia.
    + rewrite Forall_fmap. apply Forall_forall. intros p Hp. simpl.
      specialize (Hl (arrival_time p)).
      assert (arrival_time p < span_from (arrival_time p) ps0); [|lia].
      unfold span_from.
      apply list_elem_of_lookup in Hp as [i Hi].
      pose proof (lookup_lt_Some _ _ _ Hi) as Hlt.
      apply list_lookup_total_correct in Hi.
      pose proof (total_ge_lookup
                    (λ q, if decide (arrival_time p ≤ arrival_time q)
                          then burst_time q else 0) ps0 i) as Hge.
      simpl in Hge. rewrite Hi, decide_True in Hge by done.
      pose proof (Forall_lookup_total_1 _ _ i Hv Hlt) as [_ Hb].
      rewrite Hi in Hb.
      assert (burst_time p
              ≤ total (λ q, if decide (arrival_time p ≤ arrival_time q)
                            then burst_time q else 0) ps0); [|lia].
      apply Hge; [|done]. eapply Forall_impl; [exact Hv|].
      intros q [_ ?]. simpl. case_decide; lia.
Qed.

Lemma stcf_body_period ps0 st st' :
  stcf_inv ps0 st → stcf_cond st = true →
  run_period ps0 (λ i, remaining_time (stcf_procs st !!! i)) (stcf_time st) →
  stcf_body st = Ok st' →
  run_period ps0 (λ i, remaining_time (stcf_procs st' !!! i)) (stcf_time st').
Proof.
  intros [Hspec _ Hproc Hndone _ _ _ _ _ _] Hcond Hper Hbody.
  apply bool_decide_eq_true in Hcond.
  pose proof (spec_of_length _ _ Hspec) as Hlen.
  destruct (stcf_body_cases st) as [[Havail Hb]|(cur & Hcur & Harr & Hpos & Hb)];
    rewrite Hb in Hbody; injection Hbody as <-; simpl.
  - destruct (nothing_ready ps0 _ _ Hspec (proc_inv_nonneg _ _ Hproc)
                ltac:(lia) Havail) as [Hdone Hnext].
    by apply (run_period_wait _ _ (stcf_time st)); [|lia|..].
  - rewrite (arrival_time_lookup _ _ cur Hspec) in Harr.
    apply (run_period_dispatch ps0
             (λ i, remaining_time (stcf_procs st !!! i)) _ _ 1 cur);
      [exact Hper|lia|done|lia|lia|..].
    + rewrite list_lookup_total_insert_eq by done.
      apply stcf_dispatched_remaining.
    + intros i Hi. by rewrite list_lookup_total_insert_ne.
Qed.

Lemma rr_body_period ps0 quantum st st' :
  valid_input ps0 → 0 < quantum →
  rr_inv ps0 st → rr_cond st = true →
  run_period ps0 (λ i, remaining_time (rr_procs st !!! i)) (rr_time st) →
  rr_body quantum st = Ok st' →
  run_period ps0 (λ i, remaining_time (rr_procs st' !!! i)) (rr_time st').
Proof.
  intros Hvalid Hq Hinv Hcond Hper Hb.
  destruct (rr_body_cases ps0 quantum st st' Hvalid Hq Hinv Hcond Hb)
    as [(-> & -> & _ & _ & Hdone & Hnext)|(c & Hc & Hpos & Harr & Hst')].
  - by apply (run_period_wait _ _ (rr_time st)); [|lia|..].
  - cbn zeta in Hst'. destruct Hst' as (-> & -> & _).
    destruct Hinv as [Hspec _ _ _ _ _ _ _ _ _ _].
    pose proof (spec_of_length _ _ Hspec) as Hlen.
    pose proof (rr_dispatched_remaining quantum (rr_time st)
                  (rr_procs st !!! c)) as Hr2.
    apply (run_period_dispatch ps0
             (λ i, remaining_time (rr_procs st !!! i)) _ _
             (Z.min quantum (remaining_time (rr_procs st !!! c))) c);
      [exact Hper|done|done|lia|lia|..].
    + rewrite list_lookup_total_insert_eq by lia.
      by destruct (decide (remaining_time
                             (rr_dispatched quantum (rr_time st)
                                (rr_procs st !!! c)) = 0)).
    + intros i Hi. by rewrite list_lookup_total_insert_ne.
Qed.

Lemma sjf_body_period ps0 st st' :
  valid_input ps0 → sjf_inv ps0 st →
  run_period ps0 (sjf_left ps0 (sjf_remaining st)) (sjf_time st) →
  sjf_body st = Ok st' →
  run_period ps0 (sjf_left ps0 (sjf_remaining st')) (sjf_time st').
Proof.
  intros Hvalid [Hspec Hsorted Hbound _ _ _ _ _ _ _ _ _] Hper Hb.
  destruct (sjf_body_cases st st' Hb)
    as [(i0 & Hi0 & Hlate & ->)|(x & r1 & r2 & Hrem & _ & Hxa & _ & ->)];
    simpl.
  - destruct (Hlate i0 Hi0) as [Hlt _].
    apply (run_period_wait _ _ (sjf_time st)); [done|done| |].
    + intros i Hi Ha. unfold sjf_left. case_decide as Hin; [|done].
      destruct (Hlate i Hin) as [_ Hle].
      rewrite (arrival_time_lookup _ _ i Hspec) in Hle. lia.
    + exists i0. split; [by apply Hbound|].
      by rewrite (arrival_time_lookup _ _ i0 Hspec).
  - assert (x ∈ sjf_remaining st) as Hxr
      by (rewrite Hrem; apply elem_of_middle).
    assert (x < length ps0)%nat as Hxn by by apply Hbound.
    pose proof (valid_input_lookup ps0 x Hvalid Hxn) as Hvb.
    rewrite Hrem in Hsorted.
    apply StronglySorted_lt_remove in Hsorted as [_ Hxnot].
    rewrite (arrival_time_lookup _ _ x Hspec) in Hxa.
    rewrite (burst_time_lookup _ _ x Hspec).
    apply (run_period_dispatch ps0 (sjf_left ps0 (sjf_remaining st)) _ _
             (burst_time (ps0 !!! x)) x); [exact Hper|done|done|..].
    + unfold sjf_left. rewrite decide_True by done.
      unfold valid_process in Hvb. lia.
    + unfold valid_process in Hvb. lia.
    + unfold sjf_left. rewrite decide_False by done.
      rewrite decide_True by done. lia.
    + intros i Hi. rewrite Hrem. by apply sjf_left_remove.
Qed.

Lemma stcf_run_span s :
  valid_input (original_processes s) → original_processes s ≠ [] →
  ∃ s', completes STCF s s'
       ∧ makespan (processes s') = busy_span (original_processes s).
Proof.
  intros Hvalid Hne.
  set (ps0 := original_processes s) in *.
  set (J := λ st : STCFState,
         run_period ps0 (λ i, remaining_time (stcf_procs st !!! i))
           (stcf_time st)).
  destruct (while_total_with stcf_cond stcf_body (stcf_inv ps0) J
              (stcf_measure ps0) (stcf_body_step ps0 Hvalid)) with
    (st := mkSTCF (processes (reset_processes s)) 0 [] [])
    as (st & Hwhile & Hinv & Hper & Hcond).
  - intros st st' HI HJ Hc Hb. by eapply stcf_body_period.
  - by apply stcf_inv_init.
  - apply run_period_init.
    + destruct Hvalid as [_ Hv]. eapply Forall_impl; [exact Hv|].
      by intros p [? _].
    + intros i Hi. simpl. fold ps0.
      by rewrite (list_lookup_total_fmap _ ps0 i Hi).
  - pose proof Hinv as Hinv'.
    destruct Hinv' as [_ _ _ Hndone _ _ _ _ _ Hfin].
    destruct (stcf_inv_exit ps0 Hvalid st Hinv Hcond)
      as (Hspec & _ & _ & Hmk & _ & _).
    apply bool_decide_eq_false in Hcond.
    assert (Forall (λ p, remaining_time p = 0) (stcf_procs st)) as Hall
      by (apply ndone_all; lia).
    eexists. split.
    + eexists. simpl. simpl in Hwhile.
      unfold ps0 in Hwhile. by rewrite Hwhile.
    + simpl. rewrite makespan_fmap_metrics, <-Hmk.
      destruct Hfin as [Hlt|[-> _]]; [lia|].
      apply (run_period_final _ _ _ (proj2 Hvalid) Hper).
      intros i Hi. simpl. apply (Forall_lookup_total_1 _ _ i Hall).
      by rewrite (spec_of_length _ _ Hspec).
Qed.

Lemma rr_run_span quantum s :
  valid_input (original_processes s) → 0 < quantum →
  original_processes s ≠ [] →
  ∃ s', completes (RR quantum) s s'
       ∧ makespan (processes s') = busy_span (original_processes s).
Proof.
  intros Hvalid Hq Hne.
  set (ps0 := original_processes s) in *.
  set (J := λ st : RRState,
         run_period ps0 (λ i, remaining_time (rr_procs st !!! i))
           (rr_time st)).
  pose proof (rr_inv_init ps0 Hvalid Hne) as Hinit. cbn zeta in Hinit.
  destruct (while_total_with rr_cond (rr_body quantum) (rr_inv ps0) J
              (rr_measure ps0) (rr_body_step ps0 Hvalid quantum Hq)) with
    (st := mkRR (processes (reset_processes s)) 0
             (rr_initial (processes (reset_processes s))).1 []
             (rr_initial (processes (reset_processes s))).2 [])
    as (st & Hwhile & Hinv & Hper & Hcond).
  - intros st st' HI HJ Hc Hb. by eapply rr_body_period.
  - done.
  - apply run_period_init.
    + destruct Hvalid as [_ Hv]. eapply Forall_impl; [exact Hv|].
      by intros p [? _].
    + intros i Hi. simpl. fold ps0.
      by rewrite (list_lookup_total_fmap _ ps0 i Hi).
  - pose proof Hinv as Hinv'.
    destruct Hinv' as [_ _ _ Hndone _ _ _ _ _ _ Hfin].
    destruct (rr_inv_exit ps0 Hvalid st Hinv Hcond)
      as (Hspec & _ & _ & Hmk & _).
    apply orb_false_iff in Hcond as [_ Hcond].
    apply bool_decide_eq_false in Hcond.
    assert (Forall (λ p, remaining_time p = 0) (rr_procs st)) as Hall
      by (apply ndone_all; lia).
    pose proof (spec_of_length _ _ Hspec) as Hlen.
    eexists. split.
    + unfold completes. simpl. simpl in Hwhile.
      unfold ps0 in Hwhile. destruct (rr_initial _) as [q0 inq0].
      simpl in Hwhile. eexists. by rewrite Hwhile.
    + simpl. rewrite makespan_fmap_metrics, <-Hmk.
      destruct Hfin as [Hlt|[-> _]]; [lia|].
      apply (run_period_final _ _ _ (proj2 Hvalid) Hper).
      intros i Hi. simpl. apply (Forall_lookup_total_1 _ _ i Hall). lia.
Qed.

Lemma sjf_run_span s :
  valid_input (original_processes s) → original_processes s ≠ [] →
  ∃ s', completes SJF s s'
       ∧ makespan (processes s') = busy_span (original_processes s).
Proof.
  intros Hvalid Hne.
  set (ps0 := original_processes s) in *.
  set (J := λ st : SJFState,
         run_period ps0 (sjf_left ps0 (sjf_remaining st)) (sjf_time st)).
  pose proof (sjf_inv_init ps0 Hvalid Hne) as Hinit.
  destruct (while_total_with sjf_cond sjf_body (sjf_inv ps0) J sjf_measure
              (sjf_body_step ps0 Hvalid)) with
    (st := mkSJF (processes (reset_processes s)) 0 []
             (seq 0 (length (processes (reset_processes s)))) [])
    as (st & Hwhile & Hinv & Hper & Hcond).
  - intros st st' HI HJ _ Hb. by eapply sjf_body_period.
  - done.
  - apply run_period_init.
    + destruct Hvalid as [_ Hv]. eapply Forall_impl; [exact Hv|].
      by intros p [? _].
    + intros i Hi. simpl. unfold sjf_left.
      rewrite decide_True; [done|].
      apply elem_of_seq. rewrite length_fmap. fold ps0. lia.
  - pose proof Hinv as Hinv'.
    destruct Hinv' as [_ _ _ _ _ _ Hend _ _ _ _ _].
    destruct (sjf_inv_exit ps0 st Hne Hinv Hcond)
      as (Hspec & _ & _ & Hmk & _ & _).
    apply bool_decide_eq_false in Hcond. apply dec_stable in Hcond.
    pose proof (spec_of_length _ _ Hspec) as Hlen.
    eexists. split.
    + eexists. simpl. simpl in Hwhile.
      unfold ps0 in Hwhile. by rewrite Hwhile.
    + simpl. rewrite makespan_fmap_metrics, <-Hmk, Hend.
      apply (run_period_final _ _ _ (proj2 Hvalid) Hper).
      intros i Hi. unfold sjf_left. rewrite Hcond.
      rewrite decide_False; [done|apply not_elem_of_nil].
Qed.

Lemma fifo_loop_period sorted todo : ∀ done t tl ps' t' tl',
  sorted = done ++ todo → StronglySorted by_arrival sorted →
  Forall valid_process sorted →
  fifo_loop todo t tl = (ps', t', tl') →
  run_period sorted (fifo_left sorted (length done)) t →
  run_period sorted (fifo_left sorted (length sorted)) t'.
Proof.
  induction todo as [|p rest IH];
    intros done t tl ps' t' tl' Hsplit Hsorted Hvalid Hrun Hper.
  { simpl in Hrun. injection Hrun as <- <- <-.
    rewrite app_nil_r in Hsplit. by subst sorted. }
  simpl in Hrun.
  set (k := length done) in *.
  assert (k < length sorted)%nat as Hk
    by (rewrite Hsplit, length_app; simpl; lia).
  assert (sorted !!! k = p) as Hp.
  { rewrite Hsplit. apply list_lookup_total_middle. done. }
  assert (valid_process p) as [Hpa Hpb].
  { rewrite <-Hp. by apply Forall_lookup_total_1. }
  assert (∀ i, (k ≤ i < length sorted)%nat →
               arrival_time p ≤ arrival_time (sorted !!! i)) as Hlater.
  { intros i Hi. rewrite Hsplit in Hsorted.
    apply StronglySorted_app in Hsorted as (_ & _ & Hs).
    apply StronglySorted_cons in Hs as [Hs _].
    destruct (decide (i = k)) as [->|Hne]; [by rewrite Hp|].
    rewrite Forall_forall in Hs. apply Hs.
    rewrite Hsplit. rewrite lookup_total_app_r by (fold k; lia). fold k.
    destruct (i - k)%nat as [|j] eqn:Hj; [lia|]. simpl.
    apply list_elem_of_lookup_total_2.
    rewrite Hsplit, length_app in Hi. simpl in Hi. fold k in Hi. lia. }
  set (t1 := if decide (t < arrival_time p) then arrival_time p else t) in *.
  set (tl1 := if decide (t < arrival_time p)
              then tl ++ [(IDLE, t, arrival_time p)] else tl) in *.
  assert ((if decide (t < arrival_time p)
           then (arrival_time p, tl ++ [(IDLE, t, arrival_time p)])
           else (t, tl)) = (t1, tl1)) as Heq
    by (unfold t1, tl1; by case_decide).
  rewrite Heq in Hrun. simpl in Hrun.
  destruct (fifo_loop rest _ _) as [[rest' t''] tl''] eqn:Hrest.
  injection Hrun as <- <- <-.
  assert (run_period sorted (fifo_left sorted k) t1 ∧ arrival_time p ≤ t1)
    as [Hper1 Ht1].
  { unfold t1. case_decide as Hlt; [|split; [done|lia]].
    split; [|lia].
    apply (run_period_wait _ _ t); [done|done| |].
    - intros i Hi Ha. unfold fifo_left. case_decide; [done|].
      specialize (Hlater i ltac:(lia)). lia.
    - exists k. by rewrite Hp. }
  apply (IH (done ++ [p]) _ _ _ _ _ ltac:(by rewrite <-app_assoc) Hsorted
           Hvalid Hrest).
  rewrite length_app. simpl. fold k.
  apply (run_period_dispatch sorted (fifo_left sorted k) _ _ (burst_time p) k);
    [exact Hper1|done|by rewrite Hp| | lia | |].
  - unfold fifo_left. rewrite decide_False by lia. rewrite Hp. lia.
  - unfold fifo_left. rewrite decide_True by lia.
    rewrite decide_False by lia. rewrite Hp. lia.
  - intros i Hi. unfold fifo_left.
    destruct (decide (i < k + 1)%nat), (decide (i < k)%nat); try done; lia.
Qed.

Lemma fifo_run_span s :
  valid_input (original_processes s) → original_processes s ≠ [] →
  ∃ s', completes FIFO s s'
       ∧ makespan (processes s') = busy_span (original_processes s).
Proof.
  intros Hvalid Hne.
  destruct (fifo_loop (sort_by_arrival (processes (reset_processes s))) 0
              (timeline (reset_processes s))) as [[ps t'] tl] eqn:Hloop.
  pose proof (fifo_completes s _ _ _ Hloop) as Hsim.
  set (s0 := reset_processes s) in *.
  pose proof (reset_processes_spec_of s) as Hspec0. fold s0 in Hspec0.
  assert (valid_input (sort_by_arrival (processes s0))) as [Hnd Hv].
  { eapply valid_input_Permutation; [symmetry; apply sort_by_arrival_perm|].
    by eapply valid_input_spec_of. }
  assert (sort_by_arrival (processes s0) ≠ []) as Hsne.
  { intros Hnil. apply (f_equal length) in Hnil.
    rewrite sort_by_arrival_perm, (spec_of_length _ _ Hspec0) in Hnil.
    by destruct (original_processes s). }
  pose proof (fifo_loop_period (sort_by_arrival (processes s0)) _ []
                _ _ _ _ _ eq_refl (sort_by_arrival_sorted _) Hv Hloop)
    as Hper.
  simpl in Hper.
  apply fifo_loop_spec in Hloop
    as (Hspec & _ & Hcomp & Ht' & Hex & _); try done;
    [|by apply NoDup_plabel].
  destruct (Hex Hsne) as (p & Hp & Hpt).
  assert (ps ≠ []) as Hps by (intros ->; by apply elem_of_nil in Hp).
  eexists. split; [exact Hsim|]. simpl.
  rewrite makespan_fmap_metrics.
  assert (makespan ps = t') as -> by (apply makespan_max; [lia|done|eauto]).
  rewrite <-(busy_span_spec_of _ _ Hspec0).
  rewrite <-(busy_span_Permutation _ _ (sort_by_arrival_perm (processes s0))).
  apply (run_period_final _ (fifo_left (sort_by_arrival (processes s0))
                               (length (sort_by_arrival (processes s0))))
           _ Hv).
  - apply Hper. apply run_period_init.
    + eapply Forall_impl; [exact Hv|]. by intros q [? _].
    + intros i Hi. unfold fifo_left. by case_decide; [lia|].
  - intros i Hi. unfold fifo_left. by rewrite decide_True.
Qed.

(** X21.  On valid input the makespan does not depend on the policy: any
    two policies finish their last process at the same time, which is
    [busy_span] of the input, the latest of "an arrival time (or 0) plus
    the bursts of the processes that arrive then or later". *)
Theorem makespan_is_policy_independent pol1 pol2 s :
  valid_input (original_processes s) →
  valid_policy pol1 → valid_policy pol2 →
  original_processes s ≠ [] →
  ∃ s1 s2, completes pol1 s s1 ∧ completes pol2 s s2
           ∧ makespan (processes s1) = makespan (processes s2)
           ∧ makespan (processes s1) = busy_span (original_processes s).
Proof.
  intros Hvalid Hpol1 Hpol2 Hne.
  assert (∀ pol, valid_policy pol →
            ∃ s', completes pol s s'
                  ∧ makespan (processes s')
                    = busy_span (original_processes s)) as Hspan.
  { intros [| | |quantum] Hpol.
    - by apply fifo_run_span.
    - by apply sjf_run_span.
    - by apply stcf_run_span.
    - by apply rr_run_span. }
  destruct (Hspan pol1 Hpol1) as (r1 & Hr1 & H1).
  destruct (Hspan pol2 Hpol2) as (r2 & Hr2 & H2).
  exists r1, r2. split_and!; try done. congruence.
Qed.

Lemma makespan_is_policy_independent_witness :
  ∃ s1 s2, completes FIFO (SchedulerSimulator_init main_processes) s1
           ∧ completes (RR 3) (SchedulerSimulator_init main_processes) s2
           ∧ makespan (processes s1) = makespan (processes s2)
           ∧ makespan (processes s1) = busy_span main_processes.
Proof.
  apply (makespan_is_policy_independent FIFO (RR 3)
           (SchedulerSimulator_init main_processes)).
  - compute_done.
  - done.
  - done.
  - done.
Defined.
